(** * PermutationImportance: contingency metrics and sequential selection

    A shallow embedding of [src/metrics.py] and [src/sequential_selection.py].

    Conventions of the embedding.
    - Python exceptions are the constructors of [exn]; a computation that may
      raise returns an [outcome].
    - A NumPy array is an [ndarray]: one-dimensional label arrays carry integer
      labels of one integer dtype (so [np.append] promotes nothing),
      two-dimensional arrays carry rows of probabilities.
    - The contingency table is allocated by the source with dtype float32.  A
      cell is modelled by the integer the float32 cell holds: a count that is
      stored goes through [float32_of_Z], which is the identity up to 2^24
      and rounds to the nearest float32 beyond.
    - The skill scores are embedded twice.  The first embedding evaluates the
      formulas in exact rational arithmetic: sums of cells are exact, which
      they are in the source whenever the table holds at most 2^24 samples,
      a NumPy division by zero (which NumPy evaluates to inf or nan under a
      warning) is the value [None] of [npfloat], and a division of two
      Python floats by zero raises [ZeroDivisionError].  The second
      embedding ([_peirce_skill_score_ieee], [_gerrity_score_ieee]) follows
      the IEEE 754 operations the source performs, float32 on the float32
      arrays and scalars and float64 on Python floats, with [SpecFloat] of
      the standard library. *)

From Stdlib Require Import String.
From Stdlib Require Import List ZArith QArith Qfield Lia Bool Arith.
From Stdlib Require Import Sorted Permutation.
From Stdlib Require Import SpecFloat.
Import ListNotations.

Set Implicit Arguments.

(* ------------------------------------------------------------------ *)
(** * Python outcomes *)

Inductive exn : Type :=
| UnmatchedLengthPredictionsException
| UnmatchingProbabilisticForecastsException
| AmbiguousProbabilisticForecastsException
| ValueError
| IndexError
| ZeroDivisionError.

Inductive outcome (A : Type) : Type :=
| Ok (a : A)
| Raise (e : exn).

Arguments Ok {A} a.
Arguments Raise {A} e.

Definition bind {A B : Type} (m : outcome A) (f : A -> outcome B) : outcome B :=
  match m with
  | Ok a => f a
  | Raise e => Raise e
  end.

Notation "x <- m ;; k" := (bind m (fun x => k))
  (at level 61, m at next level, right associativity).

Fixpoint mapM {A B : Type} (f : A -> outcome B) (l : list A) : outcome (list B) :=
  match l with
  | [] => Ok []
  | x :: l' => y <- f x ;; ys <- mapM f l' ;; Ok (y :: ys)
  end.

(* ------------------------------------------------------------------ *)
(** * NumPy arrays and the operations the metrics use *)

Inductive ndarray : Type :=
| Arr1 (xs : list Z)                             (* shape (n,)        *)
| Arr2 (ncols : nat) (rows : list (list Q)).     (* shape (n, ncols)  *)

(** Every row of a two-dimensional array has the declared width. *)
Definition wf_array (a : ndarray) : bool :=
  match a with
  | Arr1 _ => true
  | Arr2 k rows => forallb (fun r => length r =? k)%nat rows
  end.

Definition len (a : ndarray) : nat :=
  match a with
  | Arr1 xs => length xs
  | Arr2 _ rows => length rows
  end.

(** [len(a.shape)] *)
Definition ndim (a : ndarray) : nat :=
  match a with
  | Arr1 _ => 1
  | Arr2 _ _ => 2
  end.

Definition Qltb (x y : Q) : bool := negb (Qle_bool y x).

(** [np.argmax] of one row: the first index holding the maximum. *)
Fixpoint argmax_from (best_i : nat) (best : Q) (i : nat) (xs : list Q) : nat :=
  match xs with
  | [] => best_i
  | x :: xs' =>
      if Qltb best x then argmax_from i x (S i) xs'
      else argmax_from best_i best (S i) xs'
  end.

Definition argmax_row (row : list Q) : nat :=
  match row with
  | [] => 0%nat
  | x :: xs => argmax_from 0 x 1 xs
  end.

(** [np.argmax(a, axis=1)]; NumPy refuses an empty reduction axis. *)
Definition np_argmax_axis1 (ncols : nat) (rows : list (list Q)) : outcome (list nat) :=
  if (ncols =? 0)%nat then Raise ValueError else Ok (map argmax_row rows).

(** [np.take(classes, idx)] with the default mode, which raises out of range. *)
Definition np_take (classes : list Z) (idx : list nat) : outcome (list Z) :=
  mapM (fun i => match nth_error classes i with
                 | Some c => Ok c
                 | None => Raise IndexError
                 end) idx.

(** [np.unique]: the sorted distinct elements. *)
Fixpoint insert_unique (x : Z) (l : list Z) : list Z :=
  match l with
  | [] => [x]
  | y :: l' =>
      if (x <? y)%Z then x :: l
      else if (x =? y)%Z then l
      else y :: insert_unique x l'
  end.

Definition np_unique (l : list Z) : list Z := fold_right insert_unique [] l.

(** [np.append] of two one-dimensional arrays of one integer dtype (arrays
    of different dtypes would first be promoted to a common one). *)
Definition np_append (a b : list Z) : list Z := a ++ b.

(* ------------------------------------------------------------------ *)
(** * The contingency table *)

Definition table : Type := list (list Z).

(** The integer a float32 holds after the count [n >= 0] is stored in it:
    [n] itself up to 2^24, beyond that the nearest multiple of the spacing
    [2^e] that float32 has at the magnitude of [n], a tie going to the even
    multiple.  (Counts stay far below 2^128, where float32 overflows.) *)
Definition float32_of_Z (n : Z) : Z :=
  if (n <=? 2 ^ 24)%Z then n
  else
    let e := (Z.log2 n - 23)%Z in
    let q := (n / 2 ^ e)%Z in
    let r := (n mod 2 ^ e)%Z in
    let half := (2 ^ (e - 1))%Z in
    let q' :=
      if (r <? half)%Z then q
      else if (half <? r)%Z then (q + 1)%Z
      else if Z.even q then q else (q + 1)%Z in
    (q' * 2 ^ e)%Z.

Definition np_zeros (r c : nat) : table := repeat (repeat 0%Z c) r.

Fixpoint set_nth {A : Type} (i : nat) (v : A) (l : list A) : list A :=
  match l, i with
  | [], _ => []
  | _ :: l', O => v :: l'
  | x :: l', S i' => x :: set_nth i' v l'
  end.

(** [t[i, j] += 1] on the float32 table; NumPy raises [IndexError] outside
    the table. *)
Definition table_incr (t : table) (i j : nat) : outcome table :=
  match nth_error t i with
  | None => Raise IndexError
  | Some row =>
      match nth_error row j with
      | None => Raise IndexError
      | Some v => Ok (set_nth i (set_nth j (float32_of_Z (v + 1)) row) t)
      end
  end.

(** [for true, pred in zip(trues, preds): table[pred, true] += 1] *)
Fixpoint tally (t : table) (pairs : list (nat * nat)) : outcome table :=
  match pairs with
  | [] => Ok t
  | (true_, pred) :: rest => t' <- table_incr t pred true_ ;; tally t' rest
  end.

(** [l.count(True)] *)
Definition count_true (bs : list bool) : Z :=
  Z.of_nat (count_occ bool_dec bs true).

(** The double loop over [enumerate(classes)] of the deterministic branch,
    each count being stored in a float32 cell. *)
Definition label_table (classes : list Z) (preds truths : list Z) : table :=
  map (fun c1 =>
         map (fun c2 =>
                float32_of_Z
                  (count_true (map (fun pt => (fst pt =? c1)%Z && (snd pt =? c2)%Z)
                                   (combine preds truths))))
             classes)
      classes.

Definition _get_contingency_table (truths predictions : ndarray)
           (classes : option (list Z)) : outcome table :=
  if negb (len truths =? len predictions)%nat then
    Raise UnmatchedLengthPredictionsException
  else
    match truths with
    | Arr2 tcols trows =>
        (* Fully probabilistic model *)
        match predictions with
        | Arr1 _ => Raise UnmatchingProbabilisticForecastsException
        | Arr2 pcols prows =>
            if negb (pcols =? tcols)%nat then
              Raise UnmatchingProbabilisticForecastsException
            else
              trues <- np_argmax_axis1 tcols trows ;;
              preds <- np_argmax_axis1 pcols prows ;;
              tally (np_zeros tcols tcols) (combine trues preds)
        end
    | Arr1 tlabels =>
        preds <-
          match predictions with
          | Arr2 pcols prows =>
              (* in this case, we require the class listing *)
              match classes with
              | None => Raise AmbiguousProbabilisticForecastsException
              | Some cl => idx <- np_argmax_axis1 pcols prows ;; np_take cl idx
              end
          | Arr1 plabels => Ok plabels
          end ;;
        (* Truths and predictions are now both deterministic *)
        let classes' :=
          match classes with
          | None => np_unique (np_append (np_unique tlabels) (np_unique preds))
          | Some cl => cl
          end in
        Ok (label_table classes' preds tlabels)
    end.

(* ------------------------------------------------------------------ *)
(** * Skill scores, in exact arithmetic

    The formulas of the three scores evaluated without rounding: the value
    the source computes up to the rounding of its floating-point operations,
    which the next part embeds. *)

(** A NumPy floating value: [None] once a NumPy division by zero occurred. *)
Definition npfloat : Type := option Q.

Definition np_lift2 (f : Q -> Q -> Q) (x y : npfloat) : npfloat :=
  match x, y with
  | Some a, Some b => Some (f a b)
  | _, _ => None
  end.

Definition np_add : npfloat -> npfloat -> npfloat := np_lift2 Qplus.
Definition np_sub : npfloat -> npfloat -> npfloat := np_lift2 Qminus.
Definition np_mul : npfloat -> npfloat -> npfloat := np_lift2 Qmult.

Definition np_div (x y : npfloat) : npfloat :=
  match x, y with
  | Some a, Some b => if Qeq_bool b 0 then None else Some (a / b)
  | _, _ => None
  end.

(** Division of two Python floats. *)
Definition py_div (a b : Q) : outcome Q :=
  if Qeq_bool b 0 then Raise ZeroDivisionError else Ok (a / b).

Definition np_sum (l : list npfloat) : npfloat := fold_left np_add l (Some 0).

(** [np.cumsum] *)
Fixpoint cumsum_from (acc : npfloat) (l : list npfloat) : list npfloat :=
  match l with
  | [] => []
  | x :: l' => let acc' := np_add acc x in acc' :: cumsum_from acc' l'
  end.

Definition np_cumsum (l : list npfloat) : list npfloat := cumsum_from (Some 0) l.

Definition zsum (l : list Z) : Z := fold_right Z.add 0%Z l.

Fixpoint zip_with {A B C : Type} (f : A -> B -> C) (l1 : list A) (l2 : list B) : list C :=
  match l1, l2 with
  | x :: l1', y :: l2' => f x y :: zip_with f l1' l2'
  | _, _ => []
  end.

(** [table.shape[1]] *)
Definition table_ncols (t : table) : nat :=
  match t with
  | [] => 0%nat
  | r :: _ => length r
  end.

(** [table.sum()], as the exact sum of the cells.  The float32 sum of the
    source adds non-negative integers; while the total is at most 2^24
    every partial sum is an integer below 2^24 and the float32 sum is
    exact. *)
Definition table_sum (t : table) : Z := zsum (map zsum t).

(** [table.sum(axis=1)]: one sum per row. *)
Definition sum_axis1 (t : table) : list Z := map zsum t.

(** [table.sum(axis=0)]: one sum per column. *)
Definition sum_axis0 (t : table) : list Z :=
  fold_right (zip_with Z.add) (repeat 0%Z (table_ncols t)) t.

(** [table.trace()] *)
Fixpoint trace_from (i : nat) (t : table) : Z :=
  match t with
  | [] => 0%Z
  | r :: t' => (nth i r 0 + trace_from (S i) t')%Z
  end.

Definition trace (t : table) : Z := trace_from 0 t.

Definition _peirce_skill_score (t : table) : outcome npfloat :=
  let n := inject_Z (table_sum t) in
  let nf := sum_axis1 t in
  let no := sum_axis0 t in
  let correct := inject_Z (trace t) in
  acc <- py_div correct n ;;
  Ok (np_div
        (Some (acc - inject_Z (zsum (zip_with Z.mul nf no)) / (n ^ 2)))
        (Some (1 - inject_Z (zsum (zip_with Z.mul no no)) / (n ^ 2)))).

Definition _heidke_skill_score (t : table) : outcome npfloat :=
  let n := inject_Z (table_sum t) in
  let nf := sum_axis1 t in
  let no := sum_axis0 t in
  let correct := inject_Z (trace t) in
  acc <- py_div correct n ;;
  Ok (np_div
        (Some (acc - inject_Z (zsum (zip_with Z.mul nf no)) / (n ^ 2)))
        (Some (1 - inject_Z (zsum (zip_with Z.mul nf no)) / (n ^ 2)))).

(** Python slice [a[lo:hi]] for in-range non-negative bounds. *)
Definition slice {A : Type} (lo hi : nat) (a : list A) : list A :=
  skipn lo (firstn hi a).

Definition np_recip (x : npfloat) : npfloat := np_div (Some 1) x.

(** One assignment [s[i, j] = ...] of the Gerrity loop.  The loop visits the
    cells in row-major order, so for [i > j] the cell [s[j, i]] it copies has
    already received the value of the [i < j] formula at [(j, i)]. *)
Definition gerrity_cell (k : nat) (a : list npfloat) (i j : nat) : outcome npfloat :=
  let kq := inject_Z (Z.of_nat k) in
  let upper (i j : nat) : outcome npfloat :=
    f <- py_div 1 (kq - 1) ;;
    Ok (np_mul (Some f)
               (np_add
                  (np_sub (np_sum (map np_recip (slice 0 i a)))
                          (Some (inject_Z (Z.of_nat j - Z.of_nat i))))
                  (np_sum (slice j (k - 1) a)))) in
  if (i =? j)%nat then
    f <- py_div 1 (kq - 1) ;;
    Ok (np_mul (Some f)
               (np_add (np_sum (map np_recip (slice 0 j a)))
                       (np_sum (slice j (k - 1) a))))
  else if (i <? j)%nat then upper i j
  else upper j i.

Definition _gerrity_score (t : table) : outcome npfloat :=
  let k := length t in
  let n := inject_Z (table_sum t) in
  let p_o := map (fun c => np_div (Some (inject_Z c)) (Some n)) (sum_axis0 t) in
  let p_sum := removelast (np_cumsum p_o) in
  let a := map (fun p => np_div (np_sub (Some 1) p) p) p_sum in
  s <- mapM (fun i => mapM (gerrity_cell k a i) (seq 0 (table_ncols t))) (seq 0 k) ;;
  let total := inject_Z (table_sum t) in
  Ok (np_sum
        (concat
           (zip_with
              (zip_with (fun c sij => np_mul (np_div (Some (inject_Z c)) (Some total)) sij))
              t s))).

Definition gerrity_score (truths predictions : ndarray) (classes : option (list Z))
  : outcome npfloat :=
  t <- _get_contingency_table truths predictions classes ;;
  _gerrity_score t.

Definition peirce_skill_score (truths predictions : ndarray) (classes : option (list Z))
  : outcome npfloat :=
  t <- _get_contingency_table truths predictions classes ;;
  _peirce_skill_score t.

Definition heidke_skill_score (truths predictions : ndarray) (classes : option (list Z))
  : outcome npfloat :=
  t <- _get_contingency_table truths predictions classes ;;
  _heidke_skill_score t.

(* ------------------------------------------------------------------ *)
(** * The skill scores in IEEE 754 arithmetic

    The same routines with the floating-point operations the source
    performs.  The table is a float32 array; [float(...)] and the literals
    are Python floats (binary64); an array operation with a Python float
    stays in float32; a float32 scalar meeting a Python float or a Python
    int gives float64 under NumPy's legacy promotion and float32 under
    NEP 50 (NumPy 2), so a Python int operand is written as the Python
    float of its value. *)

Definition f32_add := SFadd 24 128.
Definition f32_sub := SFsub 24 128.
Definition f32_mul := SFmul 24 128.
Definition f32_div := SFdiv 24 128.
Definition f64_add := SFadd 53 1024.
Definition f64_sub := SFsub 53 1024.
Definition f64_mul := SFmul 53 1024.
Definition f64_div := SFdiv 53 1024.

(** Conversion to float32 (rounding) and to float64. *)
Definition to_f32 (x : spec_float) : spec_float :=
  match x with
  | S754_finite s m e => binary_round 24 128 s m e
  | _ => x
  end.

Definition to_f64 (x : spec_float) : spec_float :=
  match x with
  | S754_finite s m e => binary_round 53 1024 s m e
  | _ => x
  end.

Definition f32_of_Z (n : Z) : spec_float := binary_normalize 24 128 n 0 false.
Definition f64_of_Z (n : Z) : spec_float := binary_normalize 53 1024 n 0 false.

Definition fzero : spec_float := S754_zero false.
Definition f64_one : spec_float := f64_of_Z 1.

(** A Python or NumPy scalar: its type and its value. *)
Inductive scalar_kind : Type := PyFloat | NpFloat32 | NpFloat64.

Record scalar : Type := { kind : scalar_kind; value : spec_float }.

Definition py (x : spec_float) : scalar := {| kind := PyFloat; value := x |}.
Definition np32 (x : spec_float) : scalar := {| kind := NpFloat32; value := x |}.
Definition np64 (x : spec_float) : scalar := {| kind := NpFloat64; value := x |}.

(** Division of two Python floats. *)
Definition py_truediv (a b : spec_float) : outcome spec_float :=
  if SFeqb b fzero then Raise ZeroDivisionError else Ok (f64_div a b).

Section Reductions.
Variable add : spec_float -> spec_float -> spec_float.

(** NumPy's pairwise summation of a contiguous array: a plain loop below 8
    elements, 8 interleaved accumulators up to 128, halves beyond. *)
Fixpoint add_blocks (c : nat) (r l : list spec_float)
  : list spec_float * list spec_float :=
  match c with
  | O => (r, l)
  | S c' => add_blocks c' (zip_with add r (firstn 8 l)) (skipn 8 l)
  end.

Definition unrolled_sum (l : list spec_float) : spec_float :=
  let '(r, rest) := add_blocks (length l / 8 - 1) (firstn 8 l) (skipn 8 l) in
  let r_ (i : nat) := nth i r fzero in
  let res :=
    add (add (add (r_ 0%nat) (r_ 1%nat)) (add (r_ 2%nat) (r_ 3%nat)))
        (add (add (r_ 4%nat) (r_ 5%nat)) (add (r_ 6%nat) (r_ 7%nat))) in
  fold_left add rest res.

Fixpoint pairwise_sum (fuel : nat) (l : list spec_float) : spec_float :=
  let n := length l in
  if (n <? 8)%nat then fold_left add l fzero
  else if (n <=? 128)%nat then unrolled_sum l
  else
    match fuel with
    | O => unrolled_sum l
    | S fuel' =>
        let n2 := (n / 2 - (n / 2) mod 8)%nat in
        add (pairwise_sum fuel' (firstn n2 l)) (pairwise_sum fuel' (skipn n2 l))
    end.

(** [np.sum] of a one-dimensional array: the identity 0 plus the pairwise
    sum. *)
Definition sum_ieee (l : list spec_float) : spec_float :=
  add fzero (pairwise_sum (length l) l).

(** [a.sum(axis=0)] of a two-dimensional array: the rows are added one
    after the other onto zeros. *)
Definition colsum_ieee (ncols : nat) (rows : list (list spec_float))
  : list spec_float :=
  fold_left (zip_with add) rows (repeat fzero ncols).

(** [np.cumsum] *)
Fixpoint cumsum_ieee_from (acc : spec_float) (l : list spec_float)
  : list spec_float :=
  match l with
  | [] => []
  | x :: l' => let acc' := add acc x in acc' :: cumsum_ieee_from acc' l'
  end.

Definition cumsum_ieee (l : list spec_float) : list spec_float :=
  match l with
  | [] => []
  | x :: l' => x :: cumsum_ieee_from x l'
  end.
End Reductions.

(** The diagonal of a two-dimensional array. *)
Fixpoint diagonal_from {A : Type} (i : nat) (rows : list (list A)) : list A :=
  match rows with
  | [] => []
  | r :: rows' =>
      match nth_error r i with
      | Some x => x :: diagonal_from (S i) rows'
      | None => []
      end
  end.

(** The float32 array a table is. *)
Definition cells32 (t : table) : list (list spec_float) := map (map f32_of_Z) t.

Section Promotion.
(** [true]: legacy promotion (NumPy before 2); [false]: NEP 50. *)
Variable legacy : bool.

Definition result_kind (a b : scalar_kind) : scalar_kind :=
  match a, b with
  | PyFloat, PyFloat => PyFloat
  | NpFloat64, _ | _, NpFloat64 => NpFloat64
  | NpFloat32, NpFloat32 => NpFloat32
  | _, _ => if legacy then NpFloat64 else NpFloat32
  end.

Definition scalar_op (op32 op64 : spec_float -> spec_float -> spec_float)
           (a b : scalar) : scalar :=
  match result_kind (kind a) (kind b) with
  | NpFloat32 =>
      {| kind := NpFloat32; value := op32 (to_f32 (value a)) (to_f32 (value b)) |}
  | k => {| kind := k; value := op64 (to_f64 (value a)) (to_f64 (value b)) |}
  end.

Definition s_add := scalar_op f32_add f64_add.
Definition s_sub := scalar_op f32_sub f64_sub.
Definition s_mul := scalar_op f32_mul f64_mul.
Definition s_div := scalar_op f32_div f64_div.

(** [_peirce_skill_score]: [n] and [correct] are Python floats, [nf] and
    [no] float32 arrays, [(nf * no).sum()] a float32 scalar. *)
Definition _peirce_skill_score_ieee (t : table) : outcome scalar :=
  let cells := cells32 t in
  let n := to_f64 (sum_ieee f32_add (concat cells)) in
  let nf := map (sum_ieee f32_add) cells in
  let no := colsum_ieee f32_add (table_ncols t) cells in
  let correct := to_f64 (sum_ieee f32_add (diagonal_from 0 cells)) in
  acc <- py_truediv correct n ;;
  let n2 := py (f64_mul n n) in
  let rc := np32 (sum_ieee f32_add (zip_with f32_mul nf no)) in
  let cc := np32 (sum_ieee f32_add (zip_with f32_mul no no)) in
  Ok (s_div (s_sub (py acc) (s_div rc n2)) (s_sub (py f64_one) (s_div cc n2))).

(** [_heidke_skill_score] *)
Definition _heidke_skill_score_ieee (t : table) : outcome scalar :=
  let cells := cells32 t in
  let n := to_f64 (sum_ieee f32_add (concat cells)) in
  let nf := map (sum_ieee f32_add) cells in
  let no := colsum_ieee f32_add (table_ncols t) cells in
  let correct := to_f64 (sum_ieee f32_add (diagonal_from 0 cells)) in
  acc <- py_truediv correct n ;;
  let n2 := py (f64_mul n n) in
  let rc := np32 (sum_ieee f32_add (zip_with f32_mul nf no)) in
  Ok (s_div (s_sub (py acc) (s_div rc n2)) (s_sub (py f64_one) (s_div rc n2))).

(** One assignment [s[i, j] = ...] of the Gerrity loop: [a] is a float32
    array, [np.sum] of a slice a float32 scalar, and [s] a float64 array. *)
Definition gerrity_cell_ieee (k : nat) (a : list spec_float) (i j : nat)
  : outcome spec_float :=
  let inv_sum (hi : nat) :=
    np32 (sum_ieee f32_add (map (f32_div (to_f32 f64_one)) (slice 0 hi a))) in
  let tail_sum (lo : nat) := np32 (sum_ieee f32_add (slice lo (k - 1) a)) in
  let upper (i j : nat) : outcome spec_float :=
    f <- py_truediv f64_one (f64_sub (f64_of_Z (Z.of_nat k)) f64_one) ;;
    Ok (to_f64
          (value
             (s_mul (py f)
                    (s_add (s_sub (inv_sum i) (py (f64_of_Z (Z.of_nat j - Z.of_nat i))))
                           (tail_sum j))))) in
  if (i =? j)%nat then
    f <- py_truediv f64_one (f64_sub (f64_of_Z (Z.of_nat k)) f64_one) ;;
    Ok (to_f64 (value (s_mul (py f) (s_add (inv_sum j) (tail_sum j)))))
  else if (i <? j)%nat then upper i j
  else upper j i.

(** [_gerrity_score]: [p_o], [p_sum] and [a] are float32 arrays;
    [table / float(table.sum())] is float32 and its product with [s]
    float64. *)
Definition _gerrity_score_ieee (t : table) : outcome scalar :=
  let k := length t in
  let cells := cells32 t in
  let n := to_f64 (sum_ieee f32_add (concat cells)) in
  let p_o :=
    map (fun c => f32_div c (to_f32 n)) (colsum_ieee f32_add (table_ncols t) cells) in
  let p_sum := removelast (cumsum_ieee f32_add p_o) in
  let a := map (fun p => f32_div (f32_sub (to_f32 f64_one) p) p) p_sum in
  s <- mapM (fun i => mapM (gerrity_cell_ieee k a i) (seq 0 (table_ncols t))) (seq 0 k) ;;
  let total := to_f64 (sum_ieee f32_add (concat cells)) in
  Ok (np64
        (sum_ieee f64_add
           (concat
              (zip_with
                 (zip_with (fun c sij => f64_mul (to_f64 (f32_div c (to_f32 total))) sij))
                 cells s)))).

Definition gerrity_score_ieee (truths predictions : ndarray)
           (classes : option (list Z)) : outcome scalar :=
  t <- _get_contingency_table truths predictions classes ;;
  _gerrity_score_ieee t.

Definition peirce_skill_score_ieee (truths predictions : ndarray)
           (classes : option (list Z)) : outcome scalar :=
  t <- _get_contingency_table truths predictions classes ;;
  _peirce_skill_score_ieee t.

Definition heidke_skill_score_ieee (truths predictions : ndarray)
           (classes : option (list Z)) : outcome scalar :=
  t <- _get_contingency_table truths predictions classes ;;
  _heidke_skill_score_ieee t.
End Promotion.

(** The integer a finite float with non-negative exponent stands for. *)
Definition Z_of_float (x : spec_float) : option Z :=
  match x with
  | S754_zero _ => Some 0%Z
  | S754_finite s m e =>
      if (0 <=? e)%Z then Some ((if s then Z.neg m else Z.pos m) * 2 ^ e)%Z
      else if (Z.pos m mod 2 ^ (- e) =? 0)%Z
           then Some ((if s then Z.neg m else Z.pos m) / 2 ^ (- e))%Z
           else None
  | _ => None
  end.

(* ------------------------------------------------------------------ *)
(** * Sequential selection *)

(** Python's [min(xs, key=f)]: the first element whose key no later element
    undercuts; [ValueError] on an empty sequence. *)
Section PyMin.
Variables (A K : Type).
Variable ltb : K -> K -> bool.
Variable key : A -> K.

Fixpoint py_min_from (best : A) (xs : list A) : A :=
  match xs with
  | [] => best
  | x :: xs' =>
      if ltb (key x) (key best) then py_min_from x xs' else py_min_from best xs'
  end.

Definition py_min (xs : list A) : outcome A :=
  match xs with
  | [] => Raise ValueError
  | x :: xs' => Ok (py_min_from x xs')
  end.
End PyMin.

(** [np.flatnonzero(mask)] *)
Fixpoint flatnonzero_from (i : nat) (mask : list bool) : list nat :=
  match mask with
  | [] => []
  | b :: mask' =>
      if b then i :: flatnonzero_from (S i) mask' else flatnonzero_from (S i) mask'
  end.

Definition flatnonzero (mask : list bool) : list nat := flatnonzero_from 0 mask.

(** [xs[0]] *)
Definition index0 {A : Type} (xs : list A) : outcome A :=
  match xs with
  | [] => Raise IndexError
  | x :: _ => Ok x
  end.

(** Modelled from the spec: the Selection Strategy Generator of the sequential
    forward variant, [sfs_strategy] of the absent module selection_strategies.
    One pair per variable not yet important, in ascending variable index, the
    columns being the important ones followed by the candidate. *)
Definition sfs_strategy (num_vars : nat) (important_vars : list nat)
  : list (nat * list nat) :=
  map (fun i => (i, important_vars ++ [i]))
      (filter (fun i => negb (existsb (Nat.eqb i) important_vars)) (seq 0 num_vars)).

Section Engine.
(** Input data, outputs and scores are opaque to the engine. *)
Variables (Inputs Outputs Score : Type).
(** Variable names, and the values the round mapping stores under them; the
    engine only reads component [0] of a value, its comparison key. *)
Variables (Name Value Key Strategy : Type).
Variable name_eqb : Name -> Name -> bool.
Variable key_ltb : Key -> Key -> bool.
Variable item0 : Value -> Key.

(** A Python dict: its items in insertion order. *)
Definition dict : Type := list (Name * Value).

(** The collaborators that live outside [src/]: the data accessor and
    [convert_result_list_to_dict]. *)
Variable get_data_subset : Inputs -> list nat -> Inputs.
Variable convert :
  list (nat * Score) -> list Name -> Strategy -> outcome dict.

(** The arguments of [sequential_selection], after the checks of [Init]. *)
Variable training_data : Inputs * Outputs.
Variable scoring_data : Inputs * Outputs.
Variable scoring_fn : Inputs * Outputs -> Inputs * Outputs -> Score.
Variable scoring_strategy : Strategy.
Variable selection_strategy : nat -> list nat -> list (nat * list nat).
Variable variable_names : list Name.

(** Modelled from the spec: the Importance Result of the absent module
    result, an append-only ledger of the round mappings and their winners. *)
Record ImportanceResult : Type := {
  method_name : String.string;
  result_names : list Name;
  ledger : list (dict * Name)
}.

Definition add_new_results (r : ImportanceResult) (next_result : dict)
           (next_important_variable : Name) : ImportanceResult :=
  {| method_name := method_name r;
     result_names := result_names r;
     ledger := ledger r ++ [(next_result, next_important_variable)] |}.

Definition _singlethread_iteration (training_data scoring_data : Inputs * Outputs)
           (selection_iterator : list (nat * list nat)) : list (nat * Score) :=
  let '(training_inputs, training_outputs) := training_data in
  let '(scoring_inputs, scoring_outputs) := scoring_data in
  map (fun vc : nat * list nat =>
         let '(var, column_indices) := vc in
         let training_inputs_subset := get_data_subset training_inputs column_indices in
         let scoring_inputs_subset := get_data_subset scoring_inputs column_indices in
         (var, scoring_fn (training_inputs_subset, training_outputs)
                          (scoring_inputs_subset, scoring_outputs)))
      selection_iterator.

(** The state the loop of [sequential_selection] carries. *)
Record loop_state : Type := {
  important_vars : list nat;
  result_obj : ImportanceResult
}.

(** The candidates a round generates from a state. *)
Definition candidates (st : loop_state) : list nat :=
  map fst (selection_strategy (length variable_names) (important_vars st)).

(** [min(next_result.keys(), key=lambda key: next_result[key][0])]; the keys
    of a dict are distinct, so looking a key up returns the value it is
    stored with. *)
Definition best_of (next_result : dict) : outcome Name :=
  item <- py_min key_ltb (fun kv : Name * Value => item0 (snd kv)) next_result ;;
  Ok (fst item).

(** One pass through the loop body. *)
Definition round (st : loop_state) : outcome loop_state :=
  let num_vars := length variable_names in
  let result :=
    _singlethread_iteration training_data scoring_data
      (selection_strategy num_vars (important_vars st)) in
  next_result <- convert result variable_names scoring_strategy ;;
  best_var <- best_of next_result ;;
  best_index <- index0 (flatnonzero (map (fun v => name_eqb v best_var) variable_names)) ;;
  Ok {| important_vars := important_vars st ++ [best_index];
        result_obj := add_new_results (result_obj st) next_result best_var |}.

(** [for _ in range(n): ...] *)
Fixpoint rounds (n : nat) (st : loop_state) : outcome loop_state :=
  match n with
  | O => Ok st
  | S n' => st' <- round st ;; rounds n' st'
  end.

Definition init_state (method : String.string) : loop_state :=
  {| important_vars := [];
     result_obj := {| method_name := method;
                      result_names := variable_names;
                      ledger := [] |} |}.

Definition sequential_selection (selection_strategy_name : String.string)
           (nimportant_vars : option nat) (method : option (String.string))
  : outcome ImportanceResult :=
  let nimportant_vars :=
    match nimportant_vars with
    | None => length variable_names
    | Some n => n
    end in
  let method :=
    match method with
    | None => selection_strategy_name
    | Some m => m
    end in
  st <- rounds nimportant_vars (init_state method) ;;
  Ok (result_obj st).
End Engine.


Definition sequential_forward_selection
           (Inputs Outputs Score Name Value Key Strategy : Type)
           (name_eqb : Name -> Name -> bool) (key_ltb : Key -> Key -> bool)
           (item0 : Value -> Key)
           (get_data_subset : Inputs -> list nat -> Inputs)
           (convert : list (nat * Score) -> list Name -> Strategy
                      -> outcome (dict Name Value))
           (training_data scoring_data : Inputs * Outputs)
           (scoring_fn : Inputs * Outputs -> Inputs * Outputs -> Score)
           (scoring_strategy : Strategy) (variable_names : list Name)
           (nimportant_vars : option nat)
  : outcome (ImportanceResult Name Value) :=
  sequential_selection name_eqb key_ltb item0 get_data_subset convert
    training_data scoring_data scoring_fn scoring_strategy sfs_strategy
    variable_names "sfs_strategy"%string nimportant_vars
    (Some "Sequential Forward Selection"%string).

(* ------------------------------------------------------------------ *)
(** * Collaborators modelled from the spec *)

(** Modelled from the spec: the named policies of the Scoring Strategy
    Resolver (absent module scoring_strategies), "argmin"/"argmax" keyed by
    the sign convention of the score. *)
Inductive strategy : Type := Argmin | Argmax.

Definition comparison_key (s : strategy) (score : Q) : Q :=
  match s with
  | Argmin => score
  | Argmax => - score
  end.

(** [d[k] = v] on a dict kept in insertion order. *)
Fixpoint dict_set {N V : Type} (eqb : N -> N -> bool) (d : list (N * V)) (k : N) (v : V)
  : list (N * V) :=
  match d with
  | [] => [(k, v)]
  | (k', v') :: d' =>
      if eqb k' k then (k', v) :: d' else (k', v') :: dict_set eqb d' k v
  end.

(** Modelled from the spec: [convert_result_list_to_dict] of the absent module
    utils.  The collected (variable, score) list becomes the round-result
    mapping from variable name to (comparison key, score), filled in the
    order of the list. *)
Definition convert_result_list_to_dict {N : Type} (eqb : N -> N -> bool)
           (result : list (nat * Q)) (variable_names : list N) (s : strategy)
  : outcome (list (N * (Q * Q))) :=
  fold_left
    (fun acc vs =>
       d <- acc ;;
       match nth_error variable_names (fst vs) with
       | Some name => Ok (dict_set eqb d name (comparison_key s (snd vs), snd vs))
       | None => Raise IndexError
       end)
    result (Ok []).

(** Modelled from the spec: the data accessor ([get_data_subset] of the absent
    module utils) on data given by its column identifiers. *)
Definition get_data_subset (inputs : list nat) (column_indices : list nat) : list nat :=
  map (fun c => nth c inputs 0%nat) column_indices.

(** A scoring callback that returns a fixed score for the column evaluated
    last, the one the round is trying out. *)
Definition fixed_scoring_fn (scores : list Q)
           (training scoring : list nat * unit) : Q :=
  nth (last (fst training) 0%nat) scores 0.

Definition run_fixed (scores : list Q) (s : strategy)
           (variable_names : list String.string) (nimportant_vars : option nat)
  : outcome (ImportanceResult String.string (Q * Q)) :=
  sequential_forward_selection String.eqb Qltb (@fst Q Q) get_data_subset
    (convert_result_list_to_dict String.eqb)
    (seq 0 (length variable_names), tt) (seq 0 (length variable_names), tt)
    (fixed_scoring_fn scores) s variable_names nimportant_vars.

(** The loop of [run_fixed], keeping the state the loop carries. *)
Definition rounds_fixed (scores : list Q) (s : strategy)
           (variable_names : list String.string) (n : nat)
  : outcome (loop_state String.string (Q * Q)) :=
  rounds String.eqb Qltb (@fst Q Q) get_data_subset
    (convert_result_list_to_dict String.eqb)
    (seq 0 (length variable_names), tt) (seq 0 (length variable_names), tt)
    (fixed_scoring_fn scores) s sfs_strategy variable_names n
    (init_state (Q * Q) variable_names "Sequential Forward Selection"%string).

(** The important-variable sequence a result exposes. *)
Definition important_sequence {N V : Type} (r : ImportanceResult N V) : list N :=
  map snd (ledger r).

Unset Implicit Arguments.

(** The number of sample positions [p < n] at which [P] holds. *)
Definition count_positions (P : nat -> bool) (n : nat) : Z :=
  Z.of_nat (length (filter P (seq 0 n))).

(** Cell [t[i, j]] of a table. *)
Definition cell (t : table) (i j : nat) : Z := nth j (nth i t []) 0%Z.

(** A table of shape [(k, k)]. *)
Definition square (k : nat) (t : table) : Prop :=
  length t = k /\ Forall (fun r => length r = k) t.

(** ** The score formulas in the words of the spec

    [n = sum(T)], the row marginal is the sum over the columns of a row, the
    column marginal the sum over the rows of a column, [correct = trace(T)]. *)

(** [Σ_{i<k} f i] *)
Definition big_sum (k : nat) (f : nat -> Z) : Z := zsum (map f (seq 0 k)).

Definition grand_total (k : nat) (t : table) : Z :=
  big_sum k (fun i => big_sum k (fun j => cell t i j)).

Definition row_marginal (k : nat) (t : table) (i : nat) : Z :=
  big_sum k (fun j => cell t i j).

Definition col_marginal (k : nat) (t : table) (j : nat) : Z :=
  big_sum k (fun i => cell t i j).

Definition correct (k : nat) (t : table) : Z := big_sum k (fun i => cell t i i).




(** [i] is the arg-max of [row]: the first index that holds the largest
    entry of the row. *)
Definition first_largest (row : list Q) (i : nat) : Prop :=
  (i < length row)%nat /\
  (forall j, (j < length row)%nat -> nth j row 0 <= nth i row 0) /\
  (forall j, (j < i)%nat -> nth j row 0 < nth i row 0).

(** Every cell is a non-negative count. *)
Definition nonneg_table (t : table) : Prop :=
  Forall (Forall (fun c => 0 <= c)%Z) t.

(** The class listings under which every sample lands in exactly one cell:
    two-dimensional truths, derived classes, or a supplied duplicate-free
    listing that holds every truth label and every label prediction. *)
Definition classes_cover (truths predictions : ndarray) (classes : option (list Z))
  : Prop :=
  match truths, classes with
  | Arr2 _ _, _ => True
  | Arr1 _, None => True
  | Arr1 tlabels, Some cl =>
      NoDup cl /\ incl tlabels cl /\
      match predictions with
      | Arr1 plabels => incl plabels cl
      | Arr2 _ _ => True
      end
  end.


(** [w] sits at position [p] of [xs], nothing in [xs] has a smaller key, and
    everything before [p] has a strictly larger one. *)
Definition first_minimal {A K : Type} (ltb : K -> K -> bool) (key : A -> K)
           (xs : list A) (p : nat) (w : A) : Prop :=
  nth_error xs p = Some w /\
  (forall q x, nth_error xs q = Some x -> ltb (key x) (key w) = false) /\
  (forall q x, (q < p)%nat -> nth_error xs q = Some x -> ltb (key w) (key x) = true).

(** The mapping lists the candidates of a round, under their names, in the
    order of the candidates: the stable insertion order the spec requires
    upstream of the winner selection. *)
Definition keyed_in_order {Name Value : Type} (variable_names : list Name)
           (cands : list nat) (d : dict Name Value) : Prop :=
  map Some (map fst d) = map (nth_error variable_names) cands.

(** What a round leaves behind: the ledger entry [e] holds the mapping of
    the round with the winner [best_of] picks from it, and [i] is the first
    position of the winner's name in the variable names. *)
Definition round_entry {Name Value Key : Type} (key_ltb : Key -> Key -> bool)
           (item0 : Value -> Key) (variable_names : list Name)
           (i : nat) (e : dict Name Value * Name) : Prop :=
  best_of key_ltb item0 (fst e) = Ok (snd e) /\
  nth_error variable_names i = Some (snd e) /\
  forall j, (j < i)%nat -> nth_error variable_names j <> Some (snd e).

(** What holds of the loop state after [r] rounds over [m] variables. *)
Definition round_invariant {Name Value : Type} (m r : nat)
           (st : loop_state Name Value) : Prop :=
  length (important_vars st) = r /\
  NoDup (important_vars st) /\
  (forall v, In v (important_vars st) -> (v < m)%nat) /\
  length (ledger (result_obj st)) = r.

(* ================================================================== *)
(** * Properties of the contingency table *)

Lemma bind_Ok_inv {A B : Type} (m : outcome A) (f : A -> outcome B) (b : B) :
  bind m f = Ok b -> exists a, m = Ok a /\ f a = Ok b.
Proof.
  destruct m as [a | e]; simpl; intros H; [eauto | discriminate].
Qed.

Lemma filter_seq_shift (P : nat -> bool) (a n : nat) :
  length (filter P (seq (S a) n)) = length (filter (fun p => P (S p)) (seq a n)).
Proof.
  revert a; induction n as [| n IH]; intros a; simpl; [reflexivity |].
  destruct (P (S a)); simpl; rewrite IH; reflexivity.
Qed.

(** Counting [True] in a comprehension over a list is counting positions. *)
Lemma count_true_positions {A : Type} (f : A -> bool) (d : A) (l : list A) :
  count_true (map f l) = count_positions (fun p => f (nth p l d)) (length l).
Proof.
  unfold count_true, count_positions; f_equal.
  induction l as [| x l IH]; simpl; [reflexivity |].
  destruct (f x); simpl.
  - destruct (bool_dec true true); [| congruence].
    now rewrite filter_seq_shift, IH.
  - destruct (bool_dec false true); [discriminate |].
    now rewrite filter_seq_shift.
Qed.

Lemma count_positions_ext (P P' : nat -> bool) (n : nat) :
  (forall p, (p < n)%nat -> P p = P' p) -> count_positions P n = count_positions P' n.
Proof.
  intros H; unfold count_positions; f_equal; f_equal.
  apply filter_ext_in; intros p Hp; apply in_seq in Hp; apply H; lia.
Qed.

Lemma count_true_nonneg (bs : list bool) : (0 <= count_true bs)%Z.
Proof. unfold count_true; lia. Qed.

Lemma count_positions_le (P : nat -> bool) (n : nat) :
  (count_positions P n <= Z.of_nat n)%Z.
Proof.
  unfold count_positions.
  pose proof (filter_length_le P (seq 0 n)) as H; rewrite length_seq in H; lia.
Qed.

Lemma count_positions_nonneg (P : nat -> bool) (n : nat) :
  (0 <= count_positions P n)%Z.
Proof. unfold count_positions; lia. Qed.

(** ** Storing a count in a float32 cell *)

Lemma float32_exact (n : Z) : (n <= 2 ^ 24)%Z -> float32_of_Z n = n.
Proof.
  intros H; unfold float32_of_Z.
  destruct (Z.leb_spec n (2 ^ 24)); [reflexivity | lia].
Qed.

Lemma float32_spacing (n : Z) :
  (2 ^ 24 < n)%Z ->
  (0 < 2 ^ (Z.log2 n - 23))%Z /\ (1 <= n / 2 ^ (Z.log2 n - 23))%Z.
Proof.
  intros H.
  assert (Hlog : (24 <= Z.log2 n)%Z) by (apply Z.log2_le_pow2; lia).
  assert (Hpos : (0 < 2 ^ (Z.log2 n - 23))%Z) by (apply Z.pow_pos_nonneg; lia).
  split; [exact Hpos |].
  assert (Hle : (2 ^ (Z.log2 n - 23) <= n)%Z).
  { transitivity (2 ^ Z.log2 n)%Z.
    - apply Z.pow_le_mono_r; lia.
    - apply Z.log2_spec; lia. }
  apply Z.div_le_lower_bound; lia.
Qed.

Lemma float32_pos (n : Z) : (0 < n)%Z -> (0 < float32_of_Z n)%Z.
Proof.
  intros H; unfold float32_of_Z.
  destruct (Z.leb_spec n (2 ^ 24)) as [| Hbig]; [exact H |].
  destruct (float32_spacing n Hbig) as [Hpos Hq].
  cbv zeta.
  destruct (_ <? _)%Z; [nia |].
  destruct (_ <? _)%Z; [nia |].
  destruct (Z.even _); nia.
Qed.

Lemma float32_nonneg (n : Z) : (0 <= n)%Z -> (0 <= float32_of_Z n)%Z.
Proof.
  intros H.
  destruct (Z.eq_dec n 0) as [-> | Hne]; [now vm_compute |].
  pose proof (float32_pos n); lia.
Qed.

(** Adding one to a float32 cell stops at 2^24: the next integer is not a
    float32, and the tie rounds back to 2^24. *)
Lemma float32_succ (v : Z) :
  (0 <= v <= 2 ^ 24)%Z -> float32_of_Z (v + 1) = Z.min (v + 1) (2 ^ 24).
Proof.
  intros [H0 H1].
  destruct (Z.eq_dec v (2 ^ 24)) as [-> | Hne]; [reflexivity |].
  rewrite float32_exact by lia; lia.
Qed.

(** [float32_of_Z] is the integer that IEEE rounding to binary32 gives:
    checked on the integers around 2^24, 2^25 and 2^26, where the spacing
    of float32 changes, and on some larger ones. *)
Example float32_of_Z_rounds_to_nearest_even :
  forallb
    (fun n =>
       match Z_of_float (f32_of_Z n) with
       | Some z => (z =? float32_of_Z n)%Z
       | None => false
       end)
    ([0; 1; 2; 3; 1000; 123456789012; 2 ^ 40 + 2 ^ 16; 2 ^ 40 + 2 ^ 16 + 1;
      2 ^ 40 + 3 * 2 ^ 16; 2 ^ 100 + 1; 2 ^ 127]%Z
     ++ map (fun i => 2 ^ 24 - 100 + Z.of_nat i)%Z (seq 0 300)
     ++ map (fun i => 2 ^ 25 - 100 + Z.of_nat i)%Z (seq 0 300)
     ++ map (fun i => 2 ^ 26 - 100 + Z.of_nat i)%Z (seq 0 300))
  = true.
Proof. vm_compute; reflexivity. Qed.

(** ** [np.unique] *)

Lemma insert_unique_In (x y : Z) (l : list Z) :
  In y (insert_unique x l) <-> y = x \/ In y l.
Proof.
  induction l as [| z l IH]; simpl.
  - intuition congruence.
  - destruct (Z.ltb_spec x z); simpl; [intuition congruence |].
    destruct (Z.eqb_spec x z); simpl; [subst; intuition congruence |].
    rewrite IH; intuition congruence.
Qed.

Lemma insert_unique_sorted (x : Z) (l : list Z) :
  StronglySorted Z.lt l -> StronglySorted Z.lt (insert_unique x l).
Proof.
  induction 1 as [| z l Hs IH Hall]; simpl.
  - constructor; constructor.
  - destruct (Z.ltb_spec x z).
    + constructor; [now constructor |].
      constructor; [assumption |].
      eapply Forall_impl; [| exact Hall]; simpl; intros; lia.
    + destruct (Z.eqb_spec x z); [now constructor |].
      constructor; [assumption |].
      apply Forall_forall; intros y Hy.
      apply insert_unique_In in Hy; destruct Hy as [-> | Hy]; [lia |].
      rewrite Forall_forall in Hall; now apply Hall.
Qed.

Lemma np_unique_In (y : Z) (l : list Z) : In y (np_unique l) <-> In y l.
Proof.
  induction l as [| x l IH]; simpl; [tauto |].
  rewrite insert_unique_In, IH; intuition congruence.
Qed.

Lemma np_unique_sorted (l : list Z) : StronglySorted Z.lt (np_unique l).
Proof.
  induction l as [| x l IH]; simpl; [constructor | now apply insert_unique_sorted].
Qed.

(** ** The deterministic branch *)

Lemma label_table_square (classes preds truths : list Z) :
  square (length classes) (label_table classes preds truths).
Proof.
  unfold square, label_table; split.
  - now rewrite length_map.
  - apply Forall_forall; intros r Hr.
    apply in_map_iff in Hr; destruct Hr as [c [<- _]]; now rewrite length_map.
Qed.

Lemma label_table_cell (classes preds truths : list Z) (i j : nat) (ci cj : Z) :
  length truths = length preds ->
  nth_error classes i = Some ci ->
  nth_error classes j = Some cj ->
  cell (label_table classes preds truths) i j =
  float32_of_Z
    (count_positions
       (fun p => (nth p preds 0 =? ci)%Z && (nth p truths 0 =? cj)%Z) (length truths)).
Proof.
  intros Hlen Hi Hj; unfold cell, label_table.
  set (row := fun c1 : Z => map _ classes).
  rewrite (nth_indep _ [] (row 0%Z))
    by (rewrite length_map; apply nth_error_Some; congruence).
  rewrite (map_nth row), (nth_error_nth _ _ _ Hi); subst row; cbv beta.
  set (f := fun c2 : Z => float32_of_Z _).
  rewrite (nth_indep _ 0%Z (f 0%Z))
    by (rewrite length_map; apply nth_error_Some; congruence).
  rewrite (map_nth f), (nth_error_nth _ _ _ Hj); subst f; cbv beta.
  f_equal.
  rewrite (count_true_positions _ (0%Z, 0%Z)).
  rewrite length_combine, <- Hlen, Nat.min_id.
  apply count_positions_ext; intros p _.
  rewrite combine_nth by (symmetry; exact Hlen); reflexivity.
Qed.

(** Up to 2^24 samples every count is stored as it is. *)
Lemma label_table_cell_exact (classes preds truths : list Z) (i j : nat) (ci cj : Z) :
  length truths = length preds ->
  (Z.of_nat (length truths) <= 2 ^ 24)%Z ->
  nth_error classes i = Some ci ->
  nth_error classes j = Some cj ->
  cell (label_table classes preds truths) i j =
  count_positions
    (fun p => (nth p preds 0 =? ci)%Z && (nth p truths 0 =? cj)%Z) (length truths).
Proof.
  intros Hlen Hn Hi Hj.
  rewrite (label_table_cell _ _ _ _ _ _ _ Hlen Hi Hj).
  apply float32_exact.
  etransitivity; [apply count_positions_le | exact Hn].
Qed.

Lemma np_unique_repeat (x : Z) (n : nat) :
  (0 < n)%nat -> np_unique (repeat x n) = [x].
Proof.
  destruct n as [| n]; [lia |]; intros _.
  induction n as [| n IH]; [reflexivity |].
  change (np_unique (repeat x (S (S n))))
    with (insert_unique x (np_unique (repeat x (S n)))).
  rewrite IH; simpl.
  now rewrite Z.ltb_irrefl, Z.eqb_refl.
Qed.

Lemma combine_repeat {A B : Type} (a : A) (b : B) (n : nat) :
  combine (repeat a n) (repeat b n) = repeat (a, b) n.
Proof. induction n; simpl; [reflexivity | now rewrite IHn]. Qed.

Lemma count_true_repeat (n : nat) : count_true (repeat true n) = Z.of_nat n.
Proof.
  unfold count_true; f_equal.
  induction n as [| n IH]; [reflexivity |].
  cbn [repeat count_occ].
  destruct (bool_dec true true); [now rewrite IH | congruence].
Qed.

(** [n] samples that all carry the label [x], as truth and as prediction:
    one class, and one cell that holds the float32 nearest to [n]. *)
Lemma single_label_table (x : Z) (n : nat) :
  (0 < n)%nat ->
  _get_contingency_table (Arr1 (repeat x n)) (Arr1 (repeat x n)) None
  = Ok [[float32_of_Z (Z.of_nat n)]].
Proof.
  intros Hn; unfold _get_contingency_table.
  cbn [len]; rewrite Nat.eqb_refl; cbn [negb bind].
  unfold np_append; rewrite (np_unique_repeat x n Hn).
  change (np_unique ([x] ++ [x])) with (insert_unique x [x]).
  cbn [insert_unique]; rewrite Z.ltb_irrefl, Z.eqb_refl.
  unfold label_table; cbn [map].
  rewrite combine_repeat, map_repeat; cbn [fst snd].
  now rewrite Z.eqb_refl, count_true_repeat.
Qed.

Lemma count_positions_all (P : nat -> bool) (n : nat) :
  (forall p, (p < n)%nat -> P p = true) -> count_positions P n = Z.of_nat n.
Proof.
  intros H; unfold count_positions.
  rewrite forallb_filter_id; [now rewrite length_seq |].
  apply forallb_forall; intros p Hp; apply in_seq in Hp; apply H; lia.
Qed.

(** C1: for equal-length one-dimensional truths and predictions and no
    classes argument, the class ordering is the strictly increasing list of
    the labels that occur in the truths or in the predictions, the table is
    square over it, cell [i, j] holds the float32 nearest to the number of
    sample positions where the prediction is [classes[i]] and the truth is
    [classes[j]], which is that number itself whenever it does not exceed
    2^24, and the three metric functions score exactly that table. *)
Theorem contingency_table_of_labels (truths predictions : list Z) :
  length truths = length predictions ->
  exists (classes : list Z) (t : table),
    StronglySorted Z.lt classes /\
    (forall c, In c classes <-> In c truths \/ In c predictions) /\
    _get_contingency_table (Arr1 truths) (Arr1 predictions) None = Ok t /\
    square (length classes) t /\
    (forall i j ci cj,
        nth_error classes i = Some ci ->
        nth_error classes j = Some cj ->
        let count :=
          count_positions
            (fun p => (nth p predictions 0 =? ci)%Z && (nth p truths 0 =? cj)%Z)
            (length truths) in
        cell t i j = float32_of_Z count /\
        ((count <= 2 ^ 24)%Z -> cell t i j = count) /\
        ((Z.of_nat (length truths) <= 2 ^ 24)%Z -> cell t i j = count)) /\
    gerrity_score (Arr1 truths) (Arr1 predictions) None = _gerrity_score t /\
    peirce_skill_score (Arr1 truths) (Arr1 predictions) None = _peirce_skill_score t /\
    heidke_skill_score (Arr1 truths) (Arr1 predictions) None = _heidke_skill_score t /\
    (forall legacy,
        gerrity_score_ieee legacy (Arr1 truths) (Arr1 predictions) None
        = _gerrity_score_ieee legacy t /\
        peirce_skill_score_ieee legacy (Arr1 truths) (Arr1 predictions) None
        = _peirce_skill_score_ieee legacy t /\
        heidke_skill_score_ieee legacy (Arr1 truths) (Arr1 predictions) None
        = _heidke_skill_score_ieee legacy t).
Proof.
  intros Hlen.
  set (classes := np_unique (np_append (np_unique truths) (np_unique predictions))).
  assert (Hget : _get_contingency_table (Arr1 truths) (Arr1 predictions) None
                 = Ok (label_table classes predictions truths)).
  { unfold _get_contingency_table; simpl.
    rewrite Hlen, Nat.eqb_refl; reflexivity. }
  exists classes, (label_table classes predictions truths).
  split; [apply np_unique_sorted |].
  split.
  { intros c; unfold classes, np_append.
    rewrite np_unique_In, in_app_iff, !np_unique_In; tauto. }
  split; [exact Hget |].
  split; [apply label_table_square |].
  split.
  { intros i j ci cj Hi Hj count.
    assert (Hcell : cell (label_table classes predictions truths) i j
                    = float32_of_Z count)
      by (now apply label_table_cell).
    split; [exact Hcell |].
    split; intros Hb; rewrite Hcell; apply float32_exact; [exact Hb |].
    etransitivity; [apply count_positions_le | exact Hb]. }
  unfold gerrity_score, peirce_skill_score, heidke_skill_score,
    gerrity_score_ieee, peirce_skill_score_ieee, heidke_skill_score_ieee.
  rewrite Hget; cbn [bind]; repeat split.
Qed.

Lemma contingency_table_of_labels_witness :
  exists (classes : list Z) (t : table),
    StronglySorted Z.lt classes /\
    (forall c, In c classes <-> In c [2; 0; 2; 1]%Z \/ In c [0; 0; 2; 5]%Z) /\
    _get_contingency_table (Arr1 [2; 0; 2; 1]%Z) (Arr1 [0; 0; 2; 5]%Z) None = Ok t /\
    square (length classes) t /\
    (forall i j ci cj,
        nth_error classes i = Some ci ->
        nth_error classes j = Some cj ->
        let count :=
          count_positions
            (fun p => (nth p [0; 0; 2; 5]%Z 0 =? ci)%Z && (nth p [2; 0; 2; 1]%Z 0 =? cj)%Z)
            (length [2; 0; 2; 1]%Z) in
        cell t i j = float32_of_Z count /\
        ((count <= 2 ^ 24)%Z -> cell t i j = count) /\
        ((Z.of_nat (length [2; 0; 2; 1]%Z) <= 2 ^ 24)%Z -> cell t i j = count)) /\
    gerrity_score (Arr1 [2; 0; 2; 1]%Z) (Arr1 [0; 0; 2; 5]%Z) None = _gerrity_score t /\
    peirce_skill_score (Arr1 [2; 0; 2; 1]%Z) (Arr1 [0; 0; 2; 5]%Z) None
    = _peirce_skill_score t /\
    heidke_skill_score (Arr1 [2; 0; 2; 1]%Z) (Arr1 [0; 0; 2; 5]%Z) None
    = _heidke_skill_score t /\
    (forall legacy,
        gerrity_score_ieee legacy (Arr1 [2; 0; 2; 1]%Z) (Arr1 [0; 0; 2; 5]%Z) None
        = _gerrity_score_ieee legacy t /\
        peirce_skill_score_ieee legacy (Arr1 [2; 0; 2; 1]%Z) (Arr1 [0; 0; 2; 5]%Z) None
        = _peirce_skill_score_ieee legacy t /\
        heidke_skill_score_ieee legacy (Arr1 [2; 0; 2; 1]%Z) (Arr1 [0; 0; 2; 5]%Z) None
        = _heidke_skill_score_ieee legacy t).
Proof.
  apply (contingency_table_of_labels [2; 0; 2; 1]%Z [0; 0; 2; 5]%Z); reflexivity.
Defined.

(** C1, beyond 2^24: 2^24 + 1 samples that all carry the label 0 in truths
    and predictions make one class and one cell; the count is 16777217, the
    float32 cell holds 16777216. *)
Lemma contingency_table_of_labels_counterexample :
  exists t : table,
    _get_contingency_table (Arr1 (repeat 0%Z (Z.to_nat 16777217)))
                           (Arr1 (repeat 0%Z (Z.to_nat 16777217))) None = Ok t /\
    cell t 0 0 = 16777216%Z /\
    count_positions
      (fun p => (nth p (repeat 0%Z (Z.to_nat 16777217)) 0 =? 0)%Z
                && (nth p (repeat 0%Z (Z.to_nat 16777217)) 0 =? 0)%Z)
      (length (repeat 0%Z (Z.to_nat 16777217)))
    = 16777217%Z.
Proof.
  exists [[float32_of_Z (Z.of_nat (Z.to_nat 16777217))]].
  split; [apply single_label_table; lia |].
  split.
  - unfold cell; cbn [nth]; rewrite Z2Nat.id by lia; reflexivity.
  - rewrite count_positions_all.
    + rewrite repeat_length; apply Z2Nat.id; lia.
    + intros p _.
      assert (H : nth p (repeat 0%Z (Z.to_nat 16777217)) 0%Z = 0%Z).
      { destruct (nth_in_or_default p (repeat 0%Z (Z.to_nat 16777217)) 0%Z) as [Hin | H];
          [eapply repeat_spec; exact Hin | exact H]. }
      rewrite H; reflexivity.
Qed.

(** ** The fully probabilistic branch *)

Lemma set_nth_length {A : Type} (i : nat) (v : A) (l : list A) :
  length (set_nth i v l) = length l.
Proof.
  revert i; induction l as [| x l IH]; intros [| i]; simpl; auto.
Qed.

Lemma set_nth_nth {A : Type} (i i' : nat) (v d : A) (l : list A) :
  (i < length l)%nat ->
  nth i' (set_nth i v l) d = if (i' =? i)%nat then v else nth i' l d.
Proof.
  revert i i'; induction l as [| x l IH]; intros [| i] [| i'] Hlt; simpl in *;
    try lia; auto.
  apply IH; lia.
Qed.

Lemma set_nth_Forall {A : Type} (P : A -> Prop) (i : nat) (v : A) (l : list A) :
  P v -> Forall P l -> Forall P (set_nth i v l).
Proof.
  intros Hv Hl; revert i; induction Hl as [| x l Hx Hl IH]; intros [| i]; simpl;
    constructor; auto.
Qed.

Lemma zsum_set_nth (j : nat) (v w : Z) (row : list Z) :
  nth_error row j = Some v -> zsum (set_nth j w row) = (zsum row - v + w)%Z.
Proof.
  revert j; induction row as [| x row IH]; intros [| j] H; simpl in *;
    try discriminate.
  - injection H as ->; lia.
  - rewrite (IH _ H); lia.
Qed.

Lemma table_sum_set_nth (i : nat) (row row' : list Z) (t : table) :
  nth_error t i = Some row ->
  table_sum (set_nth i row' t) = (table_sum t - zsum row + zsum row')%Z.
Proof.
  unfold table_sum.
  revert i; induction t as [| r t IH]; intros [| i] H; simpl in *;
    try discriminate.
  - injection H as ->; lia.
  - rewrite (IH _ H); lia.
Qed.

Lemma zsum_nonneg (l : list Z) : Forall (fun c => 0 <= c)%Z l -> (0 <= zsum l)%Z.
Proof. induction 1; simpl; lia. Qed.

Lemma zsum_nth_le (l : list Z) (j : nat) (v : Z) :
  Forall (fun c => 0 <= c)%Z l -> nth_error l j = Some v -> (v <= zsum l)%Z.
Proof.
  intros Hl; revert j; induction Hl as [| x l Hx Hl IH]; intros [| j] H; simpl in *;
    try discriminate.
  - injection H as ->; pose proof (zsum_nonneg l Hl); lia.
  - specialize (IH _ H); lia.
Qed.

(** In a table of counts no cell exceeds the grand total. *)
Lemma cell_le_table_sum (t : table) (i j : nat) (row : list Z) (v : Z) :
  nonneg_table t ->
  nth_error t i = Some row -> nth_error row j = Some v -> (v <= table_sum t)%Z.
Proof.
  intros Hnn Hi Hj; unfold nonneg_table in Hnn.
  assert (Hrow : Forall (fun c => 0 <= c)%Z row).
  { rewrite Forall_forall in Hnn; apply Hnn; eapply nth_error_In; eauto. }
  transitivity (zsum row); [eapply zsum_nth_le; eauto |].
  unfold table_sum; apply (zsum_nth_le _ i).
  - apply Forall_map; eapply Forall_impl; [| exact Hnn].
    intros r Hr; now apply zsum_nonneg.
  - now apply map_nth_error.
Qed.

Lemma table_incr_spec (k : nat) (t t' : table) (i j : nat) :
  square k t ->
  table_incr t i j = Ok t' ->
  square k t' /\
  (forall i' j',
      cell t' i' j' =
      if (i' =? i)%nat && (j' =? j)%nat then float32_of_Z (cell t i' j' + 1)
      else cell t i' j') /\
  (nonneg_table t -> nonneg_table t') /\
  (nonneg_table t -> (table_sum t + 1 <= 2 ^ 24)%Z ->
   table_sum t' = (table_sum t + 1)%Z).
Proof.
  intros [Hlen Hrows] H; unfold table_incr in H.
  destruct (nth_error t i) as [row |] eqn:Er; [| discriminate].
  destruct (nth_error row j) as [v |] eqn:Ev; [| discriminate].
  injection H as <-.
  assert (Hi : (i < length t)%nat) by (apply nth_error_Some; congruence).
  assert (Hj : (j < length row)%nat) by (apply nth_error_Some; congruence).
  assert (Hrow : length row = k).
  { rewrite Forall_forall in Hrows; apply Hrows; eapply nth_error_In; eauto. }
  assert (Hv : forall (Hnn : nonneg_table t), (0 <= v)%Z).
  { intros Hnn; unfold nonneg_table in Hnn; rewrite Forall_forall in Hnn.
    assert (Hr : Forall (fun c => 0 <= c)%Z row)
      by (apply Hnn; eapply nth_error_In; eauto).
    rewrite Forall_forall in Hr; apply Hr; eapply nth_error_In; eauto. }
  split; [| split; [| split]].
  - split; [now rewrite set_nth_length |].
    apply set_nth_Forall; [now rewrite set_nth_length | assumption].
  - intros i' j'; unfold cell.
    rewrite set_nth_nth by assumption.
    destruct (Nat.eqb_spec i' i) as [-> |]; simpl; [| reflexivity].
    rewrite set_nth_nth by assumption.
    rewrite (nth_error_nth _ _ _ Er).
    destruct (Nat.eqb_spec j' j) as [-> |]; [| reflexivity].
    now rewrite (nth_error_nth _ _ _ Ev).
  - intros Hnn; apply set_nth_Forall; [| assumption].
    pose proof Hnn as Hnn'; unfold nonneg_table in Hnn'; rewrite Forall_forall in Hnn'.
    apply set_nth_Forall; [| apply Hnn'; eapply nth_error_In; eauto].
    apply float32_nonneg; specialize (Hv Hnn); lia.
  - intros Hnn Hb.
    pose proof (cell_le_table_sum _ _ _ _ _ Hnn Er Ev) as Hle.
    rewrite (table_sum_set_nth _ _ _ _ Er), (zsum_set_nth _ _ _ _ Ev).
    rewrite float32_exact by lia; lia.
Qed.

Lemma tally_spec (k : nat) (pairs : list (nat * nat)) (t t' : table) :
  square k t ->
  tally t pairs = Ok t' ->
  square k t' /\
  (nonneg_table t -> nonneg_table t') /\
  ((forall i j, 0 <= cell t i j <= 2 ^ 24)%Z ->
   forall i j,
     cell t' i j =
     Z.min
       (cell t i j +
        count_true (map (fun tp => (snd tp =? i)%nat && (fst tp =? j)%nat) pairs))
       (2 ^ 24)) /\
  (nonneg_table t -> (table_sum t + Z.of_nat (length pairs) <= 2 ^ 24)%Z ->
   table_sum t' = (table_sum t + Z.of_nat (length pairs))%Z).
Proof.
  revert t; induction pairs as [| [tr pr] pairs IH]; intros t Hsq H; simpl in H.
  - injection H as <-.
    split; [exact Hsq |]; split; [auto |]; split.
    + intros Hb i j; specialize (Hb i j); unfold count_true; simpl; lia.
    + intros _ _; simpl; lia.
  - apply bind_Ok_inv in H; destruct H as [t1 [H1 H2]].
    destruct (table_incr_spec _ _ _ _ _ Hsq H1) as [Hsq1 [Hc1 [Hn1 Hs1]]].
    destruct (IH _ Hsq1 H2) as [Hsq' [Hn' [Hc' Hs']]].
    split; [exact Hsq' |]; split; [auto |]; split.
    + intros Hb.
      assert (Hb1 : forall i j, (0 <= cell t1 i j <= 2 ^ 24)%Z).
      { intros i j; rewrite Hc1; specialize (Hb i j).
        destruct ((i =? pr)%nat && (j =? tr)%nat); [| exact Hb].
        rewrite float32_succ by exact Hb; lia. }
      intros i j; rewrite (Hc' Hb1), Hc1.
      pose proof (Hb i j) as Hij.
      pose proof (count_true_nonneg
                    (map (fun tp => (snd tp =? i)%nat && (fst tp =? j)%nat) pairs)) as Hc.
      unfold count_true in *; cbn [map fst snd count_occ].
      rewrite (Nat.eqb_sym pr i), (Nat.eqb_sym tr j).
      destruct ((i =? pr)%nat && (j =? tr)%nat).
      * destruct (bool_dec true true); [| congruence].
        rewrite float32_succ by exact Hij; lia.
      * destruct (bool_dec false true); [discriminate | lia].
    + intros Hnn Hb; cbn [length] in Hb |- *.
      assert (E1 : table_sum t1 = (table_sum t + 1)%Z) by (apply Hs1; [exact Hnn | lia]).
      rewrite Hs' by (auto; lia); lia.
Qed.

Lemma tally_total (k : nat) (pairs : list (nat * nat)) (t : table) :
  square k t ->
  Forall (fun tp => (fst tp < k)%nat /\ (snd tp < k)%nat) pairs ->
  exists t', tally t pairs = Ok t'.
Proof.
  intros Hsq Hall; revert t Hsq.
  induction Hall as [| [tr pr] pairs [Htr Hpr] Hall IH]; intros t Hsq; simpl in *.
  - eauto.
  - destruct Hsq as [Hlen Hrows].
    assert (exists t1, table_incr t pr tr = Ok t1) as [t1 H1].
    { unfold table_incr.
      destruct (nth_error t pr) as [row |] eqn:Er.
      - assert (length row = k)
          by (rewrite Forall_forall in Hrows; apply Hrows; eapply nth_error_In; eauto).
        destruct (nth_error row tr) as [v |] eqn:Ev; [eauto |].
        apply nth_error_None in Ev; lia.
      - apply nth_error_None in Er; lia. }
    rewrite H1; simpl.
    apply IH; eapply table_incr_spec; [split |]; eauto.
Qed.

Lemma np_zeros_square (k : nat) : square k (np_zeros k k).
Proof.
  unfold square, np_zeros; split; [apply repeat_length |].
  apply Forall_forall; intros r Hr; apply repeat_spec in Hr; subst.
  apply repeat_length.
Qed.

Lemma np_zeros_cell (k i j : nat) : cell (np_zeros k k) i j = 0%Z.
Proof.
  unfold cell, np_zeros.
  destruct (Nat.lt_ge_cases i k) as [Hi | Hi].
  - rewrite nth_repeat_lt by assumption.
    destruct (Nat.lt_ge_cases j k) as [Hj | Hj].
    + now rewrite nth_repeat_lt.
    + now rewrite nth_overflow by (rewrite repeat_length; lia).
  - rewrite (nth_overflow (repeat (repeat 0%Z k) k))
      by (rewrite repeat_length; lia).
    now destruct j.
Qed.

Lemma zsum_repeat_zero (n : nat) : zsum (repeat 0%Z n) = 0%Z.
Proof. induction n; simpl; [reflexivity | now rewrite IHn]. Qed.

Lemma np_zeros_sum (r c : nat) : table_sum (np_zeros r c) = 0%Z.
Proof.
  unfold table_sum, np_zeros.
  induction r; simpl; [reflexivity |].
  now rewrite zsum_repeat_zero, IHr.
Qed.

Lemma np_zeros_nonneg (r c : nat) : nonneg_table (np_zeros r c).
Proof.
  unfold nonneg_table, np_zeros.
  apply Forall_forall; intros row Hr; apply repeat_spec in Hr; subst.
  apply Forall_forall; intros x Hx; apply repeat_spec in Hx; subst; lia.
Qed.

(** ** [np.argmax] *)

Lemma Qltb_lt (x y : Q) : Qltb x y = true <-> x < y.
Proof.
  unfold Qltb; rewrite negb_true_iff; split; intros H.
  - apply Qnot_le_lt; intros Hle; apply Qle_bool_iff in Hle; congruence.
  - destruct (Qle_bool y x) eqn:E; [| reflexivity].
    apply Qle_bool_iff in E; exfalso; eapply Qlt_not_le; eauto.
Qed.

Lemma argmax_from_lt (xs : list Q) (best_i i : nat) (best : Q) :
  (best_i < i)%nat -> (argmax_from best_i best i xs < i + length xs)%nat.
Proof.
  revert best_i i best; induction xs as [| x xs IH]; intros best_i i best H; simpl.
  - lia.
  - destruct (Qltb best x).
    + specialize (IH i (S i) x); lia.
    + specialize (IH best_i (S i) best); lia.
Qed.

Lemma argmax_row_lt (row : list Q) :
  (0 < length row)%nat -> (argmax_row row < length row)%nat.
Proof.
  destruct row as [| x xs]; simpl; [lia |]; intros _.
  pose proof (argmax_from_lt xs 0 1 x Nat.lt_0_1); lia.
Qed.

(** The scan keeps the first index of the largest entry seen so far. *)
Lemma argmax_from_spec (xs pre : list Q) (best_i : nat) :
  first_largest pre best_i ->
  first_largest (pre ++ xs)
                (argmax_from best_i (nth best_i pre 0) (length pre) xs).
Proof.
  revert pre best_i; induction xs as [| x xs IH]; intros pre best_i [Hlt [Hmax Hfirst]].
  - rewrite app_nil_r; simpl; repeat split; assumption.
  - cbn [argmax_from].
    destruct (Qltb (nth best_i pre 0) x) eqn:E.
    + apply Qltb_lt in E.
      specialize (IH (pre ++ [x]) (length pre)).
      rewrite nth_middle, length_app, <- app_assoc, Nat.add_1_r in IH.
      apply IH; repeat split.
      * rewrite length_app; simpl; lia.
      * intros j Hj; rewrite length_app in Hj; simpl in Hj.
        rewrite nth_middle.
        destruct (Nat.eq_dec j (length pre)) as [-> | Hne].
        -- rewrite nth_middle; apply Qle_refl.
        -- rewrite app_nth1 by lia.
           apply Qlt_le_weak; eapply Qle_lt_trans; [apply Hmax; lia | exact E].
      * intros j Hj; rewrite nth_middle, app_nth1 by lia.
        eapply Qle_lt_trans; [apply Hmax; lia | exact E].
    + assert (Hle : x <= nth best_i pre 0).
      { unfold Qltb in E; apply negb_false_iff in E; now apply Qle_bool_iff. }
      specialize (IH (pre ++ [x]) best_i).
      rewrite (app_nth1 pre [x] 0 Hlt), length_app, <- app_assoc, Nat.add_1_r in IH.
      apply IH; repeat split.
      * rewrite length_app; simpl; lia.
      * intros j Hj; rewrite length_app in Hj; simpl in Hj.
        rewrite (app_nth1 pre [x] 0 Hlt).
        destruct (Nat.eq_dec j (length pre)) as [-> | Hne].
        -- now rewrite nth_middle.
        -- rewrite app_nth1 by lia; apply Hmax; lia.
      * intros j Hj; rewrite !app_nth1 by lia; now apply Hfirst.
Qed.

Lemma first_largest_unique (row : list Q) (i j : nat) :
  first_largest row i -> first_largest row j -> i = j.
Proof.
  intros [Hi [Hmi Hfi]] [Hj [Hmj Hfj]].
  destruct (Nat.lt_trichotomy i j) as [Hlt | [Heq | Hgt]]; [| exact Heq |]; exfalso.
  - apply (Qlt_not_le _ _ (Hfj i Hlt)); now apply Hmi.
  - apply (Qlt_not_le _ _ (Hfi j Hgt)); now apply Hmj.
Qed.

(** [np.argmax] of a non-empty row is the first index of its largest entry. *)
Lemma argmax_row_spec (row : list Q) (i : nat) :
  row <> [] -> (argmax_row row = i <-> first_largest row i).
Proof.
  intros Hne; destruct row as [| x xs]; [congruence |].
  assert (H : first_largest (x :: xs) (argmax_row (x :: xs))).
  { apply (argmax_from_spec xs [x] 0); repeat split; simpl.
    - lia.
    - intros [| j] Hj; [apply Qle_refl | lia].
    - intros j Hj; lia. }
  split; [intros <-; exact H |].
  intros Hi; eapply first_largest_unique; eauto.
Qed.

Lemma get_table_probabilistic (tcols : nat) (trows : list (list Q))
      (predictions : ndarray) (classes : option (list Z)) (t : table) :
  _get_contingency_table (Arr2 tcols trows) predictions classes = Ok t ->
  exists prows,
    predictions = Arr2 tcols prows /\
    length prows = length trows /\
    tally (np_zeros tcols tcols)
          (combine (map argmax_row trows) (map argmax_row prows)) = Ok t.
Proof.
  unfold _get_contingency_table; intros H.
  destruct (Nat.eqb_spec (len (Arr2 tcols trows)) (len predictions)) as [Hlen |];
    simpl in H; [| discriminate].
  destruct predictions as [pl | pcols prows]; [discriminate |].
  destruct (Nat.eqb_spec pcols tcols) as [-> |]; simpl in H; [| discriminate].
  unfold np_argmax_axis1 in H.
  destruct (tcols =? 0)%nat; simpl in H; [discriminate |].
  exists prows; simpl in Hlen; auto.
Qed.

Lemma get_table_probabilistic_cells (tcols : nat) (trows prows : list (list Q))
      (t : table) :
  length prows = length trows ->
  tally (np_zeros tcols tcols)
        (combine (map argmax_row trows) (map argmax_row prows)) = Ok t ->
  forall i j,
    cell t i j =
    Z.min
      (count_positions
         (fun p => (argmax_row (nth p prows []) =? i)%nat
                   && (argmax_row (nth p trows []) =? j)%nat)
         (length trows))
      (2 ^ 24).
Proof.
  intros Hlen Ht i j.
  destruct (tally_spec _ _ _ _ (np_zeros_square tcols) Ht) as [_ [_ [Hc _]]].
  rewrite Hc by (intros i' j'; rewrite np_zeros_cell; lia).
  rewrite np_zeros_cell, Z.add_0_l; f_equal.
  rewrite (count_true_positions _ (0%nat, 0%nat)).
  rewrite length_combine, !length_map, Hlen, Nat.min_id.
  apply count_positions_ext; intros p _.
  rewrite combine_nth by (now rewrite !length_map).
  cbn [fst snd].
  change (nth p (map argmax_row trows) 0%nat)
    with (nth p (map argmax_row trows) (argmax_row [])).
  change (nth p (map argmax_row prows) 0%nat)
    with (nth p (map argmax_row prows) (argmax_row [])).
  rewrite !map_nth; reflexivity.
Qed.

(** C10: with two-dimensional truths the classes argument is never read: any
    two values of it give the same table and the same three scores.  A table
    that is returned is square of the width of truths; its cell [i, j] holds
    the number of samples whose predictions have arg-max [i] and whose
    truths have arg-max [j], as far as a float32 cell incremented by one
    counts, that is up to 2^24, where it stays; the arg-max of a non-empty
    row is the first index of its largest entry.  A table is returned for
    well-formed arrays of one shape with at least one class column. *)
Theorem classes_unused_for_probabilistic_truths
        (tcols : nat) (trows : list (list Q)) (predictions : ndarray)
        (c1 c2 : option (list Z)) :
  _get_contingency_table (Arr2 tcols trows) predictions c1
  = _get_contingency_table (Arr2 tcols trows) predictions c2 /\
  gerrity_score (Arr2 tcols trows) predictions c1
  = gerrity_score (Arr2 tcols trows) predictions c2 /\
  peirce_skill_score (Arr2 tcols trows) predictions c1
  = peirce_skill_score (Arr2 tcols trows) predictions c2 /\
  heidke_skill_score (Arr2 tcols trows) predictions c1
  = heidke_skill_score (Arr2 tcols trows) predictions c2 /\
  (forall legacy,
      gerrity_score_ieee legacy (Arr2 tcols trows) predictions c1
      = gerrity_score_ieee legacy (Arr2 tcols trows) predictions c2 /\
      peirce_skill_score_ieee legacy (Arr2 tcols trows) predictions c1
      = peirce_skill_score_ieee legacy (Arr2 tcols trows) predictions c2 /\
      heidke_skill_score_ieee legacy (Arr2 tcols trows) predictions c1
      = heidke_skill_score_ieee legacy (Arr2 tcols trows) predictions c2) /\
  (forall t,
      _get_contingency_table (Arr2 tcols trows) predictions c1 = Ok t ->
      exists prows,
        predictions = Arr2 tcols prows /\
        square tcols t /\
        forall i j,
          let count :=
            count_positions
              (fun p => (argmax_row (nth p prows []) =? i)%nat
                        && (argmax_row (nth p trows []) =? j)%nat)
              (length trows) in
          cell t i j = Z.min count (2 ^ 24) /\
          ((Z.of_nat (length trows) <= 2 ^ 24)%Z -> cell t i j = count)) /\
  (forall (row : list Q) (i : nat),
      row <> [] -> (argmax_row row = i <-> first_largest row i)) /\
  (forall prows,
      predictions = Arr2 tcols prows ->
      length prows = length trows ->
      (0 < tcols)%nat ->
      wf_array (Arr2 tcols trows) = true ->
      wf_array predictions = true ->
      exists t, _get_contingency_table (Arr2 tcols trows) predictions c1 = Ok t).
Proof.
  assert (Heq : _get_contingency_table (Arr2 tcols trows) predictions c1
                = _get_contingency_table (Arr2 tcols trows) predictions c2)
    by reflexivity.
  unfold gerrity_score, peirce_skill_score, heidke_skill_score,
    gerrity_score_ieee, peirce_skill_score_ieee, heidke_skill_score_ieee.
  rewrite <- Heq.
  do 4 (split; [reflexivity |]).
  split; [intros legacy; repeat split |].
  split; [| split; [exact argmax_row_spec |]].
  - intros t Ht.
    destruct (get_table_probabilistic _ _ _ _ _ Ht) as [prows [-> [Hlen Htally]]].
    exists prows; split; [reflexivity |]; split.
    + eapply tally_spec; [apply np_zeros_square | exact Htally].
    + intros i j.
      rewrite (get_table_probabilistic_cells tcols trows prows t Hlen Htally).
      split; [reflexivity |].
      pose proof (count_positions_le
                    (fun p => (argmax_row (nth p prows []) =? i)%nat
                              && (argmax_row (nth p trows []) =? j)%nat)
                    (length trows)).
      lia.
  - intros prows -> Hlen Hk Hwt Hwp; simpl in Hwt, Hwp.
    unfold _get_contingency_table; simpl.
    rewrite Hlen, !Nat.eqb_refl; simpl.
    unfold np_argmax_axis1.
    destruct (Nat.eqb_spec tcols 0); [lia |]; simpl.
    apply (tally_total tcols); [apply np_zeros_square |].
    apply Forall_forall; intros [tr pr] Hin.
    pose proof (in_combine_l _ _ _ _ Hin) as Hl.
    pose proof (in_combine_r _ _ _ _ Hin) as Hr.
    apply in_map_iff in Hl; destruct Hl as [rt [<- Hrt]].
    apply in_map_iff in Hr; destruct Hr as [rp [<- Hrp]].
    rewrite forallb_forall in Hwt, Hwp.
    apply Hwt in Hrt; apply Hwp in Hrp.
    apply Nat.eqb_eq in Hrt, Hrp; simpl.
    split; [rewrite <- Hrt | rewrite <- Hrp]; apply argmax_row_lt; lia.
Qed.

Lemma classes_unused_for_probabilistic_truths_witness :
  exists t,
    _get_contingency_table (Arr2 2 [[1 # 2; 1 # 3]; [0; 1]; [1 # 4; 1 # 4]])
                           (Arr2 2 [[1 # 2; 1 # 3]; [1; 0]; [0; 1]]) (Some [7; 9]%Z)
    = Ok t /\
    cell t 0 0 = 1%Z /\ cell t 0 1 = 1%Z /\ cell t 1 0 = 1%Z /\ cell t 1 1 = 0%Z /\
    first_largest [1 # 4; 1 # 4] 0.
Proof.
  destruct (classes_unused_for_probabilistic_truths
              2 [[1 # 2; 1 # 3]; [0; 1]; [1 # 4; 1 # 4]]
              (Arr2 2 [[1 # 2; 1 # 3]; [1; 0]; [0; 1]])
              (Some [7; 9]%Z) None) as [_ [_ [_ [_ [_ [Hcells [Hargmax Htotal]]]]]]].
  destruct (Htotal [[1 # 2; 1 # 3]; [1; 0]; [0; 1]] eq_refl eq_refl Nat.lt_0_2
                   eq_refl eq_refl) as [t Ht].
  exists t; split; [exact Ht |].
  destruct (Hcells t Ht) as [prows [Hp [_ Hc]]].
  injection Hp as <-.
  split; [exact (proj2 (Hc 0%nat 0%nat) ltac:(simpl; lia)) |].
  split; [exact (proj2 (Hc 0%nat 1%nat) ltac:(simpl; lia)) |].
  split; [exact (proj2 (Hc 1%nat 0%nat) ltac:(simpl; lia)) |].
  split; [exact (proj2 (Hc 1%nat 1%nat) ltac:(simpl; lia)) |].
  apply (Hargmax [1 # 4; 1 # 4] 0%nat); [discriminate | reflexivity].
Defined.

(** C8: whenever the lengths differ, each of the three metric functions
    raises the length-mismatch error, for arrays of either dimensionality and
    for every classes argument. *)
Theorem length_mismatch_raised_first
        (truths predictions : ndarray) (classes : option (list Z)) :
  len truths <> len predictions ->
  _get_contingency_table truths predictions classes
  = Raise UnmatchedLengthPredictionsException /\
  gerrity_score truths predictions classes
  = Raise UnmatchedLengthPredictionsException /\
  peirce_skill_score truths predictions classes
  = Raise UnmatchedLengthPredictionsException /\
  heidke_skill_score truths predictions classes
  = Raise UnmatchedLengthPredictionsException.
Proof.
  intros Hne.
  assert (H : _get_contingency_table truths predictions classes
              = Raise UnmatchedLengthPredictionsException).
  { unfold _get_contingency_table.
    destruct (Nat.eqb_spec (len truths) (len predictions)); [contradiction |].
    reflexivity. }
  unfold gerrity_score, peirce_skill_score, heidke_skill_score.
  rewrite H; simpl; auto.
Qed.

Lemma length_mismatch_raised_first_witness :
  _get_contingency_table (Arr1 [0; 1; 0; 1; 1]%Z) (Arr2 0 [[]; []; []; []]) None
  = Raise UnmatchedLengthPredictionsException /\
  gerrity_score (Arr1 [0; 1; 0; 1; 1]%Z) (Arr2 0 [[]; []; []; []]) None
  = Raise UnmatchedLengthPredictionsException /\
  peirce_skill_score (Arr1 [0; 1; 0; 1; 1]%Z) (Arr2 0 [[]; []; []; []]) None
  = Raise UnmatchedLengthPredictionsException /\
  heidke_skill_score (Arr1 [0; 1; 0; 1; 1]%Z) (Arr2 0 [[]; []; []; []]) None
  = Raise UnmatchedLengthPredictionsException.
Proof.
  apply (length_mismatch_raised_first
           (Arr1 [0; 1; 0; 1; 1]%Z) (Arr2 0 [[]; []; []; []]) None).
  simpl; lia.
Defined.

(** C7: the worked example of the spec. *)
Theorem peirce_worked_example :
  _get_contingency_table (Arr1 [0; 0; 1; 1]%Z) (Arr1 [0; 1; 1; 1]%Z) (Some [0; 1]%Z)
  = Ok [[1; 0]; [1; 2]]%Z /\
  exists q,
    peirce_skill_score (Arr1 [0; 0; 1; 1]%Z) (Arr1 [0; 1; 1; 1]%Z) (Some [0; 1]%Z)
    = Ok (Some q) /\
    q == 1 # 2.
Proof.
  split; [reflexivity |].
  eexists; split; [vm_compute; reflexivity | reflexivity].
Qed.

(** The worked example in the floating-point arithmetic of the source: the
    Peirce score is the float 0.5, as a float32 under NEP 50 promotion and
    as a float64 under legacy promotion. *)
Example worked_example_in_floating_point :
  peirce_skill_score_ieee false (Arr1 [0; 0; 1; 1]%Z) (Arr1 [0; 1; 1; 1]%Z)
                          (Some [0; 1]%Z)
  = Ok (np32 (S754_finite false 8388608 (-24))) /\
  peirce_skill_score_ieee true (Arr1 [0; 0; 1; 1]%Z) (Arr1 [0; 1; 1; 1]%Z)
                          (Some [0; 1]%Z)
  = Ok (np64 (S754_finite false 4503599627370496 (-53))).
Proof. split; vm_compute; reflexivity. Qed.

(** ** Totals *)

Lemma mapM_Ok_nth {A B : Type} (f : A -> outcome B) (l : list A) (ys : list B) :
  mapM f l = Ok ys ->
  length ys = length l /\
  forall p x, nth_error l p = Some x ->
              exists y, nth_error ys p = Some y /\ f x = Ok y.
Proof.
  revert ys; induction l as [| a l IH]; intros ys H; simpl in H.
  - injection H as <-; split; [reflexivity |]; intros [| p] x Hx; discriminate.
  - apply bind_Ok_inv in H; destruct H as [y [Hy H]].
    apply bind_Ok_inv in H; destruct H as [ys' [Hys H]].
    injection H as <-.
    destruct (IH _ Hys) as [Hlen Hnth]; split; [simpl; now rewrite Hlen |].
    intros [| p] x Hx; simpl in *.
    + injection Hx as <-; eauto.
    + eauto.
Qed.

Lemma mapM_Raise {A B : Type} (f : A -> outcome B) (l : list A) (e : exn) :
  mapM f l = Raise e -> exists x, In x l /\ f x = Raise e.
Proof.
  induction l as [| a l IH]; simpl; intros H; [discriminate |].
  destruct (f a) as [y |] eqn:Ea; simpl in H.
  - destruct (mapM f l) as [ys |] eqn:El; simpl in H; [discriminate |].
    destruct (IH H) as [x [Hin Hx]]; eauto.
  - injection H as ->; eauto.
Qed.

Lemma np_take_spec (classes : list Z) (idx : list nat) (preds : list Z) :
  np_take classes idx = Ok preds ->
  length preds = length idx /\
  (forall p i, nth_error idx p = Some i ->
               exists c, nth_error preds p = Some c /\ nth_error classes i = Some c) /\
  incl preds classes.
Proof.
  unfold np_take; intros H.
  destruct (mapM_Ok_nth _ _ _ H) as [Hlen Hnth].
  split; [exact Hlen |]; split.
  - intros p i Hi; destruct (Hnth _ _ Hi) as [c [Hc Hf]]; exists c; split; auto.
    destruct (nth_error classes i); [congruence | discriminate].
  - intros c Hc; apply In_nth_error in Hc; destruct Hc as [p Hp].
    assert (Hlt : (p < length idx)%nat)
      by (rewrite <- Hlen; apply nth_error_Some; congruence).
    destruct (nth_error idx p) as [i |] eqn:Ei;
      [| apply nth_error_None in Ei; lia].
    destruct (Hnth _ _ Ei) as [c' [Hc' Hf]].
    destruct (nth_error classes i) as [c'' |] eqn:Ec; [| discriminate].
    apply nth_error_In with i; congruence.
Qed.

(** What the branch for one-dimensional truths returns. *)
Lemma get_table_deterministic (tlabels : list Z) (predictions : ndarray)
      (classes : option (list Z)) (t : table) :
  _get_contingency_table (Arr1 tlabels) predictions classes = Ok t ->
  exists preds,
    length preds = length tlabels /\
    match predictions with
    | Arr1 plabels => preds = plabels
    | Arr2 pcols prows =>
        exists cl idx, classes = Some cl /\ np_argmax_axis1 pcols prows = Ok idx /\
                       np_take cl idx = Ok preds
    end /\
    t = label_table
          match classes with
          | None => np_unique (np_append (np_unique tlabels) (np_unique preds))
          | Some cl => cl
          end preds tlabels.
Proof.
  unfold _get_contingency_table; intros H.
  destruct (Nat.eqb_spec (len (Arr1 tlabels)) (len predictions)) as [Hlen |];
    simpl in H; [| discriminate].
  destruct predictions as [pl | pcols prows]; simpl in *.
  - injection H as <-; exists pl; auto.
  - destruct classes as [cl |]; simpl in H; [| discriminate].
    apply bind_Ok_inv in H; destruct H as [preds [Hp H]].
    injection H as <-.
    apply bind_Ok_inv in Hp; destruct Hp as [idx [Hidx Htake]].
    exists preds; split; [| split; [exists cl, idx; auto | reflexivity]].
    destruct (np_take_spec _ _ _ Htake) as [Hl _]; rewrite Hl.
    unfold np_argmax_axis1 in Hidx.
    destruct (pcols =? 0)%nat; [discriminate |].
    injection Hidx as <-; rewrite length_map; auto.
Qed.

Lemma label_table_nonneg (classes preds truths : list Z) :
  nonneg_table (label_table classes preds truths).
Proof.
  unfold nonneg_table, label_table.
  apply Forall_forall; intros row Hr; apply in_map_iff in Hr.
  destruct Hr as [c1 [<- _]].
  apply Forall_forall; intros x Hx; apply in_map_iff in Hx.
  destruct Hx as [c2 [<- _]]; apply float32_nonneg, count_true_nonneg.
Qed.

Lemma count_true_le (bs : list bool) : (count_true bs <= Z.of_nat (length bs))%Z.
Proof.
  unfold count_true; pose proof (count_occ_bound bool_dec true bs); lia.
Qed.

(** Up to 2^24 samples the float32 cells hold the counts themselves. *)
Lemma label_table_exact (cl preds truths : list Z) :
  (Z.of_nat (length truths) <= 2 ^ 24)%Z ->
  label_table cl preds truths =
  map (fun c1 =>
         map (fun c2 =>
                count_true (map (fun pt => (fst pt =? c1)%Z && (snd pt =? c2)%Z)
                                (combine preds truths)))
             cl)
      cl.
Proof.
  intros Hb; unfold label_table.
  apply map_ext; intros c1; apply map_ext; intros c2.
  apply float32_exact.
  etransitivity; [apply count_true_le |].
  rewrite length_map, length_combine; lia.
Qed.

Lemma zsum_map_add {A : Type} (f g : A -> Z) (l : list A) :
  zsum (map (fun x => f x + g x)%Z l) = (zsum (map f l) + zsum (map g l))%Z.
Proof. induction l; simpl; lia. Qed.

Lemma zsum_map_scale {A : Type} (c : Z) (g : A -> Z) (l : list A) :
  zsum (map (fun x => c * g x)%Z l) = (c * zsum (map g l))%Z.
Proof. induction l; simpl; lia. Qed.

Lemma zsum_map_scale_r {A : Type} (c : Z) (g : A -> Z) (l : list A) :
  zsum (map (fun x => g x * c)%Z l) = (zsum (map g l) * c)%Z.
Proof. induction l; simpl; lia. Qed.

Lemma zsum_map_ext {A : Type} (f g : A -> Z) (l : list A) :
  (forall x, In x l -> f x = g x) -> zsum (map f l) = zsum (map g l).
Proof. intros H; f_equal; now apply map_ext_in. Qed.

Lemma zsum_map_zero {A : Type} (l : list A) : zsum (map (fun _ => 0%Z) l) = 0%Z.
Proof. induction l; simpl; lia. Qed.

(** A label occurs exactly once in a duplicate-free class list holding it. *)
Lemma indicator_sum (x : Z) (cl : list Z) :
  NoDup cl -> In x cl -> zsum (map (fun c => Z.b2z (x =? c)%Z) cl) = 1%Z.
Proof.
  induction 1 as [| c cl Hnotin Hnd IH]; simpl; [tauto |].
  intros [-> | Hin].
  - rewrite Z.eqb_refl; simpl.
    rewrite (zsum_map_ext _ (fun _ => 0%Z)), zsum_map_zero; [reflexivity |].
    intros c Hc; destruct (Z.eqb_spec x c); [subst; contradiction | reflexivity].
  - destruct (Z.eqb_spec x c); [subst; contradiction |]; simpl; now apply IH.
Qed.

Lemma count_true_cons (b : bool) (bs : list bool) :
  count_true (b :: bs) = (Z.b2z b + count_true bs)%Z.
Proof.
  unfold count_true; cbn [count_occ].
  destruct b; cbn [Z.b2z].
  - destruct (bool_dec true true); [lia | congruence].
  - destruct (bool_dec false true); [discriminate | lia].
Qed.

Lemma label_pairs_sum (cl : list Z) (pairs : list (Z * Z)) :
  NoDup cl ->
  Forall (fun pt => In (fst pt) cl /\ In (snd pt) cl) pairs ->
  zsum (map (fun c1 =>
               zsum (map (fun c2 =>
                            count_true
                              (map (fun pt => (fst pt =? c1)%Z && (snd pt =? c2)%Z) pairs))
                         cl))
            cl)
  = Z.of_nat (length pairs).
Proof.
  intros Hnd; induction 1 as [| [p t] pairs [Hp Ht] Hall IH].
  - simpl; unfold count_true; simpl.
    rewrite (zsum_map_ext _ (fun _ => 0%Z)), zsum_map_zero; [reflexivity |].
    intros; apply zsum_map_zero.
  - simpl in Hp, Ht.
    rewrite (zsum_map_ext _
               (fun c1 =>
                  Z.b2z (p =? c1)%Z * zsum (map (fun c2 => Z.b2z (t =? c2)%Z) cl)
                  + zsum (map (fun c2 =>
                                 count_true
                                   (map (fun pt => (fst pt =? c1)%Z && (snd pt =? c2)%Z)
                                        pairs)) cl))%Z).
    + rewrite zsum_map_add, IH, zsum_map_scale_r.
      rewrite (indicator_sum t cl Hnd Ht), (indicator_sum p cl Hnd Hp).
      simpl length; lia.
    + intros c1 _.
      rewrite <- zsum_map_scale, <- zsum_map_add.
      apply zsum_map_ext; intros c2 _.
      simpl map; rewrite count_true_cons; simpl fst; simpl snd.
      destruct (p =? c1)%Z, (t =? c2)%Z; simpl; lia.
Qed.

Lemma label_table_sum (cl preds truths : list Z) :
  NoDup cl -> incl preds cl -> incl truths cl ->
  length preds = length truths ->
  (Z.of_nat (length truths) <= 2 ^ 24)%Z ->
  table_sum (label_table cl preds truths) = Z.of_nat (length truths).
Proof.
  intros Hnd Hp Ht Hlen Hb.
  rewrite (label_table_exact _ _ _ Hb).
  unfold table_sum; rewrite map_map.
  rewrite label_pairs_sum; [| assumption |].
  - now rewrite length_combine, Hlen, Nat.min_id.
  - apply Forall_forall; intros [p t] Hin; simpl; split.
    + apply Hp; eapply in_combine_l; eauto.
    + apply Ht; eapply in_combine_r; eauto.
Qed.

Lemma sorted_lt_NoDup (l : list Z) : StronglySorted Z.lt l -> NoDup l.
Proof.
  induction 1 as [| x l Hs IH Hall]; constructor; [| assumption].
  intros Hin; rewrite Forall_forall in Hall; specialize (Hall _ Hin); lia.
Qed.

Lemma get_table_square (truths predictions : ndarray) (classes : option (list Z))
      (t : table) :
  _get_contingency_table truths predictions classes = Ok t ->
  square (length t) t /\ nonneg_table t.
Proof.
  intros H; destruct truths as [tl | tcols trows].
  - destruct (get_table_deterministic _ _ _ _ H) as [preds [_ [_ ->]]].
    split; [| apply label_table_nonneg].
    match goal with |- square _ (label_table ?c _ _) =>
      pose proof (label_table_square c preds tl) as Hsq end.
    destruct Hsq as [Hl Hr]; split; [reflexivity | now rewrite Hl].
  - destruct (get_table_probabilistic _ _ _ _ _ H) as [prows [_ [_ Ht]]].
    destruct (tally_spec _ _ _ _ (np_zeros_square tcols) Ht) as [Hsq [Hnn _]].
    split; [| apply Hnn, np_zeros_nonneg].
    destruct Hsq as [Hl Hr]; split; [reflexivity | now rewrite Hl].
Qed.

(** C5, as the code has it: every table that is returned has non-negative
    cells, and its grand total is the number of samples whenever there are
    at most 2^24 samples (so that every float32 cell holds its count) and
    truths is two-dimensional, the classes are derived, or the supplied
    classes are duplicate-free and hold every truth label and every label
    prediction. *)
Theorem table_nonneg_and_total
        (truths predictions : ndarray) (classes : option (list Z)) (t : table) :
  _get_contingency_table truths predictions classes = Ok t ->
  nonneg_table t /\
  (classes_cover truths predictions classes ->
   (Z.of_nat (len truths) <= 2 ^ 24)%Z ->
   table_sum t = Z.of_nat (len truths)).
Proof.
  intros H; split; [eapply get_table_square; eauto |].
  intros Hcov Hb; destruct truths as [tl | tcols trows]; simpl in Hb |- *.
  - destruct (get_table_deterministic _ _ _ _ H) as [preds [Hlen [Hpred ->]]].
    destruct classes as [cl |]; simpl in Hcov.
    + destruct Hcov as [Hnd [Ht Hp]].
      apply label_table_sum; auto.
      destruct predictions as [pl | pcols prows].
      * now subst.
      * destruct Hpred as [cl' [idx [Hcl [_ Htake]]]].
        injection Hcl as <-; eapply np_take_spec; eauto.
    + apply label_table_sum; auto.
      * apply sorted_lt_NoDup, np_unique_sorted.
      * intros x Hx; unfold np_append.
        rewrite np_unique_In, in_app_iff, !np_unique_In; tauto.
      * intros x Hx; unfold np_append.
        rewrite np_unique_In, in_app_iff, !np_unique_In; tauto.
  - destruct (get_table_probabilistic _ _ _ _ _ H) as [prows [_ [Hlen Ht]]].
    destruct (tally_spec _ _ _ _ (np_zeros_square tcols) Ht) as [_ [_ [_ Hs]]].
    rewrite Hs; rewrite ?np_zeros_sum, ?length_combine, ?length_map, ?Hlen, ?Nat.min_id;
      [lia | apply np_zeros_nonneg | lia].
Qed.

Lemma table_nonneg_and_total_witness :
  nonneg_table [[1; 0]; [1; 2]]%Z /\
  table_sum [[1; 0]; [1; 2]]%Z = Z.of_nat (len (Arr1 [0; 0; 1; 1]%Z)).
Proof.
  destruct (table_nonneg_and_total
              (Arr1 [0; 0; 1; 1]%Z) (Arr1 [0; 1; 1; 1]%Z) (Some [0; 1]%Z)
              [[1; 0]; [1; 2]]%Z eq_refl) as [Hnn Hsum].
  split; [exact Hnn |].
  apply Hsum; simpl; [| lia].
  split; [repeat constructor; simpl; intuition discriminate |].
  split; intros x Hx; simpl in *; intuition.
Defined.

(** C5 as stated fails: a supplied class listing that leaves a label out
    leaves its samples out of the table, a listing with a repeated class
    counts its samples more than once, and beyond 2^24 samples a float32
    cell no longer holds its count: 2^24 + 1 samples of one label give the
    table [[16777216]]. *)
Lemma table_total_counterexample :
  (_get_contingency_table (Arr1 [0; 1]%Z) (Arr1 [0; 1]%Z) (Some [0]%Z)
   = Ok [[1]]%Z /\
   table_sum [[1]]%Z <> Z.of_nat (len (Arr1 [0; 1]%Z))) /\
  (_get_contingency_table (Arr1 [0; 1]%Z) (Arr1 [0; 1]%Z) (Some [0; 0; 1]%Z)
   = Ok [[1; 1; 0]; [1; 1; 0]; [0; 0; 1]]%Z /\
   table_sum [[1; 1; 0]; [1; 1; 0]; [0; 0; 1]]%Z <> Z.of_nat (len (Arr1 [0; 1]%Z))) /\
  (_get_contingency_table (Arr1 (repeat 7%Z (Z.to_nat 16777217)))
                          (Arr1 (repeat 7%Z (Z.to_nat 16777217))) None
   = Ok [[16777216]]%Z /\
   table_sum [[16777216]]%Z
   <> Z.of_nat (len (Arr1 (repeat 7%Z (Z.to_nat 16777217))))).
Proof.
  split; [split; [reflexivity | vm_compute; discriminate] |].
  split; [split; [reflexivity | vm_compute; discriminate] |].
  split.
  - rewrite single_label_table by lia.
    rewrite Z2Nat.id by lia; reflexivity.
  - cbn [len]; rewrite repeat_length, Z2Nat.id by lia.
    vm_compute; discriminate.
Qed.

(** ** Probabilistic predictions against label truths *)

Lemma py_div_raises (a b : Q) (e : exn) :
  py_div a b = Raise e -> e = ZeroDivisionError.
Proof.
  unfold py_div; destruct (Qeq_bool b 0); intros H; [congruence | discriminate].
Qed.

Lemma gerrity_cell_raises (k : nat) (a : list npfloat) (i j : nat) (e : exn) :
  gerrity_cell k a i j = Raise e -> e = ZeroDivisionError.
Proof.
  unfold gerrity_cell; intros H.
  destruct (py_div 1 (inject_Z (Z.of_nat k) - 1)) as [f |] eqn:Ef.
  - destruct (i =? j)%nat; [discriminate |].
    destruct (i <? j)%nat; discriminate.
  - apply py_div_raises in Ef; subst.
    destruct (i =? j)%nat; [simpl in H; congruence |].
    destruct (i <? j)%nat; simpl in H; congruence.
Qed.

(** The score formulas raise nothing but [ZeroDivisionError]. *)
Lemma scores_raise_only_zero_division (t : table) (e : exn) :
  _gerrity_score t = Raise e \/ _peirce_skill_score t = Raise e
  \/ _heidke_skill_score t = Raise e ->
  e = ZeroDivisionError.
Proof.
  intros [H | [H | H]].
  - unfold _gerrity_score in H.
    match type of H with bind ?m _ = _ => destruct m as [s |] eqn:Es end;
      simpl in H; [discriminate |].
    injection H as ->.
    apply mapM_Raise in Es; destruct Es as [i [_ Hi]].
    apply mapM_Raise in Hi; destruct Hi as [j [_ Hj]].
    eapply gerrity_cell_raises; eauto.
  - unfold _peirce_skill_score in H.
    match type of H with bind ?m _ = _ => destruct m as [s |] eqn:Es end;
      simpl in H; [discriminate |].
    injection H as ->; eapply py_div_raises; eauto.
  - unfold _heidke_skill_score in H.
    match type of H with bind ?m _ = _ => destruct m as [s |] eqn:Es end;
      simpl in H; [discriminate |].
    injection H as ->; eapply py_div_raises; eauto.
Qed.

(** C9: with one-dimensional truths and two-dimensional predictions of the
    same length, every metric raises the ambiguous-forecasts error when no
    classes are given; when classes are given none of them raises it, and a
    table that is returned is the table of the truths against the labels
    [classes[argmax(row)]] of the prediction rows. *)
Theorem probabilistic_predictions_need_classes
        (tlabels : list Z) (pcols : nat) (prows : list (list Q)) :
  length tlabels = length prows ->
  (_get_contingency_table (Arr1 tlabels) (Arr2 pcols prows) None
   = Raise AmbiguousProbabilisticForecastsException /\
   gerrity_score (Arr1 tlabels) (Arr2 pcols prows) None
   = Raise AmbiguousProbabilisticForecastsException /\
   peirce_skill_score (Arr1 tlabels) (Arr2 pcols prows) None
   = Raise AmbiguousProbabilisticForecastsException /\
   heidke_skill_score (Arr1 tlabels) (Arr2 pcols prows) None
   = Raise AmbiguousProbabilisticForecastsException) /\
  (forall cl : list Z,
      _get_contingency_table (Arr1 tlabels) (Arr2 pcols prows) (Some cl)
      <> Raise AmbiguousProbabilisticForecastsException /\
      gerrity_score (Arr1 tlabels) (Arr2 pcols prows) (Some cl)
      <> Raise AmbiguousProbabilisticForecastsException /\
      peirce_skill_score (Arr1 tlabels) (Arr2 pcols prows) (Some cl)
      <> Raise AmbiguousProbabilisticForecastsException /\
      heidke_skill_score (Arr1 tlabels) (Arr2 pcols prows) (Some cl)
      <> Raise AmbiguousProbabilisticForecastsException /\
      (forall t,
          _get_contingency_table (Arr1 tlabels) (Arr2 pcols prows) (Some cl) = Ok t ->
          exists preds,
            length preds = length prows /\
            (forall p row, nth_error prows p = Some row ->
                           exists c, nth_error preds p = Some c /\
                                     nth_error cl (argmax_row row) = Some c) /\
            _get_contingency_table (Arr1 tlabels) (Arr1 preds) (Some cl) = Ok t) /\
      ((0 < pcols)%nat ->
       wf_array (Arr2 pcols prows) = true ->
       (pcols <= length cl)%nat ->
       exists t,
         _get_contingency_table (Arr1 tlabels) (Arr2 pcols prows) (Some cl) = Ok t)).
Proof.
  intros Hlen.
  assert (Hnone : _get_contingency_table (Arr1 tlabels) (Arr2 pcols prows) None
                  = Raise AmbiguousProbabilisticForecastsException).
  { unfold _get_contingency_table; simpl; rewrite Hlen, Nat.eqb_refl; reflexivity. }
  split.
  { unfold gerrity_score, peirce_skill_score, heidke_skill_score.
    rewrite Hnone; simpl; auto. }
  intros cl.
  assert (Hsome : _get_contingency_table (Arr1 tlabels) (Arr2 pcols prows) (Some cl)
                  <> Raise AmbiguousProbabilisticForecastsException).
  { unfold _get_contingency_table; simpl; rewrite Hlen, Nat.eqb_refl; simpl.
    unfold np_argmax_axis1.
    destruct (pcols =? 0)%nat; simpl; [discriminate |].
    destruct (np_take cl (map argmax_row prows)) as [preds |] eqn:Et; simpl;
      [discriminate |].
    apply mapM_Raise in Et; destruct Et as [i [_ Hi]].
    destruct (nth_error cl i); [discriminate |]; congruence. }
  assert (Hscore : forall score : table -> outcome npfloat,
             (forall t e, score t = Raise e -> e = ZeroDivisionError) ->
             bind (_get_contingency_table (Arr1 tlabels) (Arr2 pcols prows) (Some cl))
                  score
             <> Raise AmbiguousProbabilisticForecastsException).
  { intros score Hs.
    destruct (_get_contingency_table (Arr1 tlabels) (Arr2 pcols prows) (Some cl))
      as [t | e]; simpl; [| intros H; apply Hsome; congruence].
    intros H; apply Hs in H; discriminate. }
  split; [exact Hsome |].
  split; [apply Hscore; intros t e H; apply (scores_raise_only_zero_division t); auto |].
  split; [apply Hscore; intros t e H; apply (scores_raise_only_zero_division t); auto |].
  split; [apply Hscore; intros t e H; apply (scores_raise_only_zero_division t); auto |].
  split.
  - intros t Ht.
    destruct (get_table_deterministic _ _ _ _ Ht)
      as [preds [Hl [[cl' [idx [Hcl [Hidx Htake]]]] ->]]].
    injection Hcl as <-.
    unfold np_argmax_axis1 in Hidx.
    destruct (pcols =? 0)%nat; [discriminate |]; injection Hidx as <-.
    destruct (np_take_spec _ _ _ Htake) as [Hl' [Hnth _]].
    exists preds; split; [now rewrite Hl', length_map |]; split.
    + intros p row Hrow; apply Hnth.
      now rewrite nth_error_map, Hrow.
    + unfold _get_contingency_table; simpl.
      rewrite <- Hl, Nat.eqb_refl; reflexivity.
  - intros Hk Hwf Hcl; simpl in Hwf.
    unfold _get_contingency_table; simpl; rewrite Hlen, Nat.eqb_refl; simpl.
    unfold np_argmax_axis1.
    destruct (Nat.eqb_spec pcols 0); [lia |]; simpl.
    destruct (np_take cl (map argmax_row prows)) as [preds |] eqn:Et; simpl;
      [eauto |].
    apply mapM_Raise in Et; destruct Et as [i [Hin Hi]].
    apply in_map_iff in Hin; destruct Hin as [row [<- Hrow]].
    rewrite forallb_forall in Hwf; apply Hwf in Hrow; apply Nat.eqb_eq in Hrow.
    destruct (nth_error cl (argmax_row row)) eqn:En; [discriminate |].
    apply nth_error_None in En.
    pose proof (argmax_row_lt row); lia.
Qed.

Lemma probabilistic_predictions_need_classes_witness :
  gerrity_score (Arr1 [3; 5]%Z) (Arr2 2 [[1 # 4; 3 # 4]; [1; 0]]) None
  = Raise AmbiguousProbabilisticForecastsException /\
  _get_contingency_table (Arr1 [3; 5]%Z) (Arr2 2 [[1 # 4; 3 # 4]; [1; 0]])
                         (Some [3; 5]%Z)
  = _get_contingency_table (Arr1 [3; 5]%Z) (Arr1 [5; 3]%Z) (Some [3; 5]%Z).
Proof.
  destruct (probabilistic_predictions_need_classes
              [3; 5]%Z 2 [[1 # 4; 3 # 4]; [1; 0]] eq_refl) as [[_ [Hg _]] _].
  split; [exact Hg | reflexivity].
Defined.

(* ================================================================== *)
(** * The skill-score formulas *)

Lemma np_div_Some (x y : Q) : ~ y == 0 -> np_div (Some x) (Some y) = Some (x / y).
Proof.
  intros H; unfold np_div.
  destruct (Qeq_bool y 0) eqn:E; [apply Qeq_bool_eq in E; contradiction | reflexivity].
Qed.

Lemma py_div_Ok (x y : Q) : ~ y == 0 -> py_div x y = Ok (x / y).
Proof.
  intros H; unfold py_div.
  destruct (Qeq_bool y 0) eqn:E; [apply Qeq_bool_eq in E; contradiction | reflexivity].
Qed.

Lemma inject_Z_nonzero (z : Z) : z <> 0%Z -> ~ inject_Z z == 0.
Proof. intros H E; apply H; unfold Qeq in E; simpl in E; lia. Qed.

(** ** Axis sums as indexed sums *)

Lemma map_nth_seq {A : Type} (d : A) (l : list A) :
  map (fun i => nth i l d) (seq 0 (length l)) = l.
Proof.
  induction l as [| x l IH]; simpl; [reflexivity |].
  f_equal; rewrite <- seq_shift, map_map; exact IH.
Qed.

Lemma big_sum_S (k : nat) (f : nat -> Z) :
  big_sum (S k) f = (f 0%nat + big_sum k (fun i => f (S i)))%Z.
Proof.
  unfold big_sum; simpl; now rewrite <- seq_shift, map_map.
Qed.

Lemma big_sum_ext (k : nat) (f g : nat -> Z) :
  (forall i, (i < k)%nat -> f i = g i) -> big_sum k f = big_sum k g.
Proof.
  intros H; unfold big_sum; apply zsum_map_ext.
  intros i Hi; apply in_seq in Hi; apply H; lia.
Qed.

Lemma zsum_as_big_sum (l : list Z) :
  zsum l = big_sum (length l) (fun j => nth j l 0%Z).
Proof. unfold big_sum; now rewrite map_nth_seq. Qed.

Lemma sum_axis1_marginals (k : nat) (t : table) :
  square k t -> sum_axis1 t = map (row_marginal k t) (seq 0 k).
Proof.
  intros [Hlen Hrows]; unfold sum_axis1.
  rewrite <- (map_nth_seq [] t) at 1; rewrite map_map, Hlen.
  apply map_ext_in; intros i Hi; apply in_seq in Hi.
  unfold row_marginal, cell; rewrite zsum_as_big_sum.
  replace (length (nth i t [])) with k; [reflexivity |].
  rewrite Forall_forall in Hrows; symmetry; apply Hrows, nth_In; lia.
Qed.

Lemma zip_with_add_length (l1 l2 : list Z) :
  length l1 = length l2 -> length (zip_with Z.add l1 l2) = length l2.
Proof.
  revert l2; induction l1 as [| x l1 IH]; intros [| y l2] H; simpl in *;
    try discriminate; auto.
Qed.

Lemma zip_with_add_nth (l1 l2 : list Z) (j : nat) :
  length l1 = length l2 ->
  nth j (zip_with Z.add l1 l2) 0%Z = (nth j l1 0 + nth j l2 0)%Z.
Proof.
  revert l2 j; induction l1 as [| x l1 IH]; intros [| y l2] [| j] H; simpl in *;
    try discriminate; auto.
Qed.

Lemma column_sums (c : nat) (t : table) :
  Forall (fun r => length r = c) t ->
  length (fold_right (zip_with Z.add) (repeat 0%Z c) t) = c /\
  forall j,
    nth j (fold_right (zip_with Z.add) (repeat 0%Z c) t) 0%Z
    = zsum (map (fun r => nth j r 0%Z) t).
Proof.
  induction 1 as [| r t Hr Hall [IHl IHn]]; simpl.
  - split; [apply repeat_length |].
    intros j; destruct (Nat.lt_ge_cases j c).
    + now rewrite nth_repeat_lt.
    + now rewrite nth_overflow by (rewrite repeat_length; lia).
  - split.
    + rewrite zip_with_add_length; congruence.
    + intros j; rewrite zip_with_add_nth by congruence; now rewrite IHn.
Qed.

Lemma table_ncols_square (k : nat) (t : table) : square k t -> table_ncols t = k.
Proof.
  intros [Hlen Hrows]; destruct t as [| r t]; simpl in *; [assumption |].
  now inversion Hrows.
Qed.

Lemma sum_axis0_marginals (k : nat) (t : table) :
  square k t -> sum_axis0 t = map (col_marginal k t) (seq 0 k).
Proof.
  intros Hsq; unfold sum_axis0; rewrite (table_ncols_square k t Hsq).
  destruct Hsq as [Hlen Hrows].
  destruct (column_sums k t Hrows) as [Hl Hn].
  apply (nth_ext _ _ 0%Z (col_marginal k t 0%nat)).
  - now rewrite Hl, length_map, length_seq.
  - intros j Hj; rewrite Hl in Hj.
    rewrite (map_nth (col_marginal k t)), seq_nth by assumption; simpl.
    rewrite Hn; unfold col_marginal, big_sum, cell.
    rewrite <- (map_nth_seq [] t) at 1; now rewrite map_map, Hlen.
Qed.

Lemma trace_from_diagonal (t : table) (i0 : nat) :
  trace_from i0 t = big_sum (length t) (fun r => cell t r (i0 + r)%nat).
Proof.
  revert i0; induction t as [| r t IH]; intros i0; [reflexivity |].
  simpl length; rewrite big_sum_S; simpl trace_from.
  rewrite IH; unfold cell; simpl; rewrite Nat.add_0_r; f_equal.
  apply big_sum_ext; intros i _; now rewrite Nat.add_succ_r.
Qed.

Lemma trace_correct (k : nat) (t : table) : square k t -> trace t = correct k t.
Proof.
  intros [Hlen _]; unfold trace, correct; now rewrite trace_from_diagonal, Hlen.
Qed.

Lemma table_sum_grand_total (k : nat) (t : table) :
  square k t -> table_sum t = grand_total k t.
Proof.
  intros Hsq; unfold table_sum, grand_total.
  change (map zsum t) with (sum_axis1 t).
  now rewrite (sum_axis1_marginals k t Hsq).
Qed.

Lemma zip_with_map_map {A B C D : Type} (f : B -> C -> D) (g : A -> B) (h : A -> C)
      (l : list A) :
  zip_with f (map g l) (map h l) = map (fun x => f (g x) (h x)) l.
Proof. induction l; simpl; congruence. Qed.



(** ** Two classes *)

Section TwoClasses.
Variables a b c d : Z.
Hypothesis col0_nonzero : (a + c)%Z <> 0%Z.
Hypothesis col1_nonzero : (b + d)%Z <> 0%Z.
Hypothesis cells_nonneg : nonneg_table [[a; b]; [c; d]].

Local Abbreviation A := (inject_Z a).
Local Abbreviation B := (inject_Z b).
Local Abbreviation C := (inject_Z c).
Local Abbreviation D := (inject_Z d).






End TwoClasses.




(* ================================================================== *)
(** * The sequential-selection engine *)

(** ** The round winner *)

Section PyMinFacts.
Variables (A K : Type).
Variable ltb : K -> K -> bool.
Variable key : A -> K.

(** [<] on comparison keys is a strict weak order, as it is on numbers. *)
Hypothesis ltb_irrefl : forall x, ltb x x = false.
Hypothesis ltb_trans :
  forall x y z, ltb x y = true -> ltb y z = true -> ltb x z = true.
Hypothesis ltb_cotrans :
  forall x y z, ltb x y = true -> ltb x z = true \/ ltb z y = true.

Lemma py_min_from_first_minimal (xs : list A) (best : A) :
  exists p, first_minimal ltb key (best :: xs) p (py_min_from ltb key best xs).
Proof.
  revert best; induction xs as [| x xs IH]; intros best; simpl.
  - exists 0%nat; repeat split; simpl; auto.
    + intros [| [| q]] y Hy; simpl in Hy; try discriminate.
      injection Hy as <-; apply ltb_irrefl.
    + intros q y Hq; lia.
  - destruct (ltb (key x) (key best)) eqn:Exb.
    + destruct (IH x) as [p [Hp [Hmin Hbefore]]].
      set (w := py_min_from ltb key x xs) in *.
      assert (Hxw : ltb (key x) (key w) = false) by (apply (Hmin 0%nat); reflexivity).
      assert (Hwb : ltb (key w) (key best) = true).
      { destruct (ltb_cotrans _ _ (key w) Exb) as [H | H]; [congruence | exact H]. }
      exists (S p); repeat split; auto.
      * intros [| q] y Hy; simpl in Hy; [| eapply Hmin; eauto].
        injection Hy as <-.
        destruct (ltb (key best) (key w)) eqn:E; [| reflexivity].
        rewrite (ltb_trans _ _ _ Exb E) in Hxw; discriminate.
      * intros [| q] y Hq Hy; simpl in Hy.
        -- now injection Hy as <-.
        -- apply (Hbefore q); [lia | exact Hy].
    + destruct (IH best) as [p [Hp [Hmin Hbefore]]].
      set (w := py_min_from ltb key best xs) in *.
      assert (Hbw : ltb (key best) (key w) = false)
        by (apply (Hmin 0%nat); reflexivity).
      assert (Hxw : ltb (key x) (key w) = false).
      { destruct (ltb (key x) (key w)) eqn:E; [| reflexivity].
        destruct (ltb_cotrans _ _ (key best) E) as [H | H]; congruence. }
      destruct p as [| p].
      * exists 0%nat; repeat split; auto.
        -- intros [| [| q]] y Hy; simpl in Hy.
           ++ injection Hy as <-; exact Hbw.
           ++ injection Hy as <-; exact Hxw.
           ++ apply (Hmin (S q)); exact Hy.
        -- intros q y Hq; lia.
      * exists (S (S p)); repeat split; auto.
        -- intros [| [| q]] y Hy; simpl in Hy.
           ++ injection Hy as <-; exact Hbw.
           ++ injection Hy as <-; exact Hxw.
           ++ apply (Hmin (S q)); exact Hy.
        -- intros [| [| q]] y Hq Hy; simpl in Hy.
           ++ injection Hy as <-; apply (Hbefore 0%nat); [lia | reflexivity].
           ++ injection Hy as <-.
              assert (Hwb : ltb (key w) (key best) = true)
                by (apply (Hbefore 0%nat); [lia | reflexivity]).
              destruct (ltb_cotrans _ _ (key x) Hwb) as [H | H]; congruence.
           ++ apply (Hbefore (S q)); [lia | exact Hy].
Qed.

Lemma py_min_first_minimal (xs : list A) :
  xs <> [] -> exists p w, py_min ltb key xs = Ok w /\ first_minimal ltb key xs p w.
Proof.
  destruct xs as [| x xs]; [congruence |]; intros _; simpl.
  destruct (py_min_from_first_minimal xs x) as [p Hp]; eauto.
Qed.
End PyMinFacts.

Lemma py_min_from_In {A K : Type} (ltb : K -> K -> bool) (key : A -> K)
      (xs : list A) (best : A) :
  In (py_min_from ltb key best xs) (best :: xs).
Proof.
  revert best; induction xs as [| x xs IH]; intros best; simpl; [auto |].
  destruct (ltb (key x) (key best)).
  - right; apply IH.
  - destruct (IH best) as [H | H]; [left | right; right]; auto.
Qed.

Lemma flatnonzero_from_first {Name : Type} (name_eqb : Name -> Name -> bool)
      (names : list Name) (x : Name) (v i : nat) :
  (forall a b, name_eqb a b = true <-> a = b) ->
  NoDup names ->
  nth_error names v = Some x ->
  index0 (flatnonzero_from i (map (fun n => name_eqb n x) names)) = Ok (i + v)%nat.
Proof.
  intros Hspec Hnd; revert v i.
  induction Hnd as [| y names Hnotin Hnd IH]; intros [| v] i Hv; simpl in *;
    try discriminate.
  - injection Hv as ->.
    rewrite (proj2 (Hspec x x) eq_refl); simpl; f_equal; lia.
  - destruct (name_eqb y x) eqn:E.
    + apply Hspec in E; subst; exfalso; apply Hnotin.
      eapply nth_error_In; eauto.
    + rewrite (IH v (S i) Hv); f_equal; lia.
Qed.

Lemma complement_length (m : nat) (chosen rest : list nat) :
  NoDup chosen -> NoDup rest ->
  (forall v, In v chosen -> (v < m)%nat) ->
  (forall v, In v rest <-> (v < m)%nat /\ ~ In v chosen) ->
  length rest = (m - length chosen)%nat.
Proof.
  intros Hc Hr Hlt Hiff.
  assert (Hperm : Permutation (chosen ++ rest) (seq 0 m)).
  { apply NoDup_Permutation.
    - apply NoDup_app; [assumption | assumption |].
      intros v Hv Hv'; apply Hiff in Hv'; tauto.
    - apply seq_NoDup.
    - intros v; rewrite in_app_iff, in_seq, Hiff.
      destruct (in_dec Nat.eq_dec v chosen) as [Hin | Hout].
      + specialize (Hlt v Hin); intuition lia.
      + intuition lia. }
  apply Permutation_length in Hperm.
  rewrite length_app, length_seq in Hperm; lia.
Qed.

Lemma flatnonzero_from_sound {A : Type} (f : A -> bool) (names : list A) (i0 j : nat) :
  index0 (flatnonzero_from i0 (map f names)) = Ok j ->
  (i0 <= j)%nat /\ exists x, nth_error names (j - i0) = Some x /\ f x = true.
Proof.
  revert i0; induction names as [| y names IH]; intros i0 H; simpl in H;
    [discriminate |].
  destruct (f y) eqn:E; simpl in H.
  - injection H as <-; split; [lia |].
    rewrite Nat.sub_diag; exists y; auto.
  - destruct (IH (S i0) H) as [Hle [x [Hx Ex]]]; split; [lia |].
    exists x; split; [| exact Ex].
    replace (j - i0)%nat with (S (j - S i0)) by lia; exact Hx.
Qed.

Lemma NoDup_nth_error_inj {A : Type} (l : list A) (i j : nat) (x : A) :
  NoDup l -> nth_error l i = Some x -> nth_error l j = Some x -> i = j.
Proof.
  intros Hnd Hi Hj.
  apply (proj1 (NoDup_nth_error l) Hnd); [| congruence].
  apply nth_error_Some; congruence.
Qed.

Lemma sorted_lt_nat_NoDup (l : list nat) : StronglySorted lt l -> NoDup l.
Proof.
  induction 1 as [| x l Hs IH Hall]; constructor; [| assumption].
  intros Hin; rewrite Forall_forall in Hall; specialize (Hall _ Hin); lia.
Qed.

Lemma sorted_nth_le (l : list nat) (p q a b : nat) :
  StronglySorted lt l -> (p <= q)%nat ->
  nth_error l p = Some a -> nth_error l q = Some b -> (a <= b)%nat.
Proof.
  intros Hs; revert p q; induction Hs as [| x l Hs IH Hall]; intros p q Hpq Hp Hq.
  - destruct p; discriminate.
  - destruct p as [| p], q as [| q]; simpl in *; try lia.
    + injection Hp as <-; injection Hq as <-; lia.
    + injection Hp as <-.
      rewrite Forall_forall in Hall.
      assert (x < b)%nat by (apply Hall; eapply nth_error_In; eauto); lia.
    + apply (IH p q); auto; lia.
Qed.

Lemma keyed_in_order_nth {Name Value : Type} (names : list Name) (cands : list nat)
      (d : dict Name Value) (q : nat) (k : Name) (v : Value) :
  keyed_in_order names cands d ->
  nth_error d q = Some (k, v) ->
  exists c, nth_error cands q = Some c /\ nth_error names c = Some k.
Proof.
  unfold keyed_in_order; intros Hord Hq.
  apply (f_equal (fun l => nth_error l q)) in Hord.
  rewrite !nth_error_map, Hq in Hord; simpl in Hord.
  destruct (nth_error cands q) as [c |]; simpl in Hord; [| discriminate].
  exists c; split; [reflexivity | congruence].
Qed.

Section EngineFacts.
Variables (Inputs Outputs Score Name Value Key Strategy : Type).
Variable name_eqb : Name -> Name -> bool.
Variable key_ltb : Key -> Key -> bool.
Variable item0 : Value -> Key.
Variable data_subset : Inputs -> list nat -> Inputs.
Variable convert :
  list (nat * Score) -> list Name -> Strategy -> outcome (dict Name Value).
Variables training_data scoring_data : Inputs * Outputs.
Variable scoring_fn : Inputs * Outputs -> Inputs * Outputs -> Score.
Variable scoring_strategy : Strategy.
Variable selection_strategy : nat -> list nat -> list (nat * list nat).
Variable variable_names : list Name.

Local Abbreviation m := (length variable_names).
Local Abbreviation round_ :=
  (round name_eqb key_ltb item0 data_subset convert training_data scoring_data
         scoring_fn scoring_strategy selection_strategy variable_names).
Local Abbreviation rounds_ :=
  (rounds name_eqb key_ltb item0 data_subset convert training_data scoring_data
          scoring_fn scoring_strategy selection_strategy variable_names).
Local Abbreviation candidates_ := (candidates selection_strategy variable_names).
Local Abbreviation run_ :=
  (sequential_selection name_eqb key_ltb item0 data_subset convert training_data
     scoring_data scoring_fn scoring_strategy selection_strategy variable_names).

(** [<] on comparison keys is a strict weak order, as it is on numbers. *)
Hypothesis key_ltb_irrefl : forall x, key_ltb x x = false.
Hypothesis key_ltb_trans :
  forall x y z, key_ltb x y = true -> key_ltb y z = true -> key_ltb x z = true.
Hypothesis key_ltb_cotrans :
  forall x y z, key_ltb x y = true -> key_ltb x z = true \/ key_ltb z y = true.

Hypothesis name_eqb_spec : forall a b, name_eqb a b = true <-> a = b.
Hypothesis names_distinct : NoDup variable_names.

Lemma round_commits_best_of (st st' : loop_state Name Value) :
  round_ st = Ok st' ->
  exists next_result best_var best_index,
    best_of key_ltb item0 next_result = Ok best_var /\
    ledger (result_obj st') = ledger (result_obj st) ++ [(next_result, best_var)] /\
    important_vars st' = important_vars st ++ [best_index] /\
    nth_error variable_names best_index = Some best_var.
Proof.
  intros H; unfold round in H.
  apply bind_Ok_inv in H; destruct H as [d [_ H]].
  apply bind_Ok_inv in H; destruct H as [w [Hw H]].
  apply bind_Ok_inv in H; destruct H as [i [Hi H]].
  injection H as <-; exists d, w, i; simpl.
  split; [exact Hw |]; split; [reflexivity |]; split; [reflexivity |].
  apply flatnonzero_from_sound in Hi; destruct Hi as [_ [x [Hx Ex]]].
  apply name_eqb_spec in Ex; subst x; now rewrite Nat.sub_0_r in Hx.
Qed.

Lemma best_of_first_minimal (next_result : dict Name Value) :
  next_result <> [] ->
  exists p best_var value,
    best_of key_ltb item0 next_result = Ok best_var /\
    nth_error next_result p = Some (best_var, value) /\
    (forall q k v,
        nth_error next_result q = Some (k, v) ->
        key_ltb (item0 v) (item0 value) = false) /\
    (forall q k v,
        nth_error next_result q = Some (k, v) ->
        key_ltb (item0 value) (item0 v) = false ->
        (p <= q)%nat).
Proof.
  intros Hne.
  destruct (py_min_first_minimal _ _ key_ltb (fun kv : Name * Value => item0 (snd kv))
              key_ltb_irrefl key_ltb_trans key_ltb_cotrans next_result Hne)
    as [p [[w value] [Hmin [Hp [Hle Hbefore]]]]].
  exists p, w, value; unfold best_of; rewrite Hmin; simpl.
  split; [reflexivity |]; split; [exact Hp |]; split.
  - intros q k v Hq; apply (Hle q (k, v) Hq).
  - intros q k v Hq Htie.
    destruct (Nat.le_gt_cases p q) as [| Hlt]; [assumption |].
    specialize (Hbefore q (k, v) Hlt Hq); simpl in Hbefore; congruence.
Qed.

Lemma winner_lowest_index (cands : list nat) (next_result : dict Name Value)
      (best_var : Name) (best_index : nat) :
  best_of key_ltb item0 next_result = Ok best_var ->
  nth_error variable_names best_index = Some best_var ->
  keyed_in_order variable_names cands next_result ->
  StronglySorted lt cands ->
  In best_index cands /\
  forall value i k v,
    In (best_var, value) next_result ->
    In (k, v) next_result ->
    nth_error variable_names i = Some k ->
    key_ltb (item0 value) (item0 v) = false ->
    (best_index <= i)%nat.
Proof.
  intros Hbest Hname Hord Hsorted.
  assert (Hne : next_result <> []) by (intros ->; discriminate).
  destruct (best_of_first_minimal next_result Hne)
    as [p [w [value0 [Hw [Hp [_ Hties]]]]]].
  assert (w = best_var) by congruence; subst w.
  destruct (keyed_in_order_nth _ _ _ _ _ _ Hord Hp) as [cp [Hcp Hncp]].
  assert (best_index = cp)
    by (eapply NoDup_nth_error_inj; [exact names_distinct | eauto | eauto]).
  subst cp; split; [eapply nth_error_In; eauto |].
  intros value i k v Hin_w Hin_k Hi Htie.
  apply In_nth_error in Hin_w; destruct Hin_w as [q' Hq'].
  apply In_nth_error in Hin_k; destruct Hin_k as [q Hq].
  destruct (keyed_in_order_nth _ _ _ _ _ _ Hord Hq') as [c' [Hc' Hnc']].
  destruct (keyed_in_order_nth _ _ _ _ _ _ Hord Hq) as [cq [Hcq Hncq]].
  assert (c' = best_index)
    by (eapply NoDup_nth_error_inj; [exact names_distinct | eauto | eauto]).
  subst c'.
  assert (q' = p)
    by (eapply NoDup_nth_error_inj;
        [apply sorted_lt_nat_NoDup; exact Hsorted | eauto | eauto]).
  subst q'.
  assert (value = value0) by congruence; subst value.
  assert (i = cq)
    by (eapply NoDup_nth_error_inj; [exact names_distinct | eauto | eauto]).
  subst i.
  eapply sorted_nth_le; [exact Hsorted | | exact Hcp | exact Hcq].
  eapply Hties; eauto.
Qed.

(** C6: the winner a round commits is [best_of] applied to the mapping of
    that round and to nothing else.  On a non-empty mapping [best_of] returns
    the key stored at a position [p] such that no entry has a smaller
    comparison key and every entry whose comparison key ties with the
    winner's sits at position [p] or later.  When the variable names are
    pairwise distinct and the mapping lists the candidates in ascending
    variable index, the committed index is the lowest among the variables
    that tie. *)
Theorem round_winner_first_among_ties :
  (forall next_result : dict Name Value,
      next_result <> [] ->
      exists p best_var value,
        best_of key_ltb item0 next_result = Ok best_var /\
        nth_error next_result p = Some (best_var, value) /\
        (forall q k v,
            nth_error next_result q = Some (k, v) ->
            key_ltb (item0 v) (item0 value) = false) /\
        (forall q k v,
            nth_error next_result q = Some (k, v) ->
            key_ltb (item0 value) (item0 v) = false ->
            (p <= q)%nat)) /\
  (forall st st',
      round_ st = Ok st' ->
      exists next_result best_var best_index,
        best_of key_ltb item0 next_result = Ok best_var /\
        ledger (result_obj st')
        = ledger (result_obj st) ++ [(next_result, best_var)] /\
        important_vars st' = important_vars st ++ [best_index] /\
        nth_error variable_names best_index = Some best_var /\
        (keyed_in_order variable_names (candidates_ st) next_result ->
         StronglySorted lt (candidates_ st) ->
         In best_index (candidates_ st) /\
         forall value i k v,
           In (best_var, value) next_result ->
           In (k, v) next_result ->
           nth_error variable_names i = Some k ->
           key_ltb (item0 value) (item0 v) = false ->
           (best_index <= i)%nat)).
Proof.
  split; [exact best_of_first_minimal |].
  intros st st' H.
  destruct (round_commits_best_of st st' H) as [d [w [i [Hw [Hled [Himp Hi]]]]]].
  exists d, w, i; repeat (split; [assumption |]).
  intros Hord Hsorted; now apply winner_lowest_index.
Qed.

(** The contract of a selection strategy: one candidate per variable that is
    not yet important. *)
Hypothesis strategy_contract :
  forall important,
    NoDup (map fst (selection_strategy m important)) /\
    forall v, In v (map fst (selection_strategy m important))
              <-> (v < m)%nat /\ ~ In v important.

(** The contract of [convert_result_list_to_dict]: the mapping is keyed by
    the names of the variables of the result list. *)
Hypothesis convert_contract :
  forall result : list (nat * Score),
    (forall v s, In (v, s) result -> (v < m)%nat) ->
    exists d,
      convert result variable_names scoring_strategy = Ok d /\
      forall k, In k (map fst d)
                <-> exists v s, In (v, s) result /\ nth_error variable_names v = Some k.

Lemma singlethread_vars (it : list (nat * list nat)) :
  map fst (_singlethread_iteration data_subset scoring_fn training_data scoring_data it)
  = map fst it.
Proof.
  unfold _singlethread_iteration.
  destruct training_data as [ti to], scoring_data as [si so].
  rewrite map_map; apply map_ext; intros [v cols]; reflexivity.
Qed.

Lemma candidates_count (r : nat) (st : loop_state Name Value) :
  round_invariant m r st -> length (candidates_ st) = (m - r)%nat.
Proof.
  intros [Hlen [Hnd [Hlt _]]]; unfold candidates.
  destruct (strategy_contract (important_vars st)) as [Hc Hiff].
  rewrite <- Hlen; now apply complement_length.
Qed.

Lemma round_step (r : nat) (st : loop_state Name Value) :
  round_invariant m r st ->
  (r < m)%nat ->
  exists st' w,
    round_ st = Ok st' /\
    important_vars st' = important_vars st ++ [w] /\
    In w (candidates_ st) /\
    round_invariant m (S r) st'.
Proof.
  intros Hinv Hr.
  pose proof (candidates_count r st Hinv) as Hcount.
  destruct Hinv as [Hlen [Hnd [Hlt Hled]]].
  destruct (strategy_contract (important_vars st)) as [Hc Hiff].
  unfold round.
  set (it := selection_strategy m (important_vars st)) in *.
  set (result := _singlethread_iteration data_subset scoring_fn training_data
                                         scoring_data it).
  assert (Hvars : map fst result = map fst it) by apply singlethread_vars.
  assert (Hres : forall v s, In (v, s) result -> In v (map fst it)).
  { intros v s Hin; rewrite <- Hvars; apply in_map_iff; exists (v, s); auto. }
  destruct (convert_contract result) as [d [Hd Hkeys]].
  { intros v s Hin; apply Hres, Hiff in Hin; tauto. }
  rewrite Hd; simpl.
  assert (Hne : d <> []).
  { unfold candidates in Hcount; fold it in Hcount.
    destruct it as [| [v cols] it']; [simpl in Hcount; lia |].
    assert (Hv : In v (map fst result)) by (rewrite Hvars; left; reflexivity).
    apply in_map_iff in Hv; destruct Hv as [[v' s] [Ev Hin]]; simpl in Ev; subst v'.
    assert (Hlt' : (v < m)%nat) by (apply (Hres v s), Hiff in Hin; tauto).
    destruct (nth_error variable_names v) as [k |] eqn:Ek;
      [| apply nth_error_None in Ek; lia].
    assert (Hk : In k (map fst d)) by (apply Hkeys; eauto).
    intros ->; contradiction. }
  unfold best_of; destruct d as [| kv d']; [congruence |]; simpl.
  set (item := py_min_from key_ltb (fun kv0 : Name * Value => item0 (snd kv0)) kv d').
  assert (Hitem : In (fst item) (map fst (kv :: d')))
    by (apply in_map, py_min_from_In).
  apply Hkeys in Hitem; destruct Hitem as [w [s [Hin Hw]]].
  unfold flatnonzero.
  rewrite (flatnonzero_from_first name_eqb variable_names (fst item) w 0
             name_eqb_spec names_distinct Hw); simpl.
  assert (Hcand : In w (map fst it)) by (eapply Hres; eauto).
  exists {| important_vars := important_vars st ++ [w];
            result_obj := add_new_results (result_obj st) (kv :: d') (fst item) |}, w.
  split; [reflexivity |]; split; [reflexivity |]; split; [exact Hcand |].
  apply Hiff in Hcand; destruct Hcand as [Hwm Hwnew].
  unfold round_invariant; simpl; repeat split.
  - rewrite length_app; simpl; lia.
  - apply NoDup_app; [assumption | repeat constructor; simpl; tauto |].
    intros v Hv [<- | []]; contradiction.
  - intros v Hv; apply in_app_iff in Hv; destruct Hv as [Hv | [<- | []]]; auto.
  - rewrite length_app; simpl; lia.
Qed.

Lemma rounds_add (a b : nat) (st : loop_state Name Value) :
  rounds_ (a + b) st = bind (rounds_ a st) (rounds_ b).
Proof.
  revert st; induction a as [| a IH]; intros st; simpl; [reflexivity |].
  destruct (round_ st) as [st' |]; simpl; auto.
Qed.

Lemma rounds_invariant (n r : nat) (st : loop_state Name Value) :
  round_invariant m r st ->
  (r + n <= m)%nat ->
  exists st' suffix,
    rounds_ n st = Ok st' /\
    round_invariant m (r + n) st' /\
    important_vars st' = important_vars st ++ suffix.
Proof.
  revert r st; induction n as [| n IH]; intros r st Hinv Hle; simpl.
  - exists st, []; rewrite Nat.add_0_r, app_nil_r; auto.
  - destruct (round_step r st Hinv) as [st1 [w [H1 [Himp [_ Hinv1]]]]]; [lia |].
    rewrite H1; simpl.
    destruct (IH (S r) st1 Hinv1) as [st' [suffix [H' [Hinv' Himp']]]]; [lia |].
    exists st', (w :: suffix); split; [exact H' |]; split.
    + now rewrite Nat.add_succ_r.
    + rewrite Himp', Himp, <- app_assoc; reflexivity.
Qed.

Lemma init_invariant (method : string) :
  round_invariant m 0 (init_state Value variable_names method).
Proof.
  unfold round_invariant, init_state; simpl; repeat split; auto.
  - constructor.
  - intros v [].
Qed.

(** C2, as the code has it: for distinct variable names and at most [m]
    rounds, the run returns after exactly [nimportant_vars] rounds (all [m]
    when none is given), each of which commits one variable; the committed
    variables are pairwise distinct; and the candidates of round [r] are the
    [m - r] variables not committed before it, among which its winner is. *)
Theorem sequential_selection_commits_distinct
        (strategy_name : string) (method : option string) (n : nat) :
  (n <= m)%nat ->
  let start := init_state Value variable_names
                          match method with None => strategy_name | Some s => s end in
  exists st,
    rounds_ n start = Ok st /\
    run_ strategy_name (Some n) method = Ok (result_obj st) /\
    run_ strategy_name None method = run_ strategy_name (Some m) method /\
    length (important_vars st) = n /\
    length (ledger (result_obj st)) = n /\
    NoDup (important_vars st) /\
    forall r,
      (r < n)%nat ->
      exists st_r w,
        rounds_ r start = Ok st_r /\
        important_vars st_r = firstn r (important_vars st) /\
        nth_error (important_vars st) r = Some w /\
        length (candidates_ st_r) = (m - r)%nat /\
        In w (candidates_ st_r) /\
        (forall v, In v (important_vars st_r) -> ~ In v (candidates_ st_r)).
Proof.
  intros Hn start.
  pose proof (init_invariant match method with None => strategy_name | Some s => s end)
    as Hinit; fold start in Hinit.
  destruct (rounds_invariant n 0 start Hinit) as [st [sfx [Hrun [Hinv _]]]]; [lia |].
  simpl in Hinv.
  exists st; split; [exact Hrun |].
  split; [unfold sequential_selection; fold start; rewrite Hrun; reflexivity |].
  split; [reflexivity |].
  destruct Hinv as [Hlen [Hnd [Hlt Hled]]].
  split; [exact Hlen |]; split; [exact Hled |]; split; [exact Hnd |].
  intros r Hr.
  destruct (rounds_invariant r 0 start Hinit) as [st_r [sfx_r [Hr_run [Hr_inv _]]]];
    [lia |].
  simpl in Hr_inv.
  destruct (round_step r st_r Hr_inv) as [st1 [w [H1 [Himp1 [Hcand Hinv1]]]]]; [lia |].
  destruct (rounds_invariant (n - S r) (S r) st1 Hinv1)
    as [st' [sfx' [Hrest [_ Himp']]]]; [lia |].
  assert (Hst : st' = st).
  { assert (E : rounds_ n start = Ok st').
    { replace n with (r + S (n - S r))%nat at 1 by lia.
      rewrite rounds_add, Hr_run; simpl; rewrite H1; simpl; exact Hrest. }
    congruence. }
  subst st'.
  pose proof (candidates_count r st_r Hr_inv) as Hcount.
  destruct Hr_inv as [Hr_len [Hr_nd [Hr_lt _]]].
  exists st_r, w; split; [exact Hr_run |].
  rewrite Himp', Himp1, <- app_assoc.
  split; [now rewrite <- Hr_len, firstn_app, Nat.sub_diag, firstn_all, app_nil_r |].
  split; [rewrite nth_error_app2 by lia; now rewrite Hr_len, Nat.sub_diag |].
  split; [exact Hcount |].
  split; [exact Hcand |].
  intros v Hv Hc; unfold candidates in Hc.
  apply (proj2 (strategy_contract (important_vars st_r))) in Hc; tauto.
Qed.
(** ** Further properties of the engine *)

Lemma flatnonzero_from_least {A : Type} (f : A -> bool) (names : list A) (i0 j : nat) :
  index0 (flatnonzero_from i0 (map f names)) = Ok j ->
  forall q x, (q < j - i0)%nat -> nth_error names q = Some x -> f x = false.
Proof.
  revert i0; induction names as [| y names IH]; intros i0 H q x Hq Hx; simpl in H;
    [discriminate |].
  destruct (f y) eqn:E; simpl in H.
  - injection H as <-; lia.
  - destruct q as [| q]; simpl in Hx; [congruence |].
    apply (IH (S i0) H q x); [lia | exact Hx].
Qed.

Lemma flatnonzero_from_none {A : Type} (f : A -> bool) (names : list A) (i0 : nat) :
  (forall x, In x names -> f x = false) ->
  flatnonzero_from i0 (map f names) = [].
Proof.
  revert i0; induction names as [| y names IH]; intros i0 H; simpl; [reflexivity |].
  rewrite (H y (or_introl eq_refl)); apply IH; intros x Hx; apply H; now right.
Qed.

Lemma map_nth_error_seq {A : Type} (l : list A) :
  map (nth_error l) (seq 0 (length l)) = map Some l.
Proof.
  induction l as [| x l IH]; simpl; [reflexivity |].
  f_equal; rewrite <- seq_shift, map_map; exact IH.
Qed.

Lemma map_Some_inj {A : Type} (a b : list A) : map Some a = map Some b -> a = b.
Proof.
  revert b; induction a as [| x a IH]; intros [| y b] H; simpl in H;
    try discriminate; [reflexivity |].
  injection H as -> H; f_equal; now apply IH.
Qed.

Local Abbreviation round_entry_ := (round_entry key_ltb item0 variable_names).

Lemma round_effect (st st' : loop_state Name Value) :
  round_ st = Ok st' ->
  exists i e,
    round_entry_ i e /\
    important_vars st' = important_vars st ++ [i] /\
    ledger (result_obj st') = ledger (result_obj st) ++ [e] /\
    method_name (result_obj st') = method_name (result_obj st) /\
    result_names (result_obj st') = result_names (result_obj st).
Proof.
  intros H; unfold round in H.
  apply bind_Ok_inv in H; destruct H as [d [_ H]].
  apply bind_Ok_inv in H; destruct H as [w [Hw H]].
  apply bind_Ok_inv in H; destruct H as [i [Hi H]].
  injection H as <-; exists i, (d, w); simpl.
  split; [| repeat split].
  unfold round_entry; simpl; split; [exact Hw |]; split.
  - apply flatnonzero_from_sound in Hi; destruct Hi as [_ [x [Hx Ex]]].
    apply name_eqb_spec in Ex; subst x; now rewrite Nat.sub_0_r in Hx.
  - intros j Hj Hn.
    pose proof (flatnonzero_from_least _ _ _ _ Hi j w) as Hf.
    rewrite Nat.sub_0_r in Hf; specialize (Hf Hj Hn).
    rewrite (proj2 (name_eqb_spec w w) eq_refl) in Hf; discriminate.
Qed.

Lemma rounds_trace (n : nat) (st st' : loop_state Name Value) :
  rounds_ n st = Ok st' ->
  exists idx entries,
    important_vars st' = important_vars st ++ idx /\
    ledger (result_obj st') = ledger (result_obj st) ++ entries /\
    Forall2 round_entry_ idx entries /\
    length idx = n /\
    method_name (result_obj st') = method_name (result_obj st) /\
    result_names (result_obj st') = result_names (result_obj st).
Proof.
  revert st; induction n as [| n IH]; intros st H; simpl in H.
  - injection H as <-; exists [], []; rewrite !app_nil_r; repeat split; constructor.
  - apply bind_Ok_inv in H; destruct H as [st1 [H1 H]].
    destruct (round_effect st st1 H1) as [i [e [He [Hi [Hl [Hm Hn]]]]]].
    destruct (IH st1 H) as [idx [entries [Hi' [Hl' [Hf [Hlen [Hm' Hn']]]]]]].
    exists (i :: idx), (e :: entries).
    rewrite Hi', Hl', Hi, Hl, <- !app_assoc; simpl.
    split; [reflexivity |]; split; [reflexivity |].
    split; [constructor; assumption |].
    split; [simpl; lia |]; split; congruence.
Qed.

(** Whatever the collaborators do, a run of [n] rounds that returns has
    appended exactly [n] indices and [n] ledger entries, in step, to what the
    state held before, and changed nothing else: each entry holds the mapping
    of its round with the winner [best_of] picks from it, and the index
    committed with it is the first position of the winner's name in the
    variable names. *)
Theorem rounds_only_append (n : nat) (st st' : loop_state Name Value) :
  rounds_ n st = Ok st' ->
  exists idx entries,
    important_vars st' = important_vars st ++ idx /\
    ledger (result_obj st') = ledger (result_obj st) ++ entries /\
    length idx = n /\
    length entries = n /\
    method_name (result_obj st') = method_name (result_obj st) /\
    result_names (result_obj st') = result_names (result_obj st) /\
    Forall2
      (fun i e =>
         best_of key_ltb item0 (fst e) = Ok (snd e) /\
         nth_error variable_names i = Some (snd e) /\
         forall j, (j < i)%nat -> nth_error variable_names j <> Some (snd e))
      idx entries.
Proof.
  intros H.
  destruct (rounds_trace n st st' H) as [idx [entries [Hi [Hl [Hf [Hlen [Hm Hn]]]]]]].
  exists idx, entries; repeat (split; [assumption |]).
  split; [rewrite <- (Forall2_length Hf); exact Hlen |].
  split; [exact Hm |]; split; [exact Hn | exact Hf].
Qed.

(** A round whose winner is not one of the variable names raises
    [IndexError]: [np.flatnonzero] finds no position to take. *)
Theorem unknown_winner_raises
        (st : loop_state Name Value) (next_result : dict Name Value) (best_var : Name) :
  convert (_singlethread_iteration data_subset scoring_fn training_data scoring_data
             (selection_strategy m (important_vars st)))
          variable_names scoring_strategy = Ok next_result ->
  best_of key_ltb item0 next_result = Ok best_var ->
  ~ In best_var variable_names ->
  round_ st = Raise IndexError.
Proof.
  intros Hd Hw Hout; unfold round; rewrite Hd; simpl; rewrite Hw; simpl.
  unfold flatnonzero; rewrite flatnonzero_from_none; [reflexivity |].
  intros x Hx; destruct (name_eqb x best_var) eqn:E; [| reflexivity].
  apply name_eqb_spec in E; subst x; contradiction.
Qed.

(** With more rounds than variables the run raises [ValueError]: round
    [m + 1] has no candidate left, its mapping is empty, and [min] has
    nothing to choose from. *)
Theorem too_many_rounds_raise
        (strategy_name : string) (method : option string) (n : nat) :
  (m < n)%nat ->
  sequential_selection name_eqb key_ltb item0 data_subset convert training_data
    scoring_data scoring_fn scoring_strategy selection_strategy variable_names
    strategy_name (Some n) method
  = Raise ValueError.
Proof.
  intros Hn; unfold sequential_selection.
  set (start := init_state Value variable_names
                           match method with None => strategy_name | Some s => s end).
  destruct (rounds_invariant m 0 start (init_invariant _)) as [st [sfx [Hrun [Hinv _]]]];
    [lia |].
  simpl in Hinv.
  pose proof (candidates_count m st Hinv) as Hcount.
  rewrite Nat.sub_diag in Hcount.
  assert (Hround : round_ st = Raise ValueError).
  { unfold round; unfold candidates in Hcount.
    destruct (selection_strategy m (important_vars st)) as [| c it];
      [| simpl in Hcount; lia].
    assert (Hres : _singlethread_iteration data_subset scoring_fn training_data
                                           scoring_data [] = []).
    { unfold _singlethread_iteration.
      destruct training_data, scoring_data; reflexivity. }
    rewrite Hres.
    destruct (convert_contract []) as [d [Hd Hkeys]]; [intros v s [] |].
    rewrite Hd; simpl.
    destruct d as [| [k v] d]; [reflexivity |].
    exfalso; destruct (proj1 (Hkeys k) (or_introl eq_refl)) as [v' [s' [[] _]]]. }
  replace n with (m + S (n - S m))%nat by lia.
  rewrite rounds_add, Hrun; simpl; rewrite Hround; reflexivity.
Qed.

(** A full run ranks every variable exactly once: after [m] rounds the
    committed indices are a permutation of [0, ..., m-1] and the
    important-variable sequence of the result is a permutation of the
    variable names. *)
Theorem full_run_ranks_every_variable (strategy_name : string) (method : option string) :
  exists st,
    rounds_ m (init_state Value variable_names
                          match method with None => strategy_name | Some s => s end)
    = Ok st /\
    run_ strategy_name None method = Ok (result_obj st) /\
    Permutation (important_vars st) (seq 0 m) /\
    Permutation (important_sequence (result_obj st)) variable_names.
Proof.
  set (start := init_state Value variable_names
                           match method with None => strategy_name | Some s => s end).
  destruct (rounds_invariant m 0 start (init_invariant _)) as [st [sfx [Hrun [Hinv _]]]];
    [lia |].
  simpl in Hinv; destruct Hinv as [Hlen [Hnd [Hlt _]]].
  exists st; split; [exact Hrun |].
  split; [unfold sequential_selection; fold start; rewrite Hrun; reflexivity |].
  assert (Hperm : Permutation (important_vars st) (seq 0 m)).
  { apply NoDup_Permutation_bis; [exact Hnd | rewrite length_seq; lia |].
    intros v Hv; apply in_seq; specialize (Hlt v Hv); lia. }
  split; [exact Hperm |].
  destruct (rounds_trace m start st Hrun) as [idx [entries [Hi [Hl [Hf _]]]]].
  simpl in Hi, Hl; subst idx.
  unfold important_sequence; rewrite Hl.
  assert (Hnames : map Some (map snd entries)
                   = map (nth_error variable_names) (important_vars st)).
  { clear Hl Hperm Hnd Hlt Hlen Hrun.
    induction Hf as [| i e idx entries [_ [He _]] Hf IH]; simpl; [reflexivity |].
    now rewrite He, IH. }
  apply (Permutation_map (nth_error variable_names)) in Hperm.
  rewrite <- Hnames, map_nth_error_seq in Hperm.
  apply Permutation_sym, Permutation_map_inv in Hperm.
  destruct Hperm as [l3 [E Hp]].
  apply map_Some_inj in E; subst l3; exact Hp.
Qed.

End EngineFacts.

(** ** The collaborators of the spec meet the contracts *)

Lemma Qltb_irrefl (x : Q) : Qltb x x = false.
Proof.
  destruct (Qltb x x) eqn:E; [| reflexivity].
  apply Qltb_lt in E; exfalso; eapply Qlt_irrefl; eauto.
Qed.

Lemma Qltb_trans (x y z : Q) : Qltb x y = true -> Qltb y z = true -> Qltb x z = true.
Proof. rewrite !Qltb_lt; apply Qlt_trans. Qed.

Lemma Qltb_cotrans (x y z : Q) : Qltb x y = true -> Qltb x z = true \/ Qltb z y = true.
Proof.
  rewrite !Qltb_lt; intros H.
  destruct (Qlt_le_dec x z) as [Hlt | Hle]; [left; exact Hlt | right].
  eapply Qle_lt_trans; eauto.
Qed.

Lemma sfs_strategy_contract (num_vars : nat) (important : list nat) :
  NoDup (map fst (sfs_strategy num_vars important)) /\
  forall v, In v (map fst (sfs_strategy num_vars important))
            <-> (v < num_vars)%nat /\ ~ In v important.
Proof.
  unfold sfs_strategy; rewrite map_map; simpl; rewrite map_id; split.
  - apply NoDup_filter, seq_NoDup.
  - intros v; rewrite filter_In, in_seq, negb_true_iff.
    split; intros [Hlt Hnot]; (split; [lia |]).
    + intros Hin; assert (E : existsb (Nat.eqb v) important = true)
        by (apply existsb_exists; exists v; split; [assumption | apply Nat.eqb_refl]).
      congruence.
    + destruct (existsb (Nat.eqb v) important) eqn:E; [| reflexivity].
      apply existsb_exists in E; destruct E as [u [Hu Euv]].
      apply Nat.eqb_eq in Euv; subst; contradiction.
Qed.

Lemma dict_set_keys {N V : Type} (eqb : N -> N -> bool) (d : list (N * V))
      (k k' : N) (v : V) :
  (forall a b, eqb a b = true <-> a = b) ->
  In k' (map fst (dict_set eqb d k v)) <-> k' = k \/ In k' (map fst d).
Proof.
  intros Hspec; induction d as [| [k0 v0] d IH]; simpl.
  - intuition congruence.
  - destruct (eqb k0 k) eqn:E; simpl.
    + apply Hspec in E; subst; intuition congruence.
    + rewrite IH; intuition congruence.
Qed.

Lemma convert_result_list_to_dict_contract {N : Type} (eqb : N -> N -> bool)
      (variable_names : list N) (s : strategy) (result : list (nat * Q)) :
  (forall a b, eqb a b = true <-> a = b) ->
  (forall v sc, In (v, sc) result -> (v < length variable_names)%nat) ->
  exists d,
    convert_result_list_to_dict eqb result variable_names s = Ok d /\
    forall k, In k (map fst d)
              <-> exists v sc, In (v, sc) result /\ nth_error variable_names v = Some k.
Proof.
  intros Hspec; unfold convert_result_list_to_dict.
  assert (Hgen : forall d0 : list (N * (Q * Q)),
             (forall v sc, In (v, sc) result -> (v < length variable_names)%nat) ->
             exists d,
               fold_left
                 (fun acc vs =>
                    d <- acc ;;
                    match nth_error variable_names (fst vs) with
                    | Some name =>
                        Ok (dict_set eqb d name (comparison_key s (snd vs), snd vs))
                    | None => Raise IndexError
                    end)
                 result (Ok d0) = Ok d /\
               forall k, In k (map fst d)
                         <-> In k (map fst d0) \/
                             exists v sc, In (v, sc) result /\
                                          nth_error variable_names v = Some k).
  { induction result as [| [v sc] result IH]; intros d0 Hlt; simpl.
    - exists d0; split; [reflexivity |].
      intros k; split; [auto | intros [H | [v [sc [[] _]]]]; exact H].
    - destruct (nth_error variable_names v) as [name |] eqn:En.
      + destruct (IH (dict_set eqb d0 name (comparison_key s sc, sc)))
          as [d [Hd Hk]]; [intros; eapply Hlt; right; eauto |].
        exists d; split; [exact Hd |].
        intros k; rewrite Hk, dict_set_keys by assumption; split.
        * intros [[-> | H] | [v' [sc' [Hin Hn]]]].
          -- right; exists v, sc; auto.
          -- left; exact H.
          -- right; exists v', sc'; auto.
        * intros [H | [v' [sc' [[E | Hin] Hn]]]].
          -- left; right; exact H.
          -- injection E as <- <-; left; left; congruence.
          -- right; exists v', sc'; auto.
      + apply nth_error_None in En.
        specialize (Hlt v sc (or_introl eq_refl)); lia. }
  intros Hlt; destruct (Hgen [] Hlt) as [d [Hd Hk]].
  exists d; split; [exact Hd |].
  intros k; rewrite Hk; simpl; tauto.
Qed.

Lemma round_winner_first_among_ties_witness :
  exists st' best_index,
    rounds_fixed [1 # 2; 1 # 4; 2 # 8] Argmin ["A"; "B"; "C"]%string 1 = Ok st' /\
    important_vars st' = [best_index] /\
    (best_index <= 2)%nat.
Proof.
  destruct (round_winner_first_among_ties
              (list nat) unit Q string (Q * Q)%type Q strategy
              String.eqb Qltb (@fst Q Q) get_data_subset
              (convert_result_list_to_dict String.eqb)
              ([0; 1; 2]%nat, tt) ([0; 1; 2]%nat, tt)
              (fixed_scoring_fn [1 # 2; 1 # 4; 2 # 8]) Argmin sfs_strategy
              ["A"; "B"; "C"]%string
              Qltb_irrefl Qltb_trans Qltb_cotrans String.eqb_eq
              ltac:(repeat constructor; simpl; intuition discriminate))
    as [_ Hround].
  specialize (Hround (init_state (Q * Q) ["A"; "B"; "C"]%string
                                 "Sequential Forward Selection"%string)).
  unfold rounds_fixed, rounds.
  match goal with
  | |- exists st' i, bind ?r _ = _ /\ _ => destruct r as [st1 | e] eqn:E
  end; [| vm_compute in E; discriminate].
  destruct (Hround st1 E) as [d [w [i [_ [Hled [Himp [_ Hlow]]]]]]].
  vm_compute in E; injection E as <-.
  simpl in Hled, Himp; injection Hled as <- <-.
  exists {| important_vars := [i]; result_obj := {|
              method_name := "Sequential Forward Selection"%string;
              result_names := ["A"; "B"; "C"]%string;
              ledger := [([("A", (1 # 2, 1 # 2)); ("B", (1 # 4, 1 # 4));
                           ("C", (2 # 8, 2 # 8))], "B")]%string |} |}, i.
  injection Himp as <-.
  split; [reflexivity |]; split; [reflexivity |].
  destruct Hlow as [_ Hlow]; [reflexivity | repeat constructor |].
  apply (Hlow (1 # 4, 1 # 4) 2%nat "C"%string (2 # 8, 2 # 8));
    simpl; auto.
Defined.

(** C6 with a repeated variable name: variables "A", "B", "A" score 2, 1, 1
    and the smallest score wins.  The mapping of the first round is keyed by
    name, so the score of variable 2 overwrites that of variable 0 under the
    key "A"; [min] returns "A", the first of the two keys that tie at 1; the
    index committed is the first position of "A", which is variable 0, the
    one variable whose score 2 is not minimal, and not variable 1, the
    lowest-index of the variables that tie. *)
Lemma round_winner_counterexample :
  exists st,
    rounds_fixed [2; 1; 1] Argmin ["A"; "B"; "A"]%string 1 = Ok st /\
    ledger (result_obj st)
    = [([("A", (1, 1)); ("B", (1, 1))], "A")]%string /\
    important_vars st = [0%nat] /\
    fixed_scoring_fn [2; 1; 1] ([0%nat], tt) ([0%nat], tt) = 2 /\
    fixed_scoring_fn [2; 1; 1] ([1%nat], tt) ([1%nat], tt) = 1 /\
    fixed_scoring_fn [2; 1; 1] ([2%nat], tt) ([2%nat], tt) = 1.
Proof.
  eexists; split; [vm_compute; reflexivity |].
  repeat split.
Qed.

Lemma sequential_selection_commits_distinct_witness :
  exists st,
    rounds_fixed [9 # 10; 5 # 10; 7 # 10] Argmax ["A"; "B"; "C"]%string 2 = Ok st /\
    length (important_vars st) = 2%nat /\
    NoDup (important_vars st).
Proof.
  destruct (sequential_selection_commits_distinct
              (list nat) unit Q string (Q * Q)%type Q strategy
              String.eqb Qltb (@fst Q Q) get_data_subset
              (convert_result_list_to_dict String.eqb)
              ([0; 1; 2]%nat, tt) ([0; 1; 2]%nat, tt)
              (fixed_scoring_fn [9 # 10; 5 # 10; 7 # 10]) Argmax sfs_strategy
              ["A"; "B"; "C"]%string
              String.eqb_eq
              ltac:(repeat constructor; simpl; intuition discriminate)
              (sfs_strategy_contract 3)
              (fun result =>
                 convert_result_list_to_dict_contract
                   String.eqb ["A"; "B"; "C"]%string Argmax result String.eqb_eq)
              "sfs_strategy"%string (Some "Sequential Forward Selection"%string) 2%nat
              ltac:(simpl; lia))
    as [st [Hrun [_ [_ [Hlen [_ [Hnd _]]]]]]].
  exists st; split; [exact Hrun |]; split; [exact Hlen | exact Hnd].
Defined.

(** C2 as stated fails: with more rounds than variables the run raises in the
    round after the last variable, and with a repeated variable name the
    same variable is committed twice. *)
Lemma sequential_selection_counterexample :
  run_fixed [9 # 10; 5 # 10; 7 # 10] Argmax ["A"; "B"; "C"]%string (Some 4%nat)
  = Raise ValueError /\
  exists st,
    rounds_fixed [9 # 10; 5 # 10] Argmin ["A"; "A"]%string 2 = Ok st /\
    important_vars st = [0; 0]%nat.
Proof.
  split; [vm_compute; reflexivity |].
  eexists; split; [vm_compute; reflexivity | reflexivity].
Qed.

(** The worked example of the spec: three variables scored 0.9, 0.5 and 0.7,
    "argmax" and two rounds give the important sequence [A, C]. *)
Example fixed_ranking_example :
  exists r,
    run_fixed [9 # 10; 5 # 10; 7 # 10] Argmax ["A"; "B"; "C"]%string (Some 2%nat) = Ok r /\
    important_sequence r = ["A"; "C"]%string.
Proof. eexists; split; [vm_compute; reflexivity | reflexivity]. Qed.

(* ================================================================== *)
(** * Further properties of the metrics *)

(** ** Errors of the table construction *)

(** Two-dimensional truths against predictions that are one-dimensional, or
    two-dimensional of another width, raise the unmatching-forecasts error
    in every metric, whatever the classes argument. *)
Theorem unmatching_probabilistic_forecasts_raise
        (tcols : nat) (trows : list (list Q)) (predictions : ndarray)
        (classes : option (list Z)) :
  length trows = len predictions ->
  match predictions with
  | Arr1 _ => True
  | Arr2 pcols _ => pcols <> tcols
  end ->
  _get_contingency_table (Arr2 tcols trows) predictions classes
  = Raise UnmatchingProbabilisticForecastsException /\
  gerrity_score (Arr2 tcols trows) predictions classes
  = Raise UnmatchingProbabilisticForecastsException /\
  peirce_skill_score (Arr2 tcols trows) predictions classes
  = Raise UnmatchingProbabilisticForecastsException /\
  heidke_skill_score (Arr2 tcols trows) predictions classes
  = Raise UnmatchingProbabilisticForecastsException.
Proof.
  intros Hlen Hshape.
  assert (H : _get_contingency_table (Arr2 tcols trows) predictions classes
              = Raise UnmatchingProbabilisticForecastsException).
  { unfold _get_contingency_table; simpl len at 1.
    rewrite Hlen, Nat.eqb_refl; simpl.
    destruct predictions as [pl | pcols prows]; [reflexivity |].
    destruct (Nat.eqb_spec pcols tcols); [contradiction | reflexivity]. }
  unfold gerrity_score, peirce_skill_score, heidke_skill_score.
  rewrite H; simpl; auto.
Qed.

Lemma unmatching_probabilistic_forecasts_raise_witness :
  peirce_skill_score (Arr2 2 [[1; 0]; [0; 1]]) (Arr1 [0; 1]%Z) (Some [0; 1]%Z)
  = Raise UnmatchingProbabilisticForecastsException /\
  peirce_skill_score (Arr2 2 [[1; 0]; [0; 1]]) (Arr2 3 [[1; 0; 0]; [0; 1; 0]]) None
  = Raise UnmatchingProbabilisticForecastsException.
Proof.
  split.
  - apply (unmatching_probabilistic_forecasts_raise
             2 [[1; 0]; [0; 1]] (Arr1 [0; 1]%Z) (Some [0; 1]%Z)); simpl; auto.
  - apply (unmatching_probabilistic_forecasts_raise
             2 [[1; 0]; [0; 1]] (Arr2 3 [[1; 0; 0]; [0; 1; 0]]) None); simpl; auto.
Defined.

(** With one-dimensional truths and a prediction row whose arg-max lies
    beyond the supplied classes, [np.take] raises [IndexError] in every
    metric. *)
Theorem argmax_beyond_classes_raises
        (tlabels : list Z) (pcols : nat) (prows : list (list Q)) (cl : list Z)
        (row : list Q) :
  length tlabels = length prows ->
  (0 < pcols)%nat ->
  In row prows ->
  (length cl <= argmax_row row)%nat ->
  _get_contingency_table (Arr1 tlabels) (Arr2 pcols prows) (Some cl)
  = Raise IndexError /\
  gerrity_score (Arr1 tlabels) (Arr2 pcols prows) (Some cl) = Raise IndexError /\
  peirce_skill_score (Arr1 tlabels) (Arr2 pcols prows) (Some cl) = Raise IndexError /\
  heidke_skill_score (Arr1 tlabels) (Arr2 pcols prows) (Some cl) = Raise IndexError.
Proof.
  intros Hlen Hk Hrow Hbig.
  assert (H : _get_contingency_table (Arr1 tlabels) (Arr2 pcols prows) (Some cl)
              = Raise IndexError).
  { unfold _get_contingency_table; simpl; rewrite Hlen, Nat.eqb_refl; simpl.
    unfold np_argmax_axis1.
    destruct (Nat.eqb_spec pcols 0); [lia |]; simpl.
    destruct (np_take cl (map argmax_row prows)) as [preds | e] eqn:Et; simpl.
    - exfalso.
      apply In_nth_error in Hrow; destruct Hrow as [p Hp].
      destruct (np_take_spec _ _ _ Et) as [_ [Hnth _]].
      destruct (Hnth p (argmax_row row)) as [c [_ Hc]];
        [now rewrite nth_error_map, Hp |].
      apply nth_error_None in Hbig; congruence.
    - apply mapM_Raise in Et; destruct Et as [i [_ Hi]].
      destruct (nth_error cl i); [discriminate | congruence]. }
  unfold gerrity_score, peirce_skill_score, heidke_skill_score.
  rewrite H; simpl; auto.
Qed.

Lemma argmax_beyond_classes_raises_witness :
  heidke_skill_score (Arr1 [3; 5]%Z) (Arr2 3 [[1; 0; 0]; [0; 0; 1]]) (Some [3; 5]%Z)
  = Raise IndexError.
Proof.
  apply (argmax_beyond_classes_raises
           [3; 5]%Z 3 [[1; 0; 0]; [0; 0; 1]] [3; 5]%Z [0; 0; 1]);
    simpl; auto; lia.
Defined.

(** On label arrays of one length the table is always built, for every
    classes argument, and the only error a metric can then raise is
    [ZeroDivisionError]. *)
Theorem label_metrics_raise_only_zero_division
        (truths predictions : list Z) (classes : option (list Z)) :
  length truths = length predictions ->
  (exists t, _get_contingency_table (Arr1 truths) (Arr1 predictions) classes = Ok t) /\
  forall e,
    gerrity_score (Arr1 truths) (Arr1 predictions) classes = Raise e \/
    peirce_skill_score (Arr1 truths) (Arr1 predictions) classes = Raise e \/
    heidke_skill_score (Arr1 truths) (Arr1 predictions) classes = Raise e ->
    e = ZeroDivisionError.
Proof.
  intros Hlen.
  assert (Hget : exists t,
             _get_contingency_table (Arr1 truths) (Arr1 predictions) classes = Ok t).
  { unfold _get_contingency_table; simpl; rewrite Hlen, Nat.eqb_refl; simpl; eauto. }
  split; [exact Hget |].
  destruct Hget as [t Ht]; intros e.
  unfold gerrity_score, peirce_skill_score, heidke_skill_score; rewrite Ht; simpl.
  apply scores_raise_only_zero_division.
Qed.

Lemma label_metrics_raise_only_zero_division_witness :
  exists t, _get_contingency_table (Arr1 [4; 4; 7]%Z) (Arr1 [7; 4; 1]%Z) (Some [9]%Z)
            = Ok t.
Proof.
  apply (label_metrics_raise_only_zero_division [4; 4; 7]%Z [7; 4; 1]%Z (Some [9]%Z)).
  reflexivity.
Defined.

(** ** Degenerate tables *)

Lemma py_div_zero (x y : Q) : y == 0 -> py_div x y = Raise ZeroDivisionError.
Proof.
  intros H; unfold py_div.
  destruct (Qeq_bool y 0) eqn:E; [reflexivity |].
  apply Qeq_bool_neq in E; contradiction.
Qed.

(** A table whose grand total is zero makes Peirce and Heidke raise
    [ZeroDivisionError]: no samples, or supplied classes that match none.
    On empty label arrays Gerrity returns 0 instead. *)
Theorem zero_total_scores
        (truths predictions : ndarray) (classes : option (list Z)) (t : table) :
  _get_contingency_table truths predictions classes = Ok t ->
  table_sum t = 0%Z ->
  peirce_skill_score truths predictions classes = Raise ZeroDivisionError /\
  heidke_skill_score truths predictions classes = Raise ZeroDivisionError /\
  (t = [] -> gerrity_score truths predictions classes = Ok (Some 0)).
Proof.
  intros Hget Hzero.
  unfold peirce_skill_score, heidke_skill_score, gerrity_score; rewrite Hget; simpl.
  unfold _peirce_skill_score, _heidke_skill_score; rewrite Hzero.
  rewrite py_div_zero by reflexivity; simpl.
  split; [reflexivity |]; split; [reflexivity |].
  intros ->; reflexivity.
Qed.

Lemma zero_total_scores_witness :
  (peirce_skill_score (Arr1 []) (Arr1 []) None = Raise ZeroDivisionError /\
   heidke_skill_score (Arr1 []) (Arr1 []) None = Raise ZeroDivisionError /\
   gerrity_score (Arr1 []) (Arr1 []) None = Ok (Some 0)) /\
  peirce_skill_score (Arr1 [1; 2]%Z) (Arr1 [2; 1]%Z) (Some [5; 6]%Z)
  = Raise ZeroDivisionError.
Proof.
  split.
  - destruct (zero_total_scores (Arr1 []) (Arr1 []) None [] eq_refl eq_refl)
      as [Hp [Hh Hg]].
    split; [exact Hp |]; split; [exact Hh | exact (Hg eq_refl)].
  - apply (zero_total_scores (Arr1 [1; 2]%Z) (Arr1 [2; 1]%Z) (Some [5; 6]%Z)
                             [[0; 0]; [0; 0]]%Z eq_refl eq_refl).
Defined.

(** With a single class Gerrity divides by [k - 1.0 = 0] in its first cell
    and raises [ZeroDivisionError], whatever the count in the table. *)
Theorem gerrity_single_class_raises
        (truths predictions : ndarray) (classes : option (list Z)) (t : table) :
  _get_contingency_table truths predictions classes = Ok t ->
  length t = 1%nat ->
  gerrity_score truths predictions classes = Raise ZeroDivisionError.
Proof.
  intros Hget Hone.
  destruct (get_table_square _ _ _ _ Hget) as [[_ Hrows] _].
  unfold gerrity_score; rewrite Hget; simpl.
  destruct t as [| r [| r' t']]; simpl in Hone; try discriminate.
  inversion Hrows as [| ? ? Hr _]; subst; simpl in Hr.
  destruct r as [| c [| c' r]]; simpl in Hr; try discriminate.
  unfold _gerrity_score; simpl; reflexivity.
Qed.

Lemma gerrity_single_class_raises_witness :
  gerrity_score (Arr1 [4; 4; 4]%Z) (Arr1 [4; 4; 4]%Z) None = Raise ZeroDivisionError.
Proof.
  apply (gerrity_single_class_raises (Arr1 [4; 4; 4]%Z) (Arr1 [4; 4; 4]%Z) None [[3]]%Z);
    reflexivity.
Defined.

(** ** Supplied class listings *)

(** For label arrays of one length and any supplied class listing, the table
    has one row and one column per listed class, in the listed order, and
    cell [i, j] holds the float32 nearest to the number of samples predicted
    [classes[i]] whose truth is [classes[j]], which is that number itself
    when there are at most 2^24 samples; samples with an unlisted label are
    in no cell. *)
Theorem table_for_supplied_classes (truths predictions cl : list Z) :
  length truths = length predictions ->
  exists t,
    _get_contingency_table (Arr1 truths) (Arr1 predictions) (Some cl) = Ok t /\
    square (length cl) t /\
    forall i j ci cj,
      nth_error cl i = Some ci ->
      nth_error cl j = Some cj ->
      cell t i j =
      float32_of_Z
        (count_positions
           (fun p => (nth p predictions 0 =? ci)%Z && (nth p truths 0 =? cj)%Z)
           (length truths)) /\
      ((Z.of_nat (length truths) <= 2 ^ 24)%Z ->
       cell t i j =
       count_positions
         (fun p => (nth p predictions 0 =? ci)%Z && (nth p truths 0 =? cj)%Z)
         (length truths)).
Proof.
  intros Hlen; exists (label_table cl predictions truths); split.
  - unfold _get_contingency_table; simpl; rewrite Hlen, Nat.eqb_refl; reflexivity.
  - split; [apply label_table_square |].
    intros i j ci cj Hi Hj; split.
    + now apply label_table_cell.
    + intros Hb; now apply label_table_cell_exact.
Qed.

Lemma table_for_supplied_classes_witness :
  exists t,
    _get_contingency_table (Arr1 [1; 2; 3]%Z) (Arr1 [1; 3; 3]%Z) (Some [3; 1]%Z) = Ok t /\
    square 2 t /\
    cell t 0 0 = 1%Z /\ cell t 0 1 = 0%Z /\ cell t 1 0 = 0%Z /\ cell t 1 1 = 1%Z.
Proof.
  destruct (table_for_supplied_classes [1; 2; 3]%Z [1; 3; 3]%Z [3; 1]%Z eq_refl)
    as [t [Ht [Hsq Hc]]].
  exists t; split; [exact Ht |]; split; [exact Hsq |].
  split; [exact (proj1 (Hc 0%nat 0%nat 3%Z 3%Z eq_refl eq_refl)) |].
  split; [exact (proj1 (Hc 0%nat 1%nat 3%Z 1%Z eq_refl eq_refl)) |].
  split; [exact (proj1 (Hc 1%nat 0%nat 1%Z 3%Z eq_refl eq_refl)) |].
  exact (proj1 (Hc 1%nat 1%nat 1%Z 1%Z eq_refl eq_refl)).
Defined.

Lemma indicator_sum_absent (x : Z) (cl : list Z) :
  ~ In x cl -> zsum (map (fun c => Z.b2z (x =? c)%Z) cl) = 0%Z.
Proof.
  intros Hout.
  rewrite (zsum_map_ext _ (fun _ => 0%Z)), zsum_map_zero; [reflexivity |].
  intros c Hc; destruct (Z.eqb_spec x c); [subst; contradiction | reflexivity].
Qed.

Lemma indicator_sum_listed (x : Z) (cl : list Z) :
  NoDup cl ->
  zsum (map (fun c => Z.b2z (x =? c)%Z) cl) = Z.b2z (existsb (Z.eqb x) cl).
Proof.
  intros Hnd.
  destruct (existsb (Z.eqb x) cl) eqn:E.
  - apply existsb_exists in E; destruct E as [c [Hc Ec]].
    apply Z.eqb_eq in Ec; subst c; now apply indicator_sum.
  - apply indicator_sum_absent; intros Hin.
    assert (existsb (Z.eqb x) cl = true)
      by (apply existsb_exists; exists x; split; [assumption | apply Z.eqb_refl]).
    congruence.
Qed.

Lemma listed_pairs_sum (cl : list Z) (pairs : list (Z * Z)) :
  NoDup cl ->
  zsum (map (fun c1 =>
               zsum (map (fun c2 =>
                            count_true
                              (map (fun pt => (fst pt =? c1)%Z && (snd pt =? c2)%Z) pairs))
                         cl))
            cl)
  = count_true
      (map (fun pt => existsb (Z.eqb (fst pt)) cl && existsb (Z.eqb (snd pt)) cl) pairs).
Proof.
  intros Hnd; induction pairs as [| [p t] pairs IH].
  - simpl; unfold count_true; simpl.
    rewrite (zsum_map_ext _ (fun _ => 0%Z)), zsum_map_zero; [reflexivity |].
    intros; apply zsum_map_zero.
  - rewrite (zsum_map_ext _
               (fun c1 =>
                  Z.b2z (p =? c1)%Z * zsum (map (fun c2 => Z.b2z (t =? c2)%Z) cl)
                  + zsum (map (fun c2 =>
                                 count_true
                                   (map (fun pt => (fst pt =? c1)%Z && (snd pt =? c2)%Z)
                                        pairs)) cl))%Z).
    + rewrite zsum_map_add, IH, zsum_map_scale_r.
      rewrite !indicator_sum_listed by assumption.
      simpl map; rewrite count_true_cons; simpl fst; simpl snd.
      destruct (existsb (Z.eqb p) cl), (existsb (Z.eqb t) cl); simpl; lia.
    + intros c1 _.
      rewrite <- zsum_map_scale, <- zsum_map_add.
      apply zsum_map_ext; intros c2 _.
      simpl map; rewrite count_true_cons; simpl fst; simpl snd.
      destruct (p =? c1)%Z, (t =? c2)%Z; simpl; lia.
Qed.

(** With a duplicate-free class listing and at most 2^24 samples (so that
    every float32 cell holds its count) the grand total of the table is the
    number of samples whose prediction and truth are both listed, so it
    never exceeds the number of samples. *)
Theorem total_counts_listed_samples (truths predictions cl : list Z) :
  length truths = length predictions ->
  NoDup cl ->
  (Z.of_nat (length truths) <= 2 ^ 24)%Z ->
  exists t,
    _get_contingency_table (Arr1 truths) (Arr1 predictions) (Some cl) = Ok t /\
    table_sum t =
    count_positions
      (fun p => existsb (Z.eqb (nth p predictions 0%Z)) cl
                && existsb (Z.eqb (nth p truths 0%Z)) cl)
      (length truths) /\
    (table_sum t <= Z.of_nat (length truths))%Z.
Proof.
  intros Hlen Hnd Hb; exists (label_table cl predictions truths).
  assert (Hsum : table_sum (label_table cl predictions truths) =
                 count_positions
                   (fun p => existsb (Z.eqb (nth p predictions 0%Z)) cl
                             && existsb (Z.eqb (nth p truths 0%Z)) cl)
                   (length truths)).
  { rewrite (label_table_exact _ _ _ Hb).
    unfold table_sum; rewrite map_map.
    rewrite listed_pairs_sum by assumption.
    rewrite (count_true_positions _ (0%Z, 0%Z)).
    rewrite length_combine, <- Hlen, Nat.min_id.
    apply count_positions_ext; intros p _.
    rewrite combine_nth by (symmetry; exact Hlen); reflexivity. }
  split; [| split; [exact Hsum | rewrite Hsum; apply count_positions_le]].
  unfold _get_contingency_table; simpl; rewrite Hlen, Nat.eqb_refl; reflexivity.
Qed.

Lemma total_counts_listed_samples_witness :
  exists t,
    _get_contingency_table (Arr1 [1; 2; 3]%Z) (Arr1 [1; 3; 3]%Z) (Some [3; 1]%Z) = Ok t /\
    table_sum t = 2%Z.
Proof.
  destruct (total_counts_listed_samples [1; 2; 3]%Z [1; 3; 3]%Z [3; 1]%Z eq_refl)
    as [t [Ht [Hsum _]]].
  - repeat constructor; simpl; intuition discriminate.
  - simpl; lia.
  - exists t; split; [exact Ht | exact Hsum].
Defined.

(** ** Exchanging and reordering the samples *)

Lemma sorted_unique_ext (l1 l2 : list Z) :
  StronglySorted Z.lt l1 -> StronglySorted Z.lt l2 ->
  (forall x, In x l1 <-> In x l2) -> l1 = l2.
Proof.
  intros H1; revert l2; induction H1 as [| x l1 Hs1 IH Hall1]; intros l2 H2 Heq.
  - destruct l2 as [| y l2]; [reflexivity |].
    exfalso; apply (proj2 (Heq y)); left; reflexivity.
  - destruct H2 as [| y l2 Hs2 Hall2].
    + exfalso; apply (proj1 (Heq x)); left; reflexivity.
    + rewrite Forall_forall in Hall1, Hall2.
      assert (x = y).
      { destruct (proj1 (Heq x) (or_introl eq_refl)) as [E | Hx]; [auto |].
        destruct (proj2 (Heq y) (or_introl eq_refl)) as [E | Hy]; [auto |].
        specialize (Hall1 _ Hy); specialize (Hall2 _ Hx); lia. }
      subst y; f_equal; apply IH; [assumption |].
      intros z; split; intros Hz.
      * destruct (proj1 (Heq z) (or_intror Hz)) as [E | Hz']; [| assumption].
        specialize (Hall1 _ Hz); lia.
      * destruct (proj2 (Heq z) (or_intror Hz)) as [E | Hz']; [| assumption].
        specialize (Hall2 _ Hz); lia.
Qed.

Lemma np_unique_ext (a b : list Z) :
  (forall x, In x a <-> In x b) -> np_unique a = np_unique b.
Proof.
  intros H; apply sorted_unique_ext; try apply np_unique_sorted.
  intros x; rewrite !np_unique_In; apply H.
Qed.

Lemma nth_map_error {A B : Type} (f : A -> B) (l : list A) (d : B) (i : nat) :
  nth i (map f l) d = match nth_error l i with Some x => f x | None => d end.
Proof.
  revert i; induction l as [| x l IH]; intros [| i]; simpl; auto.
Qed.

Lemma label_table_cell_total (cl preds truths : list Z) (i j : nat) :
  cell (label_table cl preds truths) i j =
  match nth_error cl i, nth_error cl j with
  | Some ci, Some cj =>
      float32_of_Z
        (count_true (map (fun pt => (fst pt =? ci)%Z && (snd pt =? cj)%Z)
                         (combine preds truths)))
  | _, _ => 0%Z
  end.
Proof.
  unfold cell, label_table; rewrite nth_map_error.
  destruct (nth_error cl i) as [ci |]; [| now destruct j].
  rewrite nth_map_error; reflexivity.
Qed.

Lemma combine_swap_map {A B C : Type} (g : A -> B -> C) (xs : list A) (ys : list B) :
  map (fun yx => g (snd yx) (fst yx)) (combine ys xs)
  = map (fun xy => g (fst xy) (snd xy)) (combine xs ys).
Proof.
  revert ys; induction xs as [| x xs IH]; intros [| y ys]; simpl; auto.
  now rewrite IH.
Qed.

Lemma big_sum_zero (k : nat) : big_sum k (fun _ => 0%Z) = 0%Z.
Proof. apply zsum_map_zero. Qed.

Lemma big_sum_add (k : nat) (f g : nat -> Z) :
  big_sum k (fun i => f i + g i)%Z = (big_sum k f + big_sum k g)%Z.
Proof. apply zsum_map_add. Qed.

Lemma big_sum_swap (a b : nat) (f : nat -> nat -> Z) :
  big_sum a (fun i => big_sum b (fun j => f i j))
  = big_sum b (fun j => big_sum a (fun i => f i j)).
Proof.
  revert f; induction a as [| a IH]; intros f.
  - unfold big_sum at 1; simpl; symmetry; apply big_sum_zero.
  - rewrite big_sum_S, IH, <- big_sum_add.
    apply big_sum_ext; intros j _; now rewrite big_sum_S.
Qed.

(** Heidke on a square table, by indexed sums, whatever the grand total. *)
Lemma heidke_indexed (k : nat) (t : table) :
  square k t ->
  _heidke_skill_score t =
  (acc <- py_div (inject_Z (correct k t)) (inject_Z (grand_total k t)) ;;
   Ok (np_div
         (Some (acc - inject_Z (big_sum k (fun i => row_marginal k t i
                                                    * col_marginal k t i)%Z)
                      / inject_Z (grand_total k t) ^ 2))
         (Some (1 - inject_Z (big_sum k (fun i => row_marginal k t i
                                                  * col_marginal k t i)%Z)
                    / inject_Z (grand_total k t) ^ 2)))).
Proof.
  intros Hsq; unfold _heidke_skill_score.
  rewrite (table_sum_grand_total k t Hsq), (trace_correct k t Hsq).
  rewrite (sum_axis1_marginals k t Hsq), (sum_axis0_marginals k t Hsq).
  rewrite !zip_with_map_map; reflexivity.
Qed.

Lemma heidke_transpose (k : nat) (t t' : table) :
  square k t -> square k t' ->
  (forall i j, (i < k)%nat -> (j < k)%nat -> cell t' i j = cell t j i) ->
  _heidke_skill_score t' = _heidke_skill_score t.
Proof.
  intros Hsq Hsq' Hcells.
  rewrite (heidke_indexed k t Hsq), (heidke_indexed k t' Hsq').
  assert (Hrow : forall i, (i < k)%nat -> row_marginal k t' i = col_marginal k t i).
  { intros i Hi; unfold row_marginal, col_marginal.
    apply big_sum_ext; intros j Hj; now apply Hcells. }
  assert (Hcol : forall i, (i < k)%nat -> col_marginal k t' i = row_marginal k t i).
  { intros i Hi; unfold row_marginal, col_marginal.
    apply big_sum_ext; intros j Hj; now apply Hcells. }
  assert (Hcorrect : correct k t' = correct k t).
  { unfold correct; apply big_sum_ext; intros i Hi; now apply Hcells. }
  assert (Htotal : grand_total k t' = grand_total k t).
  { unfold grand_total; rewrite big_sum_swap.
    apply big_sum_ext; intros i Hi; apply big_sum_ext; intros j Hj; now apply Hcells. }
  assert (Hrc : big_sum k (fun i => row_marginal k t' i * col_marginal k t' i)%Z
                = big_sum k (fun i => row_marginal k t i * col_marginal k t i)%Z).
  { apply big_sum_ext; intros i Hi; rewrite Hrow, Hcol by assumption; lia. }
  now rewrite Hcorrect, Htotal, Hrc.
Qed.

(** Exchanging truths and predictions (label arrays, any classes argument)
    transposes the contingency table; with at most 2^24 samples, where the
    sums the score takes of the float32 cells are exact, it leaves the
    Heidke score unchanged. *)
Theorem exchanging_arguments_transposes
        (truths predictions : list Z) (classes : option (list Z)) :
  length truths = length predictions ->
  exists t t',
    _get_contingency_table (Arr1 truths) (Arr1 predictions) classes = Ok t /\
    _get_contingency_table (Arr1 predictions) (Arr1 truths) classes = Ok t' /\
    length t' = length t /\
    (forall i j, cell t' i j = cell t j i) /\
    ((Z.of_nat (length truths) <= 2 ^ 24)%Z ->
     heidke_skill_score (Arr1 predictions) (Arr1 truths) classes
     = heidke_skill_score (Arr1 truths) (Arr1 predictions) classes).
Proof.
  intros Hlen.
  set (cl := match classes with
             | None => np_unique (np_append (np_unique truths) (np_unique predictions))
             | Some c => c
             end).
  assert (Ht : _get_contingency_table (Arr1 truths) (Arr1 predictions) classes
               = Ok (label_table cl predictions truths)).
  { unfold _get_contingency_table; simpl; rewrite Hlen, Nat.eqb_refl; reflexivity. }
  assert (Ht' : _get_contingency_table (Arr1 predictions) (Arr1 truths) classes
                = Ok (label_table cl truths predictions)).
  { unfold _get_contingency_table; simpl; rewrite Hlen, Nat.eqb_refl; simpl.
    do 2 f_equal; subst cl; destruct classes as [c |]; [reflexivity |].
    apply np_unique_ext; intros x; unfold np_append; rewrite !in_app_iff; tauto. }
  assert (Hcells : forall i j, cell (label_table cl truths predictions) i j
                               = cell (label_table cl predictions truths) j i).
  { intros i j; rewrite !label_table_cell_total.
    destruct (nth_error cl i) as [ci |], (nth_error cl j) as [cj |]; try reflexivity.
    do 2 f_equal.
    rewrite <- (combine_swap_map (fun p t => (p =? cj)%Z && (t =? ci)%Z)
                                 predictions truths).
    apply map_ext; intros [a b]; simpl; apply andb_comm. }
  exists (label_table cl predictions truths), (label_table cl truths predictions).
  split; [exact Ht |]; split; [exact Ht' |]; split.
  { unfold label_table; now rewrite !length_map. }
  split; [exact Hcells |].
  intros _.
  unfold heidke_skill_score; rewrite Ht, Ht'; simpl.
  apply (heidke_transpose (length cl)); try apply label_table_square.
  intros i j _ _; apply Hcells.
Qed.

Lemma exchanging_arguments_transposes_witness :
  exists t t',
    _get_contingency_table (Arr1 [0; 0; 1; 1]%Z) (Arr1 [0; 1; 1; 2]%Z) None = Ok t /\
    _get_contingency_table (Arr1 [0; 1; 1; 2]%Z) (Arr1 [0; 0; 1; 1]%Z) None = Ok t' /\
    cell t 1 0 = 1%Z /\ cell t' 0 1 = 1%Z /\
    heidke_skill_score (Arr1 [0; 1; 1; 2]%Z) (Arr1 [0; 0; 1; 1]%Z) None
    = heidke_skill_score (Arr1 [0; 0; 1; 1]%Z) (Arr1 [0; 1; 1; 2]%Z) None.
Proof.
  destruct (exchanging_arguments_transposes [0; 0; 1; 1]%Z [0; 1; 1; 2]%Z None eq_refl)
    as [t [t' [Ht [Ht' [_ [Hc H]]]]]].
  exists t, t'; split; [exact Ht |]; split; [exact Ht' |].
  assert (E : cell t 1 0 = 1%Z) by (injection Ht as <-; reflexivity).
  split; [exact E |]; split; [rewrite Hc; exact E |].
  apply H; simpl; lia.
Defined.

Lemma map_snd_combine {A B : Type} (xs : list A) (ys : list B) :
  length xs = length ys -> map snd (combine xs ys) = ys.
Proof.
  revert ys; induction xs as [| x xs IH]; intros [| y ys] H; simpl in *;
    try discriminate; auto.
  f_equal; apply IH; lia.
Qed.

Lemma map_fst_combine {A B : Type} (xs : list A) (ys : list B) :
  length xs = length ys -> map fst (combine xs ys) = xs.
Proof.
  revert ys; induction xs as [| x xs IH]; intros [| y ys] H; simpl in *;
    try discriminate; auto.
  f_equal; apply IH; lia.
Qed.

Lemma count_true_perm (bs bs' : list bool) :
  Permutation bs bs' -> count_true bs = count_true bs'.
Proof.
  intros H; unfold count_true; f_equal.
  now apply (proj1 (Permutation_count_occ bool_dec bs bs')).
Qed.

(** The table, and with it every score, depends on the samples only as a
    multiset of (prediction, truth) pairs: reordering the samples changes
    nothing. *)
Theorem table_ignores_sample_order
        (truths predictions truths' predictions' : list Z)
        (classes : option (list Z)) :
  length truths = length predictions ->
  length truths' = length predictions' ->
  Permutation (combine predictions truths) (combine predictions' truths') ->
  _get_contingency_table (Arr1 truths') (Arr1 predictions') classes
  = _get_contingency_table (Arr1 truths) (Arr1 predictions) classes /\
  gerrity_score (Arr1 truths') (Arr1 predictions') classes
  = gerrity_score (Arr1 truths) (Arr1 predictions) classes /\
  peirce_skill_score (Arr1 truths') (Arr1 predictions') classes
  = peirce_skill_score (Arr1 truths) (Arr1 predictions) classes /\
  heidke_skill_score (Arr1 truths') (Arr1 predictions') classes
  = heidke_skill_score (Arr1 truths) (Arr1 predictions) classes.
Proof.
  intros Hlen Hlen' Hperm.
  assert (Htr : forall x, In x truths' <-> In x truths).
  { intros x.
    rewrite <- (map_snd_combine predictions truths) by auto.
    rewrite <- (map_snd_combine predictions' truths') by auto.
    split; apply Permutation_in, Permutation_map;
      [apply Permutation_sym |]; exact Hperm. }
  assert (Hpr : forall x, In x predictions' <-> In x predictions).
  { intros x.
    rewrite <- (map_fst_combine predictions truths) by auto.
    rewrite <- (map_fst_combine predictions' truths') by auto.
    split; apply Permutation_in, Permutation_map;
      [apply Permutation_sym |]; exact Hperm. }
  assert (H : _get_contingency_table (Arr1 truths') (Arr1 predictions') classes
              = _get_contingency_table (Arr1 truths) (Arr1 predictions) classes).
  { unfold _get_contingency_table; simpl.
    rewrite Hlen, Hlen', !Nat.eqb_refl; simpl; f_equal.
    assert (Hcl : match classes with
                  | None => np_unique (np_append (np_unique truths')
                                                 (np_unique predictions'))
                  | Some c => c
                  end
                  = match classes with
                    | None => np_unique (np_append (np_unique truths)
                                                   (np_unique predictions))
                    | Some c => c
                    end).
    { destruct classes as [c |]; [reflexivity |].
      apply np_unique_ext; intros x; unfold np_append.
      rewrite !in_app_iff, !np_unique_In, Htr, Hpr; tauto. }
    rewrite Hcl; unfold label_table.
    apply map_ext; intros c1; apply map_ext; intros c2; f_equal.
    apply count_true_perm, Permutation_map, Permutation_sym, Hperm. }
  unfold gerrity_score, peirce_skill_score, heidke_skill_score.
  rewrite H; auto.
Qed.

Lemma table_ignores_sample_order_witness :
  peirce_skill_score (Arr1 [1; 0; 1]%Z) (Arr1 [0; 0; 1]%Z) None
  = peirce_skill_score (Arr1 [0; 1; 1]%Z) (Arr1 [0; 0; 1]%Z) None.
Proof.
  apply (table_ignores_sample_order
           [0; 1; 1]%Z [0; 0; 1]%Z [1; 0; 1]%Z [0; 0; 1]%Z None eq_refl eq_refl).
  simpl; apply perm_swap.
Defined.

(** ** The two branches agree *)

Lemma table_ext (k : nat) (t t' : table) :
  square k t -> square k t' ->
  (forall i j, (i < k)%nat -> (j < k)%nat -> cell t i j = cell t' i j) ->
  t = t'.
Proof.
  intros [Hl Hr] [Hl' Hr'] Hcells.
  apply (nth_ext _ _ [] []); [congruence |].
  intros i Hi; rewrite Hl in Hi.
  rewrite Forall_forall in Hr, Hr'.
  assert (Hri : length (nth i t []) = k) by (apply Hr, nth_In; lia).
  assert (Hri' : length (nth i t' []) = k) by (apply Hr', nth_In; lia).
  apply (nth_ext _ _ 0%Z 0%Z); [congruence |].
  intros j Hj; rewrite Hri in Hj; now apply Hcells.
Qed.

Lemma argmax_label_nth (rows : list (list Q)) (p : nat) :
  nth p (map (fun r => Z.of_nat (argmax_row r)) rows) 0%Z
  = Z.of_nat (argmax_row (nth p rows [])).
Proof.
  rewrite nth_map_error.
  destruct (nth_error rows p) as [r |] eqn:E.
  - now rewrite (nth_error_nth _ _ _ E).
  - apply nth_error_None in E; now rewrite nth_overflow.
Qed.

(** Probabilistic truths and predictions give the table of their arg-max
    labels under the classes [0, ..., k-1]: for at most 2^24 samples (beyond
    which a float32 cell incremented by one stays at 2^24 while a stored
    count is rounded) the fully probabilistic branch and the deterministic
    branch build the same table. *)
Theorem probabilistic_table_is_argmax_table
        (k : nat) (trows prows : list (list Q)) (classes : option (list Z)) :
  length trows = length prows ->
  (0 < k)%nat ->
  wf_array (Arr2 k trows) = true ->
  wf_array (Arr2 k prows) = true ->
  (Z.of_nat (length trows) <= 2 ^ 24)%Z ->
  _get_contingency_table (Arr2 k trows) (Arr2 k prows) classes
  = _get_contingency_table
      (Arr1 (map (fun r => Z.of_nat (argmax_row r)) trows))
      (Arr1 (map (fun r => Z.of_nat (argmax_row r)) prows))
      (Some (map Z.of_nat (seq 0 k))).
Proof.
  intros Hlen Hk Hwt Hwp Hb; simpl in Hwt, Hwp.
  set (tl := map (fun r => Z.of_nat (argmax_row r)) trows).
  set (pl := map (fun r => Z.of_nat (argmax_row r)) prows).
  set (cl := map Z.of_nat (seq 0 k)).
  assert (Hdet : _get_contingency_table (Arr1 tl) (Arr1 pl) (Some cl)
                 = Ok (label_table cl pl tl)).
  { unfold _get_contingency_table; simpl.
    subst tl pl; rewrite !length_map, Hlen, Nat.eqb_refl; reflexivity. }
  rewrite Hdet.
  assert (Hpairs : Forall (fun tp => (fst tp < k)%nat /\ (snd tp < k)%nat)
                          (combine (map argmax_row trows) (map argmax_row prows))).
  { apply Forall_forall; intros [tr pr] Hin.
    pose proof (in_combine_l _ _ _ _ Hin) as Hl.
    pose proof (in_combine_r _ _ _ _ Hin) as Hr.
    apply in_map_iff in Hl; destruct Hl as [rt [<- Hrt]].
    apply in_map_iff in Hr; destruct Hr as [rp [<- Hrp]].
    rewrite forallb_forall in Hwt, Hwp.
    apply Hwt in Hrt; apply Hwp in Hrp.
    apply Nat.eqb_eq in Hrt, Hrp; simpl.
    split; [rewrite <- Hrt | rewrite <- Hrp]; apply argmax_row_lt; lia. }
  destruct (tally_total k _ (np_zeros k k) (np_zeros_square k) Hpairs) as [t Ht].
  assert (Hprob : _get_contingency_table (Arr2 k trows) (Arr2 k prows) classes = Ok t).
  { unfold _get_contingency_table; simpl.
    rewrite Hlen, !Nat.eqb_refl; simpl; unfold np_argmax_axis1.
    destruct (Nat.eqb_spec k 0); [lia |]; simpl; exact Ht. }
  rewrite Hprob; f_equal.
  apply (table_ext k).
  - eapply tally_spec; [apply np_zeros_square | exact Ht].
  - replace k with (length cl) at 1
      by (subst cl; now rewrite length_map, length_seq).
    apply label_table_square.
  - intros i j Hi Hj.
    rewrite (get_table_probabilistic_cells k trows prows t (eq_sym Hlen) Ht).
    assert (Hci : nth_error cl i = Some (Z.of_nat i)).
    { subst cl; rewrite nth_error_map, nth_error_seq.
      destruct (Nat.ltb_spec i k); [reflexivity | lia]. }
    assert (Hcj : nth_error cl j = Some (Z.of_nat j)).
    { subst cl; rewrite nth_error_map, nth_error_seq.
      destruct (Nat.ltb_spec j k); [reflexivity | lia]. }
    rewrite (label_table_cell_exact cl pl tl i j _ _) by
      (first [ subst tl pl; now rewrite !length_map | eassumption ]).
    subst tl pl; rewrite length_map.
    rewrite Z.min_l
      by (etransitivity; [apply count_positions_le | exact Hb]).
    apply count_positions_ext; intros p _.
    rewrite !argmax_label_nth.
    f_equal.
    + destruct (Nat.eqb_spec (argmax_row (nth p prows [])) i),
               (Z.eqb_spec (Z.of_nat (argmax_row (nth p prows []))) (Z.of_nat i));
        try reflexivity; lia.
    + destruct (Nat.eqb_spec (argmax_row (nth p trows [])) j),
               (Z.eqb_spec (Z.of_nat (argmax_row (nth p trows []))) (Z.of_nat j));
        try reflexivity; lia.
Qed.

Lemma probabilistic_table_is_argmax_table_witness :
  _get_contingency_table (Arr2 2 [[1 # 2; 1 # 3]; [0; 1]])
                         (Arr2 2 [[1 # 2; 1 # 3]; [1; 0]]) None
  = _get_contingency_table (Arr1 [0; 1]%Z) (Arr1 [0; 0]%Z) (Some [0; 1]%Z).
Proof.
  apply (probabilistic_table_is_argmax_table
           2 [[1 # 2; 1 # 3]; [0; 1]] [[1 # 2; 1 # 3]; [1; 0]] None);
    try reflexivity; simpl; lia.
Defined.

(** ** Perfect predictions *)

Lemma count_positions_none (P : nat -> bool) (n : nat) :
  (forall p, (p < n)%nat -> P p = false) -> count_positions P n = 0%Z.
Proof.
  intros H; rewrite (count_positions_ext P (fun _ => false) n H).
  unfold count_positions; induction (seq 0 n); simpl; auto.
Qed.

Lemma count_positions_some (P : nat -> bool) (n p : nat) :
  (p < n)%nat -> P p = true -> (0 < count_positions P n)%Z.
Proof.
  intros Hp HP; unfold count_positions.
  assert (Hin : In p (filter P (seq 0 n)))
    by (apply filter_In; split; [apply in_seq; lia | exact HP]).
  destruct (filter P (seq 0 n)); [contradiction | simpl; lia].
Qed.

Lemma big_sum_only (k i : nat) (f : nat -> Z) :
  (i < k)%nat ->
  (forall j, (j < k)%nat -> j <> i -> f j = 0%Z) ->
  big_sum k f = f i.
Proof.
  revert i f; induction k as [| k IH]; intros i f Hi Hz; [lia |].
  rewrite big_sum_S; destruct i as [| i].
  - rewrite (big_sum_ext k _ (fun _ => 0%Z)), big_sum_zero; [lia |].
    intros j Hj; apply Hz; lia.
  - rewrite (Hz 0%nat) by lia.
    rewrite (IH i (fun j => f (S j))); [lia | lia |].
    intros j Hj Hne; apply Hz; lia.
Qed.

Lemma big_sum_squares (k : nat) (f : nat -> Z) :
  (forall i, (i < k)%nat -> 0 < f i)%Z ->
  (1 <= k)%nat ->
  (0 < big_sum k f)%Z /\
  (big_sum k (fun i => f i * f i) <= big_sum k f * big_sum k f)%Z /\
  ((2 <= k)%nat -> (big_sum k (fun i => f i * f i) < big_sum k f * big_sum k f)%Z).
Proof.
  revert f; induction k as [| k IH]; intros f Hpos Hk; [lia |].
  rewrite !big_sum_S.
  assert (H0 : (0 < f 0%nat)%Z) by (apply Hpos; lia).
  destruct k as [| k].
  - unfold big_sum; simpl; split; [lia | split; [nia | lia]].
  - destruct (IH (fun i => f (S i))) as [Hs [Hle _]];
      [intros i Hi; apply Hpos; lia | lia |].
    set (s := big_sum (S k) (fun i => f (S i))) in *.
    set (q := big_sum (S k) (fun i => f (S i) * f (S i))%Z) in *.
    split; [lia | split; [nia | intros _; nia]].
Qed.

(** Peirce on a square table, by indexed sums, whatever the grand total. *)
Lemma peirce_indexed (k : nat) (t : table) :
  square k t ->
  _peirce_skill_score t =
  (acc <- py_div (inject_Z (correct k t)) (inject_Z (grand_total k t)) ;;
   Ok (np_div
         (Some (acc - inject_Z (big_sum k (fun i => row_marginal k t i
                                                    * col_marginal k t i)%Z)
                      / inject_Z (grand_total k t) ^ 2))
         (Some (1 - inject_Z (big_sum k (fun i => col_marginal k t i
                                                  * col_marginal k t i)%Z)
                    / inject_Z (grand_total k t) ^ 2)))).
Proof.
  intros Hsq; unfold _peirce_skill_score.
  rewrite (table_sum_grand_total k t Hsq), (trace_correct k t Hsq).
  rewrite (sum_axis1_marginals k t Hsq), (sum_axis0_marginals k t Hsq).
  rewrite !zip_with_map_map; reflexivity.
Qed.

(** The quotient both scores reduce to on a diagonal table. *)
Lemma diagonal_quotient (N S2 : Z) :
  (0 < N)%Z -> (S2 < N * N)%Z ->
  exists q,
    (acc <- py_div (inject_Z N) (inject_Z N) ;;
     Ok (np_div (Some (acc - inject_Z S2 / inject_Z N ^ 2))
                (Some (1 - inject_Z S2 / inject_Z N ^ 2))))
    = Ok (Some q) /\ q == 1.
Proof.
  intros HN Hlt.
  assert (HNq : ~ inject_Z N == 0) by (apply inject_Z_nonzero; lia).
  set (z := inject_Z S2 / inject_Z N ^ 2).
  assert (Hden : ~ 1 - z == 0).
  { intros H.
    assert (Ez : z == 1) by (setoid_replace z with (1 - (1 - z)) by ring; rewrite H; ring).
    assert (E : inject_Z S2 == inject_Z (N * N)).
    { rewrite inject_Z_mult.
      setoid_replace (inject_Z S2) with (z * (inject_Z N * inject_Z N))
        by (unfold z; field; exact HNq).
      rewrite Ez; ring. }
    apply (proj1 (inject_Z_injective _ _)) in E; lia. }
  rewrite py_div_Ok by exact HNq; cbn [bind].
  assert (Hden' : ~ 1 - inject_Z S2 / inject_Z N ^ 2 == 0) by exact Hden.
  rewrite (np_div_Some _ _ Hden').
  eexists; split; [reflexivity |].
  fold z; field; split; [exact HNq | exact Hden].
Qed.

(** Predictions equal to truths that hold at least two distinct labels score
    exactly 1 in Peirce and in Heidke. *)
Theorem perfect_predictions_score_one (truths : list Z) (x y : Z) :
  In x truths -> In y truths -> x <> y ->
  exists p h,
    peirce_skill_score (Arr1 truths) (Arr1 truths) None = Ok (Some p) /\
    heidke_skill_score (Arr1 truths) (Arr1 truths) None = Ok (Some h) /\
    p == 1 /\ h == 1.
Proof.
  intros Hx Hy Hxy.
  set (cl := np_unique (np_append (np_unique truths) (np_unique truths))).
  set (t := label_table cl truths truths).
  set (k := length cl).
  assert (Hget : _get_contingency_table (Arr1 truths) (Arr1 truths) None = Ok t).
  { unfold _get_contingency_table; simpl; rewrite Nat.eqb_refl; reflexivity. }
  assert (Hsq : square k t) by apply label_table_square.
  assert (Hin : forall c, In c cl <-> In c truths).
  { intros c; unfold cl, np_append.
    rewrite np_unique_In, in_app_iff, !np_unique_In; tauto. }
  assert (Hnd : NoDup cl) by (apply sorted_lt_NoDup, np_unique_sorted).
  assert (Hk : (2 <= k)%nat).
  { apply Hin, In_nth_error in Hx; destruct Hx as [i Hi].
    apply Hin, In_nth_error in Hy; destruct Hy as [j Hj].
    assert (i < k)%nat by (apply nth_error_Some; congruence).
    assert (j < k)%nat by (apply nth_error_Some; congruence).
    assert (i <> j) by (intros ->; congruence).
    lia. }
  assert (Hcell : forall i j ci cj,
             nth_error cl i = Some ci -> nth_error cl j = Some cj ->
             cell t i j =
             float32_of_Z
               (count_positions
                  (fun p => (nth p truths 0 =? ci)%Z && (nth p truths 0 =? cj)%Z)
                  (length truths)))
    by (intros; now apply label_table_cell).
  assert (Hoff : forall i j, (i < k)%nat -> (j < k)%nat -> j <> i -> cell t i j = 0%Z).
  { intros i j Hi Hj Hne.
    destruct (nth_error cl i) as [ci |] eqn:Ei; [| apply nth_error_None in Ei; lia].
    destruct (nth_error cl j) as [cj |] eqn:Ej; [| apply nth_error_None in Ej; lia].
    rewrite (Hcell i j ci cj Ei Ej).
    rewrite count_positions_none; [reflexivity |]; intros p _.
    destruct (Z.eqb_spec (nth p truths 0%Z) ci) as [E1 |]; [| reflexivity].
    destruct (Z.eqb_spec (nth p truths 0%Z) cj) as [E2 |]; [| reflexivity].
    exfalso; apply Hne.
    eapply NoDup_nth_error_inj; [exact Hnd | exact Ej | congruence]. }
  assert (Hdiag : forall i, (i < k)%nat -> (0 < cell t i i)%Z).
  { intros i Hi.
    destruct (nth_error cl i) as [ci |] eqn:Ei; [| apply nth_error_None in Ei; lia].
    rewrite (Hcell i i ci ci Ei Ei).
    assert (Hci : In ci truths) by (apply Hin; eapply nth_error_In; eauto).
    apply (In_nth _ _ 0%Z) in Hci; destruct Hci as [p [Hp Ep]].
    apply float32_pos, (count_positions_some _ _ p Hp).
    rewrite Ep, Z.eqb_refl; reflexivity. }
  assert (Hrow : forall i, (i < k)%nat -> row_marginal k t i = cell t i i).
  { intros i Hi; unfold row_marginal.
    apply (big_sum_only k i (fun j => cell t i j) Hi).
    intros j Hj Hne; now apply Hoff. }
  assert (Hcol : forall i, (i < k)%nat -> col_marginal k t i = cell t i i).
  { intros i Hi; unfold col_marginal.
    apply (big_sum_only k i (fun j => cell t j i) Hi).
    intros j Hj Hne; apply Hoff; auto. }
  assert (Htotal : grand_total k t = correct k t).
  { unfold grand_total, correct; apply big_sum_ext; intros i Hi.
    now apply Hrow. }
  assert (Hrc : big_sum k (fun i => row_marginal k t i * col_marginal k t i)%Z
                = big_sum k (fun i => cell t i i * cell t i i)%Z).
  { apply big_sum_ext; intros i Hi; now rewrite Hrow, Hcol. }
  assert (Hcc : big_sum k (fun i => col_marginal k t i * col_marginal k t i)%Z
                = big_sum k (fun i => cell t i i * cell t i i)%Z).
  { apply big_sum_ext; intros i Hi; now rewrite Hcol. }
  destruct (big_sum_squares k (fun i => cell t i i) Hdiag) as [HN [_ Hlt]]; [lia |].
  specialize (Hlt Hk); fold (correct k t) in HN, Hlt.
  destruct (diagonal_quotient (correct k t)
              (big_sum k (fun i => cell t i i * cell t i i)%Z) HN Hlt)
    as [q [Hq Eq]].
  exists q, q.
  unfold peirce_skill_score, heidke_skill_score; rewrite Hget; cbn [bind].
  rewrite (peirce_indexed k t Hsq), (heidke_indexed k t Hsq).
  rewrite Htotal, Hrc, Hcc.
  repeat split; assumption.
Qed.

Lemma perfect_predictions_score_one_witness :
  exists p h,
    peirce_skill_score (Arr1 [3; 8; 3; 5]%Z) (Arr1 [3; 8; 3; 5]%Z) None = Ok (Some p) /\
    heidke_skill_score (Arr1 [3; 8; 3; 5]%Z) (Arr1 [3; 8; 3; 5]%Z) None = Ok (Some h) /\
    p == 1 /\ h == 1.
Proof.
  apply (perfect_predictions_score_one [3; 8; 3; 5]%Z 3%Z 8%Z);
    simpl; auto; discriminate.
Defined.

(** ** The further engine properties at the collaborators of the spec *)

Lemma rounds_only_append_witness :
  exists st' idx,
    rounds_fixed [9 # 10; 5 # 10; 7 # 10] Argmax ["A"; "B"; "C"]%string 2 = Ok st' /\
    important_vars st' = idx /\
    length idx = 2%nat.
Proof.
  destruct (rounds_fixed [9 # 10; 5 # 10; 7 # 10] Argmax ["A"; "B"; "C"]%string 2)
    as [st' | e] eqn:E; [| vm_compute in E; discriminate].
  destruct (rounds_only_append
              (list nat) unit Q string (Q * Q)%type Q strategy
              String.eqb Qltb (@fst Q Q) get_data_subset
              (convert_result_list_to_dict String.eqb)
              ([0; 1; 2]%nat, tt) ([0; 1; 2]%nat, tt)
              (fixed_scoring_fn [9 # 10; 5 # 10; 7 # 10]) Argmax sfs_strategy
              ["A"; "B"; "C"]%string String.eqb_eq 2%nat
              (init_state (Q * Q) ["A"; "B"; "C"]%string
                          "Sequential Forward Selection"%string)
              st' E)
    as [idx [entries [Hi [_ [Hlen _]]]]].
  exists st', idx; split; [reflexivity |]; split; [exact Hi | exact Hlen].
Defined.

Lemma unknown_winner_raises_witness :
  round String.eqb Qltb (@fst Q Q) get_data_subset
        (fun (_ : list (nat * Q)) (_ : list string) (_ : strategy) =>
           Ok [("Z"%string, (0, 0))])
        ([0; 1]%nat, tt) ([0; 1]%nat, tt)
        (fixed_scoring_fn [9 # 10; 5 # 10]) Argmin sfs_strategy
        ["A"; "B"]%string
        (init_state (Q * Q) ["A"; "B"]%string "Sequential Forward Selection"%string)
  = Raise IndexError.
Proof.
  apply (unknown_winner_raises
           (list nat) unit Q string (Q * Q)%type Q strategy
           String.eqb Qltb (@fst Q Q) get_data_subset
           (fun (_ : list (nat * Q)) (_ : list string) (_ : strategy) =>
              Ok [("Z"%string, (0, 0))])
           ([0; 1]%nat, tt) ([0; 1]%nat, tt)
           (fixed_scoring_fn [9 # 10; 5 # 10]) Argmin sfs_strategy
           ["A"; "B"]%string String.eqb_eq
           (init_state (Q * Q) ["A"; "B"]%string "Sequential Forward Selection"%string)
           [("Z"%string, (0, 0))] "Z"%string eq_refl eq_refl).
  simpl; intuition discriminate.
Defined.

Lemma too_many_rounds_raise_witness :
  run_fixed [9 # 10; 5 # 10; 7 # 10] Argmax ["A"; "B"; "C"]%string (Some 5%nat)
  = Raise ValueError.
Proof.
  apply (too_many_rounds_raise
           (list nat) unit Q string (Q * Q)%type Q strategy
           String.eqb Qltb (@fst Q Q) get_data_subset
           (convert_result_list_to_dict String.eqb)
           ([0; 1; 2]%nat, tt) ([0; 1; 2]%nat, tt)
           (fixed_scoring_fn [9 # 10; 5 # 10; 7 # 10]) Argmax sfs_strategy
           ["A"; "B"; "C"]%string
           String.eqb_eq
           ltac:(repeat constructor; simpl; intuition discriminate)
           (sfs_strategy_contract 3)
           (fun result =>
              convert_result_list_to_dict_contract
                String.eqb ["A"; "B"; "C"]%string Argmax result String.eqb_eq)
           "sfs_strategy"%string (Some "Sequential Forward Selection"%string) 5%nat).
  simpl; lia.
Defined.

Lemma full_run_ranks_every_variable_witness :
  exists r,
    run_fixed [9 # 10; 5 # 10; 7 # 10] Argmin ["A"; "B"; "C"]%string None = Ok r /\
    Permutation (important_sequence r) ["A"; "B"; "C"]%string.
Proof.
  destruct (full_run_ranks_every_variable
              (list nat) unit Q string (Q * Q)%type Q strategy
              String.eqb Qltb (@fst Q Q) get_data_subset
              (convert_result_list_to_dict String.eqb)
              ([0; 1; 2]%nat, tt) ([0; 1; 2]%nat, tt)
              (fixed_scoring_fn [9 # 10; 5 # 10; 7 # 10]) Argmin sfs_strategy
              ["A"; "B"; "C"]%string
              String.eqb_eq
              ltac:(repeat constructor; simpl; intuition discriminate)
              (sfs_strategy_contract 3)
              (fun result =>
                 convert_result_list_to_dict_contract
                   String.eqb ["A"; "B"; "C"]%string Argmin result String.eqb_eq)
              "sfs_strategy"%string (Some "Sequential Forward Selection"%string))
    as [st [_ [Hrun [_ Hperm]]]].
  exists (result_obj st); split; [exact Hrun | exact Hperm].
Defined.

(** ** What the returned result carries *)

(** A run that returns hands back a result under the given method name (the
    name of the selection strategy when none is given), with the variable
    names it was started with and one ledger entry per requested round (one
    per variable when no number is given); sequential forward selection
    always reports the method "Sequential Forward Selection". *)
Theorem result_carries_method_and_names
        (Inputs Outputs Score Name Value Key Strategy : Type)
        (name_eqb : Name -> Name -> bool) (key_ltb : Key -> Key -> bool)
        (item0 : Value -> Key) (data_subset : Inputs -> list nat -> Inputs)
        (convert : list (nat * Score) -> list Name -> Strategy
                   -> outcome (dict Name Value))
        (training_data scoring_data : Inputs * Outputs)
        (scoring_fn : Inputs * Outputs -> Inputs * Outputs -> Score)
        (scoring_strategy : Strategy) (variable_names : list Name) :
  (forall a b, name_eqb a b = true <-> a = b) ->
  (forall selection_strategy strategy_name nimportant_vars method r,
      sequential_selection name_eqb key_ltb item0 data_subset convert training_data
        scoring_data scoring_fn scoring_strategy selection_strategy variable_names
        strategy_name nimportant_vars method = Ok r ->
      method_name r = match method with None => strategy_name | Some s => s end /\
      result_names r = variable_names /\
      length (ledger r)
      = match nimportant_vars with None => length variable_names | Some n => n end) /\
  (forall nimportant_vars r,
      sequential_forward_selection name_eqb key_ltb item0 data_subset convert
        training_data scoring_data scoring_fn scoring_strategy variable_names
        nimportant_vars = Ok r ->
      method_name r = "Sequential Forward Selection"%string).
Proof.
  intros Hspec.
  assert (Hgen : forall selection_strategy strategy_name nimportant_vars method r,
             sequential_selection name_eqb key_ltb item0 data_subset convert
               training_data scoring_data scoring_fn scoring_strategy
               selection_strategy variable_names strategy_name nimportant_vars method
             = Ok r ->
             method_name r = match method with None => strategy_name | Some s => s end /\
             result_names r = variable_names /\
             length (ledger r)
             = match nimportant_vars with
               | None => length variable_names
               | Some n => n
               end).
  { intros sel name nimp method r H; unfold sequential_selection in H.
    apply bind_Ok_inv in H; destruct H as [st [Hrun H]]; injection H as <-.
    destruct (rounds_trace _ _ _ _ _ _ _ _ _ _ _ _ _ _ _ _ _ _ Hspec _ _ _ Hrun)
      as [idx [entries [_ [Hl [Hf [Hlen [Hm Hn]]]]]]].
    simpl in Hl, Hm, Hn; rewrite Hm, Hn, Hl.
    split; [reflexivity |]; split; [reflexivity |].
    now rewrite <- (Forall2_length Hf), Hlen. }
  split; [exact Hgen |].
  intros nimp r H; unfold sequential_forward_selection in H.
  now destruct (Hgen _ _ _ _ _ H) as [-> _].
Qed.

Lemma result_carries_method_and_names_witness :
  exists r,
    run_fixed [9 # 10; 5 # 10; 7 # 10] Argmax ["A"; "B"; "C"]%string (Some 2%nat) = Ok r /\
    method_name r = "Sequential Forward Selection"%string.
Proof.
  destruct (run_fixed [9 # 10; 5 # 10; 7 # 10] Argmax ["A"; "B"; "C"]%string (Some 2%nat))
    as [r | e] eqn:E; [| vm_compute in E; discriminate].
  exists r; split; [reflexivity |].
  destruct (result_carries_method_and_names
              (list nat) unit Q string (Q * Q)%type Q strategy
              String.eqb Qltb (@fst Q Q) get_data_subset
              (convert_result_list_to_dict String.eqb)
              ([0; 1; 2]%nat, tt) ([0; 1; 2]%nat, tt)
              (fixed_scoring_fn [9 # 10; 5 # 10; 7 # 10]) Argmax
              ["A"; "B"; "C"]%string String.eqb_eq) as [_ Hfwd].
  exact (Hfwd (Some 2%nat) r E).
Defined.
